(** * Amdahl / Gunther scalability micro-benchmark: a shallow embedding

    Source: [src/performance/amdahl_and_gunther.cpp].

    The C++ [double] is modelled by the binary64 instance of the Standard
    Library's [spec_float] (round to nearest, ties to even), [uint64_t] by
    [Z] with the wrap-around modulo [2^64] written out, and [int] by [Z]
    together with the range in which the source's arithmetic is defined.
    The wall clock is an oracle: the [k]-th Driver invocation of a process
    takes [clock k] seconds. *)

From Stdlib Require Import ZArith List Sorted Bool Lia.
From Stdlib Require Import QArith Qround Qabs Qpower Lqa.
From Stdlib Require Import SpecFloat.
Import ListNotations.

Local Open Scope Z_scope.

(** ** Machine integers *)

Definition UINT64_MOD : Z := 2 ^ 64.
Definition INT_MAX : Z := 2 ^ 31 - 1.
Definition INT_MIN : Z := - 2 ^ 31.

Definition wrap64 (z : Z) : Z := z mod UINT64_MOD.
Definition is_uint64 (z : Z) : Prop := 0 <= z < UINT64_MOD.
Definition is_int (z : Z) : Prop := INT_MIN <= z <= INT_MAX.

(** ** IEEE-754 binary64 *)

Module Double.

Definition prec : Z := 53.
Definition emax : Z := 1024.

Definition double : Type := spec_float.

Definition add : double -> double -> double := SFadd prec emax.
Definition sub : double -> double -> double := SFsub prec emax.
Definition mul : double -> double -> double := SFmul prec emax.
Definition div : double -> double -> double := SFdiv prec emax.
Definition eqb : double -> double -> bool := SFeqb.
Definition leb : double -> double -> bool := SFleb.
Definition ltb : double -> double -> bool := SFltb.

(** Conversion of an integer ([int] or [uint64_t]) to [double]. *)
Definition of_Z (z : Z) : double := binary_normalize prec emax z 0 false.

Definition zero : double := S754_zero false.
Definition one : double := S754_finite false 4503599627370496 (-52).

(** The values a C++ [double] can hold. *)
Definition is_double (x : double) : Prop := valid_binary prec emax x = true.

Definition is_finite (x : double) : bool :=
  match x with
  | S754_zero _ | S754_finite _ _ _ => true
  | _ => false
  end.

(** The rational a finite [double] stands for. *)
Definition to_Q (x : double) : Q :=
  match x with
  | S754_finite s m e =>
      match e with
      | Zneg p => Qmake (cond_Zopp s (Zpos m)) (2 ^ p)
      | _ => inject_Z (cond_Zopp s (Zpos m) * 2 ^ e)
      end
  | _ => 0%Q
  end.

(** Integer part, towards zero: the value of a floating-integral
    conversion before the range of the destination type is checked. *)
Definition trunc (x : double) : option Z :=
  match x with
  | S754_zero _ => Some 0
  | S754_finite s m e =>
      Some (cond_Zopp s
              (match e with
               | Zneg p => Zpos m / 2 ^ Zpos p
               | _ => Zpos m * 2 ^ e
               end))
  | _ => None
  end.

(** [static_cast<uint64_t>(x)]: undefined ([None]) when the truncated
    value is not a [uint64_t]. *)
Definition to_uint64 (x : double) : option Z :=
  match trunc x with
  | Some z => if (0 <=? z) && (z <? UINT64_MOD) then Some z else None
  | None => None
  end.

(** [int(x)]: undefined ([None]) when the truncated value is not an [int]. *)
Definition to_int (x : double) : option Z :=
  match trunc x with
  | Some z => if (INT_MIN <=? z) && (z <=? INT_MAX) then Some z else None
  | None => None
  end.

(** The literals of the source, as the nearest binary64 values. *)
Definition lit_0_10 : double := S754_finite false 7205759403792794 (-56).
Definition lit_0_02 : double := S754_finite false 5764607523034235 (-58).
Definition lit_0_003 : double := S754_finite false 6917529027641082 (-61).

End Double.

Import Double.

(** ** Workload Generator: [busy_work] *)

(** One iteration of the loop body: [acc += (i * 48271ULL) ^ (acc >> 3)]. *)
Definition busy_step (i acc : Z) : Z :=
  wrap64 (acc + Z.lxor (wrap64 (i * 48271)) (Z.shiftr acc 3)).

Record busy_state := { bw_i : Z; bw_acc : Z; bw_steps : nat }.

(** [for (uint64_t i = 0; i < iters; ++i) ...]: the loop as a machine that
    counts the executions of its body.  [None] is lack of fuel. *)
Fixpoint busy_loop (fuel : nat) (iters : Z) (st : busy_state) : option busy_state :=
  if bw_i st <? iters then
    match fuel with
    | O => None
    | S fuel' =>
        busy_loop fuel' iters
          {| bw_i := wrap64 (bw_i st + 1);
             bw_acc := busy_step (bw_i st) (bw_acc st);
             bw_steps := S (bw_steps st) |}
    end
  else Some st.

(** [busy_work iters sink]: the value stored in [sink] and the number of
    iterations executed. *)
Definition busy_work (iters : Z) : option (Z * nat) :=
  match busy_loop (S (Z.to_nat iters)) iters {| bw_i := 0; bw_acc := 0; bw_steps := 0 |} with
  | Some st => Some (bw_acc st, bw_steps st)
  | None => None
  end.

(** ** Theoretical curves *)

(** [1.0 / (s + (1.0 - s) / N)] *)
Definition amdahl (s : double) (N : Z) : double :=
  div one (add s (div (sub one s) (of_Z N))).

(** [N / (1 + alpha*(N-1) + beta*N*(N-1))] *)
Definition gunther (alpha beta : double) (N : Z) : double :=
  div (of_Z N)
      (add (add (of_Z 1) (mul alpha (of_Z (N - 1))))
           (mul (mul beta (of_Z N)) (of_Z (N - 1)))).

(** ** Run parameters *)

Record RunParameters := {
  s : double;
  alpha : double;
  beta : double;
  total_iters : Z;
  maxN : Z;
  coh_rounds : Z;
  coh_ops : Z;
  lock_iters : Z
}.

(** The process arguments after [atof], [strtoull] and [atoi]: [argc] and
    the parsed value of each [argv[i]] (only read when [argc > i]). *)
Record ParsedArgs := {
  argc : Z;
  argv1 : double;
  argv2 : double;
  argv3 : double;
  argv4 : Z;
  argv5 : Z;
  argv6 : Z;
  argv7 : Z;
  argv8 : Z
}.

(** [int(100 + 500*alpha)] *)
Definition default_lock_iters (alpha : double) : option Z :=
  to_int (add (of_Z 100) (mul (of_Z 500) alpha)).

Definition resolve (a : ParsedArgs) : option RunParameters :=
  let s := if argc a >? 1 then argv1 a else lit_0_10 in
  let alpha := if argc a >? 2 then argv2 a else lit_0_02 in
  let beta := if argc a >? 3 then argv3 a else lit_0_003 in
  let total_iters := if argc a >? 4 then argv4 a else 400000000 in
  let maxN := if argc a >? 5 then argv5 a else 100 in
  let coh_rounds := if argc a >? 6 then argv6 a else 2000 in
  let coh_ops := if argc a >? 7 then argv7 a else 512 in
  match (if argc a >? 8 then Some (argv8 a) else default_lock_iters alpha) with
  | Some lock_iters =>
      Some {| s := s; alpha := alpha; beta := beta; total_iters := total_iters;
              maxN := maxN; coh_rounds := coh_rounds; coh_ops := coh_ops;
              lock_iters := lock_iters |}
  | None => None
  end.

(** ** Benchmark Driver: [run_with] *)

(** The eight atomics of [PackedLine]. *)
Inductive packed_field := a0 | a1 | a2 | a3 | a4 | a5 | a6 | a7.

(** What a worker thread does, one operation at a time. *)
Inductive op :=
| BusyWork (iters : Z)            (* busy_work(per, sink2) *)
| ArriveAndWait                   (* sync_point.arrive_and_wait() *)
| HotFetchAdd                     (* hot.v.fetch_add(1, seq_cst) *)
| PackedFetchAdd (f : packed_field) (* packed.a<f>.fetch_add(1, seq_cst) *)
| MutexLock                       (* lock_guard constructed *)
| MutexUnlock.                    (* lock_guard destroyed *)

(** [for (int k = 0; k < bound; ++k) body(k)] *)
Fixpoint for_from {A : Type} (n : nat) (k : Z) (body : Z -> list A) : list A :=
  match n with
  | O => []
  | S n' => body k ++ for_from n' (k + 1) body
  end.

Definition for_int {A : Type} (bound : Z) (body : Z -> list A) : list A :=
  for_from (Z.to_nat bound) 0 body.

(** [switch (k & 7) { case 0: packed.a0.fetch_add ... }] *)
Definition packed_switch (k : Z) : list op :=
  match Z.land k 7 with
  | 0 => [PackedFetchAdd a0]
  | 1 => [PackedFetchAdd a1]
  | 2 => [PackedFetchAdd a2]
  | 3 => [PackedFetchAdd a3]
  | 4 => [PackedFetchAdd a4]
  | 5 => [PackedFetchAdd a5]
  | 6 => [PackedFetchAdd a6]
  | 7 => [PackedFetchAdd a7]
  | _ => []
  end.

(** One coherence round of a worker. *)
Definition coherence_round (p : RunParameters) (r : Z) : list op :=
  [ArriveAndWait]
  ++ for_int (coh_ops p) (fun _ => [HotFetchAdd])
  ++ for_int (coh_ops p) packed_switch.

(** The body of the lambda handed to [ts.emplace_back]. *)
Definition worker (p : RunParameters) (per : Z) : list op :=
  [BusyWork per]
  ++ for_int (coh_rounds p) (coherence_round p)
  ++ for_int (lock_iters p) (fun _ => [MutexLock; MutexUnlock]).

(** One Driver invocation: the decomposition of the work and the threads
    it launches. *)
Record Invocation := {
  inv_N : Z;
  serial_iters : Z;
  parallel_iters : Z;
  per : Z;
  threads : list (list op)
}.

(** [static_cast<uint64_t>(total_iters * s)] *)
Definition serial_of (p : RunParameters) : option Z :=
  to_uint64 (mul (of_Z (total_iters p)) (s p)).

Definition run_with (p : RunParameters) (N : Z) : option Invocation :=
  match serial_of p with
  | Some serial =>
      let parallel := wrap64 (total_iters p - serial) in
      if wrap64 N =? 0 then None
      else
        let per := parallel / wrap64 N in
        Some {| inv_N := N;
                serial_iters := serial;
                parallel_iters := parallel;
                per := per;
                threads := for_int N (fun _ => [worker p per]) |}
  | None => None
  end.

(** ** The thread pool of one invocation *)

Inductive status := Running | AtBarrier.

Record thread := { th_status : status; th_todo : list op }.

Record pool := {
  pl_threads : list thread;
  pl_hot : Z;
  pl_packed : packed_field -> Z;
  pl_mutex : option nat;
  pl_arrived : nat;
  pl_sink2 : Z;
  pl_trace : list (nat * op)
}.

Definition packed_field_eqb (f g : packed_field) : bool :=
  match f, g with
  | a0, a0 | a1, a1 | a2, a2 | a3, a3 | a4, a4 | a5, a5 | a6, a6 | a7, a7 => true
  | _, _ => false
  end.

Definition set_nth {A : Type} (i : nat) (x : A) (l : list A) : list A :=
  firstn i l ++ match skipn i l with [] => [] | _ :: t => x :: t end.

Definition release (t : thread) : thread :=
  {| th_status := Running; th_todo := th_todo t |}.

Definition init_pool (ts : list (list op)) : pool :=
  {| pl_threads := map (fun prog => {| th_status := Running; th_todo := prog |}) ts;
     pl_hot := 0;
     pl_packed := fun _ => 0;
     pl_mutex := None;
     pl_arrived := 0;
     pl_sink2 := 0;
     pl_trace := [] |}.

(** Thread [i] performs its next operation, if it can. *)
Definition step (c : pool) (i : nat) : option pool :=
  match nth_error (pl_threads c) i with
  | Some {| th_status := Running; th_todo := o :: rest |} =>
      let continue := set_nth i {| th_status := Running; th_todo := rest |} (pl_threads c) in
      let log := pl_trace c ++ [(i, o)] in
      match o with
      | BusyWork n =>
          match busy_work n with
          | Some (acc, _) =>
              Some {| pl_threads := continue; pl_hot := pl_hot c; pl_packed := pl_packed c;
                      pl_mutex := pl_mutex c; pl_arrived := pl_arrived c;
                      pl_sink2 := acc; pl_trace := log |}
          | None => None
          end
      | ArriveAndWait =>
          if Nat.eqb (S (pl_arrived c)) (length (pl_threads c)) then
            Some {| pl_threads := map release continue;
                    pl_hot := pl_hot c; pl_packed := pl_packed c;
                    pl_mutex := pl_mutex c; pl_arrived := 0;
                    pl_sink2 := pl_sink2 c; pl_trace := log |}
          else
            Some {| pl_threads := set_nth i {| th_status := AtBarrier; th_todo := rest |} (pl_threads c);
                    pl_hot := pl_hot c; pl_packed := pl_packed c;
                    pl_mutex := pl_mutex c; pl_arrived := S (pl_arrived c);
                    pl_sink2 := pl_sink2 c; pl_trace := log |}
      | HotFetchAdd =>
          Some {| pl_threads := continue; pl_hot := wrap64 (pl_hot c + 1);
                  pl_packed := pl_packed c; pl_mutex := pl_mutex c;
                  pl_arrived := pl_arrived c; pl_sink2 := pl_sink2 c; pl_trace := log |}
      | PackedFetchAdd f =>
          Some {| pl_threads := continue; pl_hot := pl_hot c;
                  pl_packed := fun g => if packed_field_eqb f g
                                        then wrap64 (pl_packed c g + 1) else pl_packed c g;
                  pl_mutex := pl_mutex c; pl_arrived := pl_arrived c;
                  pl_sink2 := pl_sink2 c; pl_trace := log |}
      | MutexLock =>
          match pl_mutex c with
          | None =>
              Some {| pl_threads := continue; pl_hot := pl_hot c; pl_packed := pl_packed c;
                      pl_mutex := Some i; pl_arrived := pl_arrived c;
                      pl_sink2 := pl_sink2 c; pl_trace := log |}
          | Some _ => None
          end
      | MutexUnlock =>
          Some {| pl_threads := continue; pl_hot := pl_hot c; pl_packed := pl_packed c;
                  pl_mutex := None; pl_arrived := pl_arrived c;
                  pl_sink2 := pl_sink2 c; pl_trace := log |}
      end
  | _ => None
  end.

(** The pool under a schedule: the scheduler names a thread at each turn; a
    thread that cannot move (blocked, finished or absent) loses its turn. *)
Fixpoint exec (sched : list nat) (c : pool) : pool :=
  match sched with
  | [] => c
  | i :: sched' =>
      match step c i with
      | Some c' => exec sched' c'
      | None => exec sched' c
      end
  end.

(** What thread [i] has done so far, in the order it did it. *)
Definition done_by (i : nat) (c : pool) : list op :=
  map snd (filter (fun e => Nat.eqb (fst e) i) (pl_trace c)).

Definition todo_of (i : nat) (c : pool) : list op :=
  match nth_error (pl_threads c) i with
  | Some t => th_todo t
  | None => []
  end.

Definition all_joined (c : pool) : bool :=
  forallb (fun t => match th_todo t with [] => true | _ => false end) (pl_threads c).

(** The three phases of a worker. *)
Inductive phase := Compute | Coherence | Contention.

Definition phase_of (o : op) : phase :=
  match o with
  | BusyWork _ => Compute
  | ArriveAndWait | HotFetchAdd | PackedFetchAdd _ => Coherence
  | MutexLock | MutexUnlock => Contention
  end.

Definition phase_rank (ph : phase) : nat :=
  match ph with Compute => 0 | Coherence => 1 | Contention => 2 end.

(** The counter a coherence operation with index [k mod 8] goes to. *)
Definition field_of_index (j : Z) : packed_field :=
  match j with
  | 0 => a0 | 1 => a1 | 2 => a2 | 3 => a3
  | 4 => a4 | 5 => a5 | 6 => a6 | _ => a7
  end.

(** ** Sweep Controller: [main] *)

Record ResultRecord := {
  rr_N : Z;
  measured_speedup : double;
  amdahl_speedup : double;
  gunther_speedup : double;
  elapsed_seconds : double
}.

(** What the process has done so far: the rows written to [cout] and the
    Driver invocations made, both oldest first. *)
Record process := {
  rows : list ResultRecord;
  invocations : list Invocation
}.

Section Main.

(** Wall clock: the elapsed seconds [run_with] returns at its [k]-th call. *)
Variable clock : nat -> double.

(** A call [run_with(N)] as [main] sees it. *)
Definition timed_run (p : RunParameters) (N : Z) (st : process)
  : option (double * process) :=
  match run_with p N with
  | Some inv =>
      Some (clock (length (invocations st)),
            {| rows := rows st; invocations := invocations st ++ [inv] |})
  | None => None
  end.

(** [for (int N = 1; N <= maxN; ++N) { ... }], entered at [N].  [None] is
    undefined behaviour (a cast out of range, [++N] at [INT_MAX]) or lack
    of fuel. *)
Fixpoint sweep (fuel : nat) (p : RunParameters) (t1 : double) (N : Z) (st : process)
  : option process :=
  match fuel with
  | O => None
  | S fuel' =>
      if N <=? maxN p then
        match (if N =? 1 then Some (t1, st) else timed_run p N st) with
        | Some (tN, st1) =>
            let meas := div t1 tN in
            let row := {| rr_N := N;
                          measured_speedup := meas;
                          amdahl_speedup := amdahl (s p) N;
                          gunther_speedup := gunther (alpha p) (beta p) N;
                          elapsed_seconds := tN |} in
            let st2 := {| rows := rows st1 ++ [row]; invocations := invocations st1 |} in
            if N =? INT_MAX then None else sweep fuel' p t1 (N + 1) st2
        | None => None
        end
      else Some st
  end.

(** The Sweep Controller on resolved parameters. *)
Definition sweep_controller (p : RunParameters) : option process :=
  match timed_run p 1 {| rows := []; invocations := [] |} with
  | Some (t1, st) => sweep (S (Z.to_nat (maxN p))) p t1 1 st
  | None => None
  end.

(** [main]: the final state of the process and its exit status. *)
Definition main (a : ParsedArgs) : option (process * Z) :=
  match resolve a with
  | Some p =>
      match sweep_controller p with
      | Some st => Some (st, 0)
      | None => None
      end
  | None => None
  end.

End Main.

(** The [n] consecutive integers from [lo]. *)
Fixpoint Zseq (lo : Z) (n : nat) : list Z :=
  match n with
  | O => []
  | S n' => lo :: Zseq (lo + 1) n'
  end.

(** Compute iterations a worker program asks for. *)
Fixpoint compute_iters (w : list op) : Z :=
  match w with
  | [] => 0
  | BusyWork n :: w' => n + compute_iters w'
  | _ :: w' => compute_iters w'
  end.

Definition total_compute_iters (ts : list (list op)) : Z :=
  fold_right (fun w acc => compute_iters w + acc) 0 ts.

Definition is_busy (o : op) : bool :=
  match o with BusyWork _ => true | _ => false end.

(** A [double] that is not negative: [+0], [-0], a positive number, [+inf];
    or a NaN. *)
Definition not_negative (x : double) : Prop :=
  match x with
  | S754_finite true _ _ | S754_infinity true => False
  | _ => True
  end.

(** Parameters small enough to run the model on. *)
Definition small_params (sf : double) (total mx : Z) : RunParameters :=
  {| s := sf; alpha := lit_0_02; beta := lit_0_003; total_iters := total;
     maxN := mx; coh_rounds := 2; coh_ops := 3; lock_iters := 2 |}.


(** [1.5] and [0.0039] as binary64 values. *)
Definition lit_1_5 : double := S754_finite false 6755399441055744 (-52).
Definition lit_0_0039 : double := S754_finite false 8992787735933406 (-61).

(** [z] is an integer nearest to [x] (either one, at a tie). *)
Definition nearest_integer (x : Q) (z : Z) : Prop :=
  (Qabs (x - inject_Z z) <= 1 # 2)%Q.

(** Arguments that give only [s] and [alpha] on the command line. *)
Definition args_s_alpha (sf al : double) : ParsedArgs :=
  {| argc := 3; argv1 := sf; argv2 := al; argv3 := zero;
     argv4 := 0; argv5 := 0; argv6 := 0; argv7 := 0; argv8 := 0 |}.

(** The programs still to run, thread by thread. *)
Definition todos (c : pool) : list (list op) := map th_todo (pl_threads c).

(** Operations in program order never go back to an earlier phase. *)
Definition phase_le (o1 o2 : op) : Prop :=
  (phase_rank (phase_of o1) <= phase_rank (phase_of o2))%nat.

Definition phases_in_order (l : list op) : Prop := StronglySorted phase_le l.

(** One coherence round, as the specification words it: the rendezvous,
    [ops] increments of the hot counter, then [ops] increments spread over
    the packed counters by [op_index mod 8]. *)
Definition round_shape (ops : Z) : list op :=
  ArriveAndWait
  :: repeat HotFetchAdd (Z.to_nat ops)
  ++ map (fun k => PackedFetchAdd (field_of_index (k mod 8))) (Zseq 0 (Z.to_nat ops)).

(** The row the sweep writes for [N], given the baseline time [t1] and the
    time [tN] of the run with [N] threads. *)
Definition result_row (p : RunParameters) (t1 tN : double) (N : Z) : ResultRecord :=
  {| rr_N := N;
     measured_speedup := div t1 tN;
     amdahl_speedup := amdahl (s p) N;
     gunther_speedup := gunther (alpha p) (beta p) N;
     elapsed_seconds := tN |}.

(** The row for [N] when the Driver invocations are made in the order
    [N = 1, 2, 3, ...]: the invocation with [N] threads is the one numbered
    [N - 1], and the baseline is the one numbered [0]. *)
Definition expected_row (clock : nat -> double) (p : RunParameters) (N : Z)
  : ResultRecord :=
  result_row p (clock O) (clock (Z.to_nat (N - 1))) N.

(** A clock for running the model: the [k]-th invocation takes [k + 1]
    seconds. *)
Definition sample_clock (k : nat) : double := of_Z (Z.of_nat k + 1).

(** A program that a thread can run to its end with no other thread
    around: its [busy_work] counts are [uint64_t] values and it never
    locks the mutex while holding it.  [held] tells whether the mutex is
    held at the start. *)
Fixpoint runs_alone (held : bool) (prog : list op) : Prop :=
  match prog with
  | [] => True
  | BusyWork n :: rest => is_uint64 n /\ runs_alone held rest
  | MutexLock :: rest => held = false /\ runs_alone true rest
  | MutexUnlock :: rest => runs_alone false rest
  | _ :: rest => runs_alone held rest
  end.

Definition mutex_held (c : pool) : bool :=
  match pl_mutex c with Some _ => true | None => false end.

(** ** Rounding, step by step

    The mantissa handed to the rounding procedure, followed by its round
    bit and its sticky bit, is read as one integer, a _code_:
    [4 * m + 2 * round + sticky]. *)

Definition b2z (b : bool) : Z := if b then 1 else 0.

Definition loc_code (l : location) : Z :=
  match l with
  | loc_Exact => 0
  | loc_Inexact Lt => 1
  | loc_Inexact Eq => 2
  | loc_Inexact Gt => 3
  end.

Definition rec_code (mrs : shr_record) : Z :=
  4 * shr_m mrs + 2 * b2z (shr_r mrs) + b2z (shr_s mrs).

(** Shift right by [n] bits, the last bit kept sticky. *)
Definition ssr (c n : Z) : Z :=
  2 * (c / 2 ^ (n + 1)) + (if c mod 2 ^ (n + 1) =? 0 then 0 else 1).

(** Round a code to the nearest mantissa, ties to even. *)
Definition rne4 (c : Z) : Z :=
  match c mod 4 with
  | 0 | 1 => c / 4
  | 2 => if Z.even (c / 4) then c / 4 else c / 4 + 1
  | _ => c / 4 + 1
  end.

(** The end of [binary_round_aux]: renormalise the rounded mantissa and
    check for overflow. *)
Definition finish (sx : bool) (m e : Z) : double :=
  let '(mrs, e') := shr_fexp prec emax m e loc_Exact in
  match shr_m mrs with
  | Z0 => S754_zero sx
  | Zpos q => if e' <=? emax - prec then S754_finite sx q e' else S754_infinity sx
  | Zneg _ => S754_nan
  end.

Definition round_code (sx : bool) (c e : Z) : double := finish sx (rne4 c) e.

(** ** What rounding computes

    A positive rational [x] seen at exponent [e]: its code is the integer
    part of [x / 2^e] followed by the next bit and by a sticky bit that
    tells whether anything is left below. *)

Definition pow2 (e : Z) : Q := (2 ^ e)%Q.

Definition sticky (y : Q) : Z :=
  if Qeq_bool (inject_Z (Qfloor y)) y then 0 else 1.

Definition scode (x : Q) (e : Z) : Z :=
  2 * Qfloor (x * pow2 (1 - e)) + sticky (x * pow2 (1 - e)).

(** [k] is the binary order of magnitude of [x]. *)
Definition bracket (x : Q) (k : Z) : Prop :=
  (pow2 (k - 1) <= x)%Q /\ (x < pow2 k)%Q.

(** The [double] nearest to [x] (ties to even), [k] being the order of
    magnitude of [x] and [sx] the sign to give to the result. *)
Definition RND (sx : bool) (x : Q) (k : Z) : double :=
  round_code sx (scode x (fexp prec emax k)) (fexp prec emax k).

(** The result of rounding, from the rounded mantissa [m1] at the
    exponent [e] of the format. *)
Definition pack (sx : bool) (m1 e : Z) : double :=
  if m1 =? 0 then S754_zero sx
  else if m1 =? 2 ^ 53 then
    (if e + 1 <=? 971 then S754_finite sx 4503599627370496 (e + 1)
     else S754_infinity sx)
  else if e <=? 971 then S754_finite sx (Z.to_pos m1) e
  else S754_infinity sx.

(** What rounding can hand to [pack]. *)
Definition packable (m1 e : Z) : Prop :=
  -1074 <= e /\ 0 <= m1 <= 2 ^ 53 /\ (-1074 < e -> 2 ^ 52 <= m1).

(** The place of a non-negative [double] in the order of all of them. *)
Definition okey (m1 e : Z) : Z := (e + 1074) * 2 ^ 52 + m1.

(** The key from which on [pack] overflows. *)
Definition OKEY_INF : Z := 2047 * 2 ^ 52.

(** A positive finite [double]. *)
Definition posfin (X : double) : Prop :=
  exists m e, X = S754_finite false m e /\ bounded prec emax m e = true.

(** [X] is the [double] that rounding the positive rational [x] gives. *)
Definition rounds_to (x : Q) (X : double) : Prop :=
  exists k, bracket x k /\ X = RND false x k.

(** The denominator of Amdahl's formula: [s + (1.0 - s) / N]. *)
Definition denominator (sf : double) (N : Z) : double :=
  add sf (div (sub one sf) (of_Z N)).

(** The end-to-end scenario: no serial fraction, no synthetic contention,
    four thread counts. *)
Definition scenario : RunParameters :=
  {| s := zero; alpha := zero; beta := zero; total_iters := 1000000;
     maxN := 4; coh_rounds := 0; coh_ops := 0; lock_iters := 0 |}.

(** ** The shared state of an invocation, under every schedule *)

(** Selectors of operations. *)
Definition is_hot (o : op) : bool :=
  match o with HotFetchAdd => true | _ => false end.

Definition is_packed (g : packed_field) (o : op) : bool :=
  match o with PackedFetchAdd f => packed_field_eqb f g | _ => false end.

Definition is_arrive (o : op) : bool :=
  match o with ArriveAndWait => true | _ => false end.

Definition count_ops (sel : op -> bool) (l : list op) : Z :=
  Z.of_nat (length (filter sel l)).

(** Selected operations the threads of a pool have still to perform, and
    those the pool has performed. *)
Definition pending (sel : op -> bool) (c : pool) : Z :=
  fold_right (fun l acc => count_ops sel l + acc) 0 (todos c).

Definition performed (sel : op -> bool) (c : pool) : Z :=
  count_ops sel (map snd (pl_trace c)).

(** All operations still to perform. *)
Definition ops_left (c : pool) : nat :=
  fold_right (fun l acc => (length l + acc)%nat) O (todos c).

(** The eight counters of [PackedLine], in declaration order. *)
Definition packed_fields : list packed_field := [a0; a1; a2; a3; a4; a5; a6; a7].

Definition packed_sum (c : pool) : Z :=
  fold_right (fun f acc => pl_packed c f + acc) 0 packed_fields.

(** The case label of [switch (k & 7)] under which a counter is
    incremented. *)
Definition field_index (f : packed_field) : Z :=
  match f with
  | a0 => 0 | a1 => 1 | a2 => 2 | a3 => 3
  | a4 => 4 | a5 => 5 | a6 => 6 | a7 => 7
  end.

(** How many [k] in [0 .. ops - 1] have [k & 7 = j]. *)
Definition packed_share (ops j : Z) : Z := (Z.max 0 ops + 7 - j) / 8.

(** The mutex as the trace tells it: [Some holder] as long as every lock
    found the mutex free and every unlock was made by the thread holding
    it; [None] once that discipline is broken. *)
Definition lock_event (st : option (option nat)) (e : nat * op)
  : option (option nat) :=
  match st with
  | None => None
  | Some holder =>
      match snd e, holder with
      | MutexLock, None => Some (Some (fst e))
      | MutexLock, Some _ => None
      | MutexUnlock, Some h => if Nat.eqb h (fst e) then Some None else None
      | MutexUnlock, None => None
      | _, _ => Some holder
      end
  end.

Definition lock_discipline (tr : list (nat * op)) : option (option nat) :=
  fold_left lock_event tr (Some None).

(** Thread [j] holds the mutex. *)
Definition holds (c : pool) (j : nat) : bool :=
  match pl_mutex c with Some h => Nat.eqb h j | None => false end.

(** A program in which the mutex is only held by a [lock_guard] whose
    scope is empty: a lock is followed at once by its unlock.  [held]
    tells whether the program starts inside such a scope. *)
Fixpoint lock_scoped (held : bool) (l : list op) : bool :=
  match l with
  | [] => negb held
  | MutexUnlock :: rest => held && lock_scoped false rest
  | MutexLock :: rest => negb held && lock_scoped true rest
  | _ :: rest => negb held && lock_scoped false rest
  end.

(** Threads blocked in [arrive_and_wait]. *)
Definition at_barrier (t : thread) : bool :=
  match th_status t with AtBarrier => true | Running => false end.

Definition waiting (c : pool) : nat := length (filter at_barrier (pl_threads c)).

(** Arrivals at the barrier: those thread [j] has made in a trace, and
    those a thread has still to make. *)
Definition arrivals (j : nat) (tr : list (nat * op)) : nat :=
  length (filter (fun e => Nat.eqb (fst e) j && is_arrive (snd e)) tr).

Definition arrivals_left (t : thread) : Z := count_ops is_arrive (th_todo t).

(** A [busy_work] call whose count is a [uint64_t]. *)
Definition busy_ok (o : op) : Prop :=
  match o with BusyWork n => is_uint64 n | _ => True end.

(** What every reachable pool of worker threads satisfies: the barrier
    counts the blocked threads and never holds all of them; the threads
    are in the same barrier phase, those blocked being one arrival ahead;
    the mutex is held inside an empty scope by a thread that is not
    blocked at the barrier. *)
Definition pool_inv (c : pool) : Prop :=
  pl_arrived c = waiting c /\
  (pl_threads c = [] \/ (waiting c < length (pl_threads c))%nat) /\
  (exists G, forall j t, nth_error (pl_threads c) j = Some t ->
     arrivals_left t + (if at_barrier t then 1 else 0) = G) /\
  (forall j t, nth_error (pl_threads c) j = Some t ->
     lock_scoped (holds c j) (th_todo t) = true /\
     (at_barrier t = true -> holds c j = false) /\
     Forall busy_ok (th_todo t)) /\
  (forall h, pl_mutex c = Some h -> (h < length (pl_threads c))%nat).

(** The threads the invocations of a sweep launch, all together. *)
Definition threads_launched (invs : list Invocation) : Z :=
  fold_right (fun inv acc => Z.of_nat (length (threads inv)) + acc) 0 invs.

(** An invocation to run the pool on: two workers, two coherence rounds of
    three operations, two lock iterations; and a schedule that gives the
    two threads their turns one after the other. *)
Definition sample_invocation : Invocation :=
  {| inv_N := 2; serial_iters := 100; parallel_iters := 900; per := 450;
     threads := for_int 2 (fun _ => [worker (small_params lit_0_10 1000 4) 450]) |}.

Definition round_robin (turns : nat) : list nat := concat (repeat [0; 1]%nat turns).

(** A [double] in the interval [[0, 1]]. *)
Definition in_unit (x : double) : Prop :=
  is_double x /\ leb zero x = true /\ leb x one = true.

(** The process started with no argument: [argc = 1], no [argv[i]] read. *)
Definition no_arguments : ParsedArgs :=
  {| argc := 1; argv1 := zero; argv2 := zero; argv3 := zero;
     argv4 := 0; argv5 := 0; argv6 := 0; argv7 := 0; argv8 := 0 |}.
(** * Properties *)

(** ** Machine integers *)

Lemma wrap64_range (z : Z) : is_uint64 (wrap64 z).
Proof. unfold is_uint64, wrap64, UINT64_MOD. apply Z.mod_pos_bound. lia. Qed.

Lemma wrap64_small (z : Z) : is_uint64 z -> wrap64 z = z.
Proof. unfold is_uint64, wrap64. intros H. now apply Z.mod_small. Qed.

Lemma wrap64_sub_add (t x : Z) :
  is_uint64 t -> wrap64 (x + wrap64 (t - x)) = t.
Proof.
  intros Ht. unfold wrap64.
  rewrite Zplus_mod_idemp_r.
  replace (x + (t - x)) with t by ring.
  now apply Z.mod_small.
Qed.

Lemma wrap64_sub_wraps (t x : Z) :
  is_uint64 t -> is_uint64 x -> t < x -> wrap64 (t - x) = t - x + UINT64_MOD.
Proof.
  unfold is_uint64, wrap64. intros Ht Hx Hlt.
  symmetry. apply Z.mod_unique with (q := -1); lia.
Qed.

(** ** The workload loop *)

Lemma busy_loop_runs (n : nat) : forall (iters : Z) (st : busy_state) (fuel : nat),
  0 <= bw_i st -> iters < UINT64_MOD ->
  Z.of_nat n = iters - bw_i st -> (n < fuel)%nat ->
  exists acc,
    busy_loop fuel iters st
    = Some {| bw_i := iters; bw_acc := acc; bw_steps := (bw_steps st + n)%nat |}.
Proof.
  induction n as [|n IH]; intros iters [i acc steps] fuel Hi Hit Hn Hf;
    cbn [bw_i bw_acc bw_steps] in *.
  - assert (i = iters) by lia. subst i.
    destruct fuel; simpl; rewrite Z.ltb_irrefl;
      exists acc; now rewrite Nat.add_0_r.
  - destruct fuel as [|fuel]; [lia|].
    rewrite Nat2Z.inj_succ in Hn. simpl.
    assert (Hlt : (i <? iters) = true) by (apply Z.ltb_lt; lia).
    rewrite Hlt.
    assert (Hw : wrap64 (i + 1) = i + 1)
      by (apply wrap64_small; unfold is_uint64; lia).
    rewrite Hw.
    destruct (IH iters {| bw_i := i + 1; bw_acc := busy_step i acc; bw_steps := S steps |} fuel)
      as [acc' E]; simpl; try lia.
    exists acc'. rewrite E. cbn [bw_steps]. f_equal. f_equal. lia.
Qed.

(** [busy_work] returns, after exactly [iters] executions of its body. *)
Lemma busy_work_iterations (iters : Z) :
  is_uint64 iters -> exists acc, busy_work iters = Some (acc, Z.to_nat iters).
Proof.
  intros [H0 H1]. unfold busy_work.
  destruct (busy_loop_runs (Z.to_nat iters) iters
              {| bw_i := 0; bw_acc := 0; bw_steps := 0 |} (S (Z.to_nat iters)))
    as [acc E]; cbn [bw_i bw_steps]; try lia.
  rewrite E. simpl. now exists acc.
Qed.

(** ** Loops that emit operations *)

Lemma for_from_map {A : Type} (body : Z -> list A) (n : nat) : forall k,
  for_from n k body = concat (map body (Zseq k n)).
Proof.
  induction n as [|n IH]; intros k; simpl; [reflexivity|].
  now rewrite IH.
Qed.

Lemma for_int_map {A : Type} (bound : Z) (body : Z -> list A) :
  for_int bound body = concat (map body (Zseq 0 (Z.to_nat bound))).
Proof. apply for_from_map. Qed.

Lemma Zseq_length (n : nat) : forall lo, length (Zseq lo n) = n.
Proof. induction n; intros; simpl; auto. Qed.

Lemma concat_singletons {A B : Type} (f : A -> B) (l : list A) :
  concat (map (fun x => [f x]) l) = map f l.
Proof. induction l; simpl; congruence. Qed.

Lemma map_const_repeat {A B : Type} (b : B) (l : list A) :
  map (fun _ => b) l = repeat b (length l).
Proof. induction l; simpl; congruence. Qed.

Lemma land7_mod8 (k : Z) : Z.land k 7 = k mod 8.
Proof. change 7 with (Z.ones 3). rewrite Z.land_ones by lia. reflexivity. Qed.

Lemma packed_switch_spec (k : Z) :
  packed_switch k = [PackedFetchAdd (field_of_index (k mod 8))].
Proof.
  unfold packed_switch. rewrite land7_mod8.
  pose proof (Z.mod_pos_bound k 8 ltac:(lia)) as Hb.
  assert (Hc : k mod 8 = 0 \/ k mod 8 = 1 \/ k mod 8 = 2 \/ k mod 8 = 3 \/
               k mod 8 = 4 \/ k mod 8 = 5 \/ k mod 8 = 6 \/ k mod 8 = 7) by lia.
  destruct Hc as [E|[E|[E|[E|[E|[E|[E|E]]]]]]]; rewrite E; reflexivity.
Qed.

(** The shape of one coherence round. *)
Lemma coherence_round_spec (p : RunParameters) (r : Z) :
  coherence_round p r
  = ArriveAndWait
    :: repeat HotFetchAdd (Z.to_nat (coh_ops p))
    ++ map (fun k => PackedFetchAdd (field_of_index (k mod 8)))
           (Zseq 0 (Z.to_nat (coh_ops p))).
Proof.
  unfold coherence_round. simpl. f_equal. f_equal.
  - rewrite for_int_map, concat_singletons, map_const_repeat, Zseq_length.
    reflexivity.
  - rewrite for_int_map.
    rewrite (map_ext packed_switch
               (fun k => [PackedFetchAdd (field_of_index (k mod 8))]) packed_switch_spec).
    apply concat_singletons.
Qed.

(** ** Shape of rounded results *)

(** Rounding never changes the sign it is given. *)
Lemma binary_round_aux_sign (sx : bool) (m e : Z) (l : location) :
  match binary_round_aux prec emax sx m e l with
  | S754_zero sy | S754_infinity sy | S754_finite sy _ _ => sy = sx
  | S754_nan => True
  end.
Proof.
  unfold binary_round_aux.
  destruct (shr_fexp prec emax m e l) as [mrs e'].
  destruct (shr_fexp prec emax _ e' loc_Exact) as [mrs' e''].
  destruct (shr_m mrs'); auto.
  destruct (e'' <=? emax - prec); auto.
Qed.

Lemma binary_round_sign (sx : bool) (m : positive) (e : Z) :
  match binary_round prec emax sx m e with
  | S754_zero sy | S754_infinity sy | S754_finite sy _ _ => sy = sx
  | S754_nan => True
  end.
Proof.
  unfold binary_round.
  destruct (shl_align m e _) as [mz ez]. apply binary_round_aux_sign.
Qed.

Lemma of_Z_not_negative (z : Z) : 0 <= z -> not_negative (of_Z z).
Proof.
  intros Hz. unfold of_Z, binary_normalize.
  destruct z as [|q|q]; [exact I| |lia].
  pose proof (binary_round_sign false q 0) as H.
  destruct (binary_round prec emax false q 0) as [sy|sy| |sy m e]; simpl; auto;
    subst sy; exact I.
Qed.

Lemma leb_zero_not_negative (x : double) : leb zero x = true -> not_negative x.
Proof. destruct x as [sx|[|]| |[|] m e]; simpl; auto; discriminate. Qed.

Lemma mul_not_negative (x y : double) :
  not_negative x -> not_negative y -> not_negative (mul x y).
Proof.
  intros Hx Hy.
  destruct x as [sx|[|]| |[|] mx ex]; destruct y as [sy|[|]| |[|] my ey];
    simpl in *; try contradiction; try exact I.
  pose proof (binary_round_aux_sign false (Z.pos (mx * my)) (ex + ey) loc_Exact) as H.
  unfold mul, SFmul. simpl xorb.
  destruct (binary_round_aux prec emax false _ _ _) as [sz|sz| |sz m e]; simpl; auto;
    subst sz; exact I.
Qed.

(** On a [double] that is not negative, the conversion to an unsigned
    integer is the floor of its value. *)
Lemma trunc_floor (x : double) (z : Z) :
  not_negative x -> trunc x = Some z -> z = Qfloor (to_Q x).
Proof.
  intros Hx Ht.
  destruct x as [sx|sx| |sx m e]; simpl in *; try discriminate.
  - now inversion Ht.
  - destruct sx; [contradiction|]. inversion Ht; subst z; clear Ht. simpl.
    destruct e as [|q|q]; simpl.
    + unfold Qfloor, inject_Z. now rewrite Z.div_1_r.
    + unfold Qfloor, inject_Z. now rewrite Z.div_1_r.
    + unfold Qfloor. rewrite Pos2Z.inj_pow. reflexivity.
Qed.

Lemma to_uint64_floor (x : double) (z : Z) :
  not_negative x -> to_uint64 x = Some z -> z = Qfloor (to_Q x) /\ is_uint64 z.
Proof.
  unfold to_uint64. intros Hx H.
  destruct (trunc x) as [t|] eqn:Et; [|discriminate].
  destruct ((0 <=? t) && (t <? UINT64_MOD)) eqn:Er; [|discriminate].
  inversion H; subst t. split; [now apply trunc_floor|].
  apply andb_true_iff in Er. destruct Er as [E1 E2].
  apply Z.leb_le in E1. apply Z.ltb_lt in E2. now split.
Qed.

Lemma to_uint64_range (x : double) (z : Z) : to_uint64 x = Some z -> is_uint64 z.
Proof.
  unfold to_uint64. intros H.
  destruct (trunc x) as [t|]; [|discriminate].
  destruct ((0 <=? t) && (t <? UINT64_MOD)) eqn:Er; [|discriminate].
  inversion H; subst t.
  apply andb_true_iff in Er. destruct Er as [E1 E2].
  apply Z.leb_le in E1. apply Z.ltb_lt in E2. now split.
Qed.

(** ** The Driver's decomposition of the work *)

Lemma run_with_fields (p : RunParameters) (N : Z) (inv : Invocation) :
  run_with p N = Some inv ->
  serial_of p = Some (serial_iters inv) /\
  parallel_iters inv = wrap64 (total_iters p - serial_iters inv) /\
  per inv = parallel_iters inv / wrap64 N /\
  threads inv = for_int N (fun _ => [worker p (per inv)]) /\
  inv_N inv = N /\ wrap64 N <> 0.
Proof.
  unfold run_with. intros H.
  destruct (serial_of p) as [serial|]; [|discriminate].
  destruct (wrap64 N =? 0) eqn:EN; [discriminate|].
  apply Z.eqb_neq in EN.
  inversion H; subst inv; simpl. repeat split; auto.
Qed.

Lemma run_with_defined (p : RunParameters) (N serial : Z) :
  serial_of p = Some serial -> 1 <= N <= INT_MAX ->
  exists inv, run_with p N = Some inv.
Proof.
  intros Hs HN. unfold run_with. rewrite Hs.
  assert (Hw : wrap64 N = N).
  { apply wrap64_small. unfold is_uint64, UINT64_MOD, INT_MAX in *. lia. }
  rewrite Hw.
  destruct (N =? 0) eqn:E; [apply Z.eqb_eq in E; lia|].
  eexists; reflexivity.
Qed.

(** C2: whatever [total_iters] and the serial fraction, and whatever the
    thread count, a Driver invocation takes for [serial_iters] the
    [double] product [total_iters * s] with its fractional part discarded
    (its floor when [s] is not negative) and
    [parallel_iters = total_iters - serial_iters] in [uint64_t]
    arithmetic; [serial_iters + parallel_iters == total_iters] holds
    modulo [2^64], and as plain integers exactly when [serial_iters] does
    not exceed [total_iters]; and two invocations with different thread
    counts decompose the work identically. *)
Theorem decomposition_exact_for_every_N
  (p : RunParameters) (N N' : Z) (inv inv' : Invocation) :
  is_uint64 (total_iters p) ->
  run_with p N = Some inv ->
  run_with p N' = Some inv' ->
  trunc (mul (of_Z (total_iters p)) (s p)) = Some (serial_iters inv) /\
  (leb zero (s p) = true ->
   serial_iters inv = Qfloor (to_Q (mul (of_Z (total_iters p)) (s p)))) /\
  parallel_iters inv = wrap64 (total_iters p - serial_iters inv) /\
  wrap64 (serial_iters inv + parallel_iters inv) = total_iters p /\
  (serial_iters inv + parallel_iters inv = total_iters p
   <-> serial_iters inv <= total_iters p) /\
  serial_iters inv' = serial_iters inv /\
  parallel_iters inv' = parallel_iters inv.
Proof.
  intros Ht HN HN'.
  destruct (run_with_fields p N inv HN) as (Hser & Hpar & _).
  destruct (run_with_fields p N' inv' HN') as (Hser' & Hpar' & _).
  pose proof (to_uint64_range _ _ Hser) as Hrange.
  assert (Heq : serial_iters inv' = serial_iters inv) by congruence.
  split; [|split; [|split; [|split; [|split; [|split]]]]].
  - unfold serial_of, to_uint64 in Hser.
    destruct (trunc (mul (of_Z (total_iters p)) (s p))) as [t|]; [|discriminate].
    destruct ((0 <=? t) && (t <? UINT64_MOD)); [|discriminate].
    exact Hser.
  - intros Hs.
    assert (Hnn : not_negative (mul (of_Z (total_iters p)) (s p))).
    { apply mul_not_negative.
      - apply of_Z_not_negative. apply Ht.
      - now apply leb_zero_not_negative. }
    apply (to_uint64_floor _ _ Hnn Hser).
  - exact Hpar.
  - rewrite Hpar. now apply wrap64_sub_add.
  - split.
    + intros Hsum.
      pose proof (wrap64_range (total_iters p - serial_iters inv)) as Hp.
      rewrite <- Hpar in Hp. unfold is_uint64 in Hp. lia.
    + intros Hle. rewrite Hpar, wrap64_small; [ring|].
      unfold is_uint64 in *. lia.
  - exact Heq.
  - rewrite Hpar', Hpar, Heq. reflexivity.
Qed.

Lemma decomposition_exact_for_every_N_witness :
  exists inv inv',
    run_with (small_params lit_0_10 1000 4) 1 = Some inv /\
    run_with (small_params lit_0_10 1000 4) 4 = Some inv' /\
    serial_iters inv = 100 /\ parallel_iters inv = 900 /\
    wrap64 (serial_iters inv + parallel_iters inv) = 1000 /\
    serial_iters inv' = serial_iters inv.
Proof.
  eexists. eexists.
  split; [vm_compute; reflexivity|].
  split; [vm_compute; reflexivity|].
  split; [reflexivity|]. split; [reflexivity|].
  assert (Ht : is_uint64 (total_iters (small_params lit_0_10 1000 4)))
    by (vm_compute; split; [discriminate | reflexivity]).
  destruct (decomposition_exact_for_every_N
              (small_params lit_0_10 1000 4) 1 4 _ _ Ht eq_refl eq_refl)
    as (_ & _ & _ & H3 & _ & H5 & _).
  split; [exact H3 | exact H5].
Defined.

(** The decomposition is not the one of the real numbers.  With
    [total_iters = 2^53 + 3] and [s = 1.0] the conversion of
    [total_iters] to [double] rounds up: [serial_iters] is [2^53 + 4],
    not [floor(total_iters * s) = 2^53 + 3], the subtraction wraps and
    [serial_iters + parallel_iters] is not [total_iters].  With
    [total_iters = 1] and [s = -0.5] the product [-0.5] is cut to [0],
    not to its floor [-1]. *)
Lemma decomposition_of_doubles_not_of_reals :
  (exists inv,
     run_with (small_params one (2 ^ 53 + 3) 1) 1 = Some inv /\
     Qfloor (inject_Z (2 ^ 53 + 3) * to_Q one) = 2 ^ 53 + 3 /\
     serial_iters inv = 2 ^ 53 + 4 /\
     parallel_iters inv = UINT64_MOD - 1 /\
     serial_iters inv + parallel_iters inv
     <> total_iters (small_params one (2 ^ 53 + 3) 1)) /\
  (exists inv,
     run_with (small_params (S754_finite true 4503599627370496 (-53)) 1 1) 1 = Some inv /\
     Qfloor (inject_Z 1 * to_Q (S754_finite true 4503599627370496 (-53))) = -1 /\
     serial_iters inv = 0).
Proof.
  split.
  - eexists. split; [vm_compute; reflexivity|].
    split; [reflexivity|]. split; [reflexivity|]. split; [reflexivity|].
    vm_compute. discriminate.
  - eexists. split; [vm_compute; reflexivity|].
    split; reflexivity.
Qed.

(** ** The workers' share of the parallel work *)

Lemma no_busy_compute (l : list op) :
  Forall (fun o => is_busy o = false) l ->
  filter is_busy l = [] /\ compute_iters l = 0.
Proof.
  induction 1 as [|o l Ho _ [IH1 IH2]]; simpl; [auto|].
  rewrite Ho. destruct o; simpl in *; try discriminate; auto.
Qed.

Lemma Forall_concat {A : Type} (P : A -> Prop) (ls : list (list A)) :
  Forall (Forall P) ls -> Forall P (concat ls).
Proof.
  induction 1; simpl; [constructor|]. apply Forall_app. now split.
Qed.

Lemma Forall_for_int {A : Type} (P : A -> Prop) (bound : Z) (body : Z -> list A) :
  (forall k, Forall P (body k)) -> Forall P (for_int bound body).
Proof.
  intros H. rewrite for_int_map. apply Forall_concat.
  apply Forall_map. apply Forall_forall. intros k _. apply H.
Qed.

Lemma coherence_round_no_busy (p : RunParameters) (r : Z) :
  Forall (fun o => is_busy o = false) (coherence_round p r).
Proof.
  unfold coherence_round.
  apply Forall_app; split; [|apply Forall_app; split].
  - repeat constructor.
  - apply Forall_for_int. intros; repeat constructor.
  - apply Forall_for_int. intros k. rewrite packed_switch_spec. repeat constructor.
Qed.

Lemma worker_busy (p : RunParameters) (n : Z) :
  filter is_busy (worker p n) = [BusyWork n] /\ compute_iters (worker p n) = n.
Proof.
  unfold worker.
  assert (H : Forall (fun o => is_busy o = false)
                (for_int (coh_rounds p) (coherence_round p)
                 ++ for_int (lock_iters p) (fun _ => [MutexLock; MutexUnlock]))).
  { apply Forall_app. split; apply Forall_for_int.
    - apply coherence_round_no_busy.
    - intros; repeat constructor. }
  destruct (no_busy_compute _ H) as [H1 H2].
  simpl. rewrite H1, H2. split; [reflexivity | ring].
Qed.

Lemma threads_repeat (p : RunParameters) (N : Z) (inv : Invocation) :
  run_with p N = Some inv ->
  threads inv = repeat (worker p (per inv)) (Z.to_nat N).
Proof.
  intros H. destruct (run_with_fields p N inv H) as (_ & _ & _ & Ht & _).
  rewrite Ht, for_int_map, concat_singletons, map_const_repeat, Zseq_length.
  reflexivity.
Qed.

Lemma total_compute_repeat (w : list op) (n : nat) :
  total_compute_iters (repeat w n) = Z.of_nat n * compute_iters w.
Proof.
  induction n as [|n IH]; [reflexivity|].
  rewrite Nat2Z.inj_succ. simpl repeat. unfold total_compute_iters in *.
  simpl. rewrite IH. ring.
Qed.

(** C3: with [N >= 1] threads, [per] is the integer quotient
    [parallel_iters / N]; the invocation launches [N] workers, each with
    one call [busy_work(per)] that runs its loop body exactly [per] times;
    all workers together execute [parallel_iters - parallel_iters mod N]
    iterations, so the [parallel_iters mod N] left over are run by nobody. *)
Theorem per_worker_floor_division (p : RunParameters) (N : Z) (inv : Invocation) :
  1 <= N <= INT_MAX ->
  run_with p N = Some inv ->
  per inv = parallel_iters inv / N /\
  0 <= parallel_iters inv - N * per inv < N /\
  length (threads inv) = Z.to_nat N /\
  (forall w, In w (threads inv) ->
     filter is_busy w = [BusyWork (per inv)] /\ compute_iters w = per inv) /\
  (exists acc, busy_work (per inv) = Some (acc, Z.to_nat (per inv))) /\
  total_compute_iters (threads inv)
  = parallel_iters inv - parallel_iters inv mod N.
Proof.
  intros HN H.
  destruct (run_with_fields p N inv H) as (Hser & Hpar & Hper & _).
  assert (Hw : wrap64 N = N).
  { apply wrap64_small. unfold is_uint64, UINT64_MOD, INT_MAX in *. lia. }
  rewrite Hw in Hper.
  pose proof (wrap64_range (total_iters p - serial_iters inv)) as Hr.
  rewrite <- Hpar in Hr. destruct Hr as [Hr0 Hr1].
  pose proof (Z.div_mod (parallel_iters inv) N ltac:(lia)) as Hdm.
  pose proof (Z.mod_pos_bound (parallel_iters inv) N ltac:(lia)) as Hmb.
  rewrite <- Hper in Hdm.
  assert (Hper0 : 0 <= per inv) by (rewrite Hper; apply Z.div_pos; lia).
  assert (Hper1 : per inv < UINT64_MOD) by nia.
  rewrite (threads_repeat p N inv H).
  repeat split.
  - exact Hper.
  - lia.
  - lia.
  - apply repeat_length.
  - apply repeat_spec in H0. subst w. apply worker_busy.
  - apply repeat_spec in H0. subst w. apply worker_busy.
  - apply busy_work_iterations. now split.
  - rewrite total_compute_repeat. destruct (worker_busy p (per inv)) as [_ E].
    rewrite E, Z2Nat.id by lia. lia.
Qed.

Lemma per_worker_floor_division_witness :
  exists inv,
    run_with (small_params lit_0_10 1000 4) 4 = Some inv /\
    per inv = 225 /\
    total_compute_iters (threads inv)
    = parallel_iters inv - parallel_iters inv mod 4.
Proof.
  eexists. split; [vm_compute; reflexivity|]. split; [reflexivity|].
  assert (HN : 1 <= 4 <= INT_MAX) by (vm_compute; split; discriminate).
  destruct (per_worker_floor_division (small_params lit_0_10 1000 4) 4 _ HN eq_refl)
    as (_ & _ & _ & _ & _ & H6).
  exact H6.
Defined.

(** ** Out-of-range serial fractions *)

(** C9, as the code has it: whenever the computed [serial_iters] exceeds
    [total_iters], the [uint64_t] subtraction wraps:
    [parallel_iters = total_iters - serial_iters + 2^64], which is larger
    than [total_iters], and [serial_iters + parallel_iters] is [total_iters]
    modulo [2^64] (as plain integers it is [total_iters + 2^64]). *)
Theorem parallel_iters_wraps (p : RunParameters) (N : Z) (inv : Invocation) :
  is_uint64 (total_iters p) ->
  run_with p N = Some inv ->
  total_iters p < serial_iters inv ->
  parallel_iters inv = total_iters p - serial_iters inv + UINT64_MOD /\
  total_iters p < parallel_iters inv /\
  wrap64 (serial_iters inv + parallel_iters inv) = total_iters p /\
  serial_iters inv + parallel_iters inv = total_iters p + UINT64_MOD.
Proof.
  intros Ht H Hlt.
  destruct (run_with_fields p N inv H) as (Hser & Hpar & _).
  pose proof (to_uint64_range _ _ Hser) as Hs.
  assert (E : parallel_iters inv = total_iters p - serial_iters inv + UINT64_MOD)
    by (rewrite Hpar; now apply wrap64_sub_wraps).
  repeat split.
  - exact E.
  - unfold is_uint64 in *. lia.
  - rewrite Hpar. now apply wrap64_sub_add.
  - lia.
Qed.

Lemma parallel_iters_wraps_witness :
  exists inv,
    run_with (small_params lit_1_5 10 1) 1 = Some inv /\
    serial_iters inv = 15 /\
    parallel_iters inv = 10 - 15 + UINT64_MOD /\
    wrap64 (serial_iters inv + parallel_iters inv) = 10.
Proof.
  eexists. split; [vm_compute; reflexivity|]. split; [reflexivity|].
  assert (Ht : is_uint64 (total_iters (small_params lit_1_5 10 1)))
    by (vm_compute; split; [discriminate | reflexivity]).
  destruct (parallel_iters_wraps (small_params lit_1_5 10 1) 1 _ Ht eq_refl eq_refl)
    as (H1 & _ & H3 & _).
  split; [exact H1 | exact H3].
Defined.

(** A serial fraction above [1] does not by itself make [serial_iters]
    exceed [total_iters]: with [s = 1.5] and [total_iters = 1] the product
    [1.5] truncates to [1], [parallel_iters] is [0] and nothing wraps. *)
Lemma serial_fraction_above_one_need_not_wrap :
  ~ (forall (p : RunParameters) (N : Z) (inv : Invocation),
       is_uint64 (total_iters p) ->
       ltb one (s p) = true ->
       run_with p N = Some inv ->
       total_iters p < parallel_iters inv).
Proof.
  intros H.
  assert (Ht : is_uint64 (total_iters (small_params lit_1_5 1 1)))
    by (vm_compute; split; [discriminate | reflexivity]).
  pose proof (H (small_params lit_1_5 1 1) 1 _ Ht eq_refl eq_refl) as H1.
  vm_compute in H1. discriminate.
Qed.

(** ** Defaults of the command line *)

Lemma to_int_trunc (x : double) (z : Z) :
  to_int x = Some z -> trunc x = Some z /\ is_int z.
Proof.
  unfold to_int. intros H.
  destruct (trunc x) as [t|]; [|discriminate].
  destruct ((INT_MIN <=? t) && (t <=? INT_MAX)) eqn:Er; [|discriminate].
  inversion H; subst t.
  apply andb_true_iff in Er. destruct Er as [E1 E2].
  apply Z.leb_le in E1. apply Z.leb_le in E2. now repeat split.
Qed.

Lemma add_not_negative_finite (mx : positive) (ex : Z) (y : double) :
  not_negative y -> not_negative (add (S754_finite false mx ex) y).
Proof.
  intros Hy. destruct y as [sy|[|]| |[|] my ey]; simpl in *; try contradiction; try exact I.
  unfold add, SFadd, cond_Zopp.
  set (ma := fst (shl_align mx ex (Z.min ex ey))).
  set (mb := fst (shl_align my ey (Z.min ex ey))).
  change (Z.pos ma + Z.pos mb) with (Z.pos (ma + mb)).
  unfold binary_normalize.
  pose proof (binary_round_sign false (ma + mb) (Z.min ex ey)) as H.
  destruct (binary_round prec emax false (ma + mb) (Z.min ex ey)) as [sz|sz| |sz mz ez];
    simpl; auto; subst sz; exact I.
Qed.

(** C8, as the code has it: with fewer than nine process arguments
    ([argc < 9], the program name included) [lock_iters] is the [double]
    value [100 + 500*alpha] with its fractional part discarded (conversion
    to [int] truncates towards zero); for [alpha >= 0] that is the floor,
    not the nearest integer. *)
Theorem default_lock_iters_truncates (a : ParsedArgs) (p : RunParameters) :
  argc a < 9 ->
  resolve a = Some p ->
  trunc (add (of_Z 100) (mul (of_Z 500) (alpha p))) = Some (lock_iters p) /\
  is_int (lock_iters p) /\
  (leb zero (alpha p) = true ->
   lock_iters p = Qfloor (to_Q (add (of_Z 100) (mul (of_Z 500) (alpha p))))).
Proof.
  intros Hargc H. unfold resolve in H.
  assert (E8 : (argc a >? 8) = false) by (rewrite Z.gtb_ltb; apply Z.ltb_ge; lia).
  rewrite E8 in H.
  set (al := if argc a >? 2 then argv2 a else lit_0_02) in *.
  destruct (default_lock_iters al) as [z|] eqn:Ed; [|discriminate].
  inversion H; subst p; clear H. cbn [alpha lock_iters].
  unfold default_lock_iters in Ed.
  destruct (to_int_trunc _ _ Ed) as [Ht Hi].
  split; [exact Ht|]. split; [exact Hi|].
  intros Hal. apply trunc_floor; [|exact Ht].
  change (of_Z 100) with (S754_finite false 7036874417766400 (-46)).
  apply add_not_negative_finite.
  apply mul_not_negative; [exact I | now apply leb_zero_not_negative].
Qed.

Lemma default_lock_iters_truncates_witness :
  exists p,
    resolve (args_s_alpha lit_0_10 lit_0_0039) = Some p /\
    lock_iters p = 101 /\
    trunc (add (of_Z 100) (mul (of_Z 500) (alpha p))) = Some (lock_iters p).
Proof.
  eexists. split; [vm_compute; reflexivity|]. split; [reflexivity|].
  assert (Hc : argc (args_s_alpha lit_0_10 lit_0_0039) < 9) by reflexivity.
  destruct (default_lock_iters_truncates (args_s_alpha lit_0_10 lit_0_0039) _ Hc eq_refl)
    as [H1 _].
  exact H1.
Defined.

(** With the default [alpha = 0.02] the default [lock_iters] is [110]. *)
Lemma default_lock_iters_default_alpha : default_lock_iters lit_0_02 = Some 110.
Proof. vm_compute. reflexivity. Qed.

(** With [alpha = 0.0039] the expression [100 + 500*alpha] is [101.95]
    (up to rounding), whose nearest integer is [102]; the code yields
    [101]. *)
Lemma default_lock_iters_not_nearest :
  ~ (forall (a : ParsedArgs) (p : RunParameters),
       argc a < 9 ->
       resolve a = Some p ->
       nearest_integer (to_Q (add (of_Z 100) (mul (of_Z 500) (alpha p))))
                       (lock_iters p)).
Proof.
  intros H.
  assert (Hc : argc (args_s_alpha lit_0_10 lit_0_0039) < 9) by reflexivity.
  pose proof (H (args_s_alpha lit_0_10 lit_0_0039) _ Hc eq_refl) as H1.
  vm_compute in H1. apply H1. reflexivity.
Qed.

(** The literals are the correctly rounded quotients they are written as. *)
Lemma literals_correctly_rounded :
  lit_0_10 = div (of_Z 1) (of_Z 10) /\
  lit_0_02 = div (of_Z 2) (of_Z 100) /\
  lit_0_003 = div (of_Z 3) (of_Z 1000) /\
  lit_0_0039 = div (of_Z 39) (of_Z 10000) /\
  lit_1_5 = div (of_Z 3) (of_Z 2) /\
  one = of_Z 1.
Proof. vm_compute. repeat split. Qed.

(** ** The worker's program *)

Lemma worker_shape (p : RunParameters) (n : Z) :
  worker p n
  = [BusyWork n]
    ++ concat (repeat (round_shape (coh_ops p)) (Z.to_nat (coh_rounds p)))
    ++ concat (repeat [MutexLock; MutexUnlock] (Z.to_nat (lock_iters p))).
Proof.
  unfold worker. f_equal. f_equal.
  - rewrite for_int_map.
    rewrite (map_ext (coherence_round p) (fun _ => round_shape (coh_ops p))
               (coherence_round_spec p)).
    now rewrite map_const_repeat, Zseq_length.
  - rewrite for_int_map. now rewrite map_const_repeat, Zseq_length.
Qed.

Lemma StronglySorted_app {A : Type} (R : A -> A -> Prop) (l1 l2 : list A) :
  StronglySorted R l1 -> StronglySorted R l2 ->
  (forall x y, In x l1 -> In y l2 -> R x y) ->
  StronglySorted R (l1 ++ l2).
Proof.
  induction 1 as [|a l1 Hs IH Ha]; intros H2 Hc; simpl; [exact H2|].
  constructor.
  - apply IH; [exact H2|]. intros x y Hx Hy. apply Hc; [now right | exact Hy].
  - apply Forall_app. split; [exact Ha|].
    apply Forall_forall. intros y Hy. apply Hc; [now left | exact Hy].
Qed.

Lemma StronglySorted_prefix {A : Type} (R : A -> A -> Prop) (l1 l2 : list A) :
  StronglySorted R (l1 ++ l2) -> StronglySorted R l1.
Proof.
  induction l1 as [|a l1 IH]; simpl; intros H; [constructor|].
  inversion H as [|? ? Hs Ha]; subst. constructor.
  - now apply IH.
  - apply Forall_app in Ha. apply Ha.
Qed.

Lemma same_phase_sorted (ph : phase) (l : list op) :
  Forall (fun o => phase_of o = ph) l -> phases_in_order l.
Proof.
  induction 1 as [|o l Ho Hl IH]; constructor; [exact IH|].
  apply Forall_forall. intros o' Ho'.
  rewrite Forall_forall in Hl. unfold phase_le. rewrite Ho, (Hl o' Ho'). lia.
Qed.

Lemma Forall_concat_repeat {A : Type} (P : A -> Prop) (l : list A) (n : nat) :
  Forall P l -> Forall P (concat (repeat l n)).
Proof.
  intros H. apply Forall_concat. apply Forall_forall.
  intros x Hx. apply repeat_spec in Hx. now subst x.
Qed.

Lemma round_shape_coherence (ops : Z) :
  Forall (fun o => phase_of o = Coherence) (round_shape ops).
Proof.
  unfold round_shape. constructor; [reflexivity|].
  apply Forall_app. split.
  - apply Forall_forall. intros o Ho. apply repeat_spec in Ho. now subst o.
  - apply Forall_map. apply Forall_forall. intros; reflexivity.
Qed.

(** The worker's three phases: one compute operation, then nothing but
    coherence operations, then nothing but lock operations. *)
Lemma worker_phases (p : RunParameters) (n : Z) :
  exists coh con,
    worker p n = [BusyWork n] ++ coh ++ con /\
    coh = concat (repeat (round_shape (coh_ops p)) (Z.to_nat (coh_rounds p))) /\
    con = concat (repeat [MutexLock; MutexUnlock] (Z.to_nat (lock_iters p))) /\
    Forall (fun o => phase_of o = Coherence) coh /\
    Forall (fun o => phase_of o = Contention) con.
Proof.
  eexists. eexists. split; [apply worker_shape|].
  split; [reflexivity|]. split; [reflexivity|]. split.
  - apply Forall_concat_repeat. apply round_shape_coherence.
  - apply Forall_concat_repeat. repeat constructor.
Qed.

Lemma worker_in_order (p : RunParameters) (n : Z) : phases_in_order (worker p n).
Proof.
  destruct (worker_phases p n) as (coh & con & E & _ & _ & Hcoh & Hcon).
  rewrite E. unfold phases_in_order.
  rewrite Forall_forall in Hcoh, Hcon.
  apply StronglySorted_app.
  - repeat constructor.
  - apply StronglySorted_app.
    + apply (same_phase_sorted Coherence). now apply Forall_forall.
    + apply (same_phase_sorted Contention). now apply Forall_forall.
    + intros x y Hx Hy. unfold phase_le. rewrite (Hcoh x Hx), (Hcon y Hy). simpl. lia.
  - intros x y [Hx|[]] Hy. subst x. unfold phase_le. simpl. lia.
Qed.

(** ** Executions of the thread pool *)

Lemma nth_error_set_nth_same {A : Type} (l : list A) (i : nat) (x y : A) :
  nth_error l i = Some y -> nth_error (set_nth i x l) i = Some x.
Proof.
  revert i. induction l as [|a l IH]; intros [|i] H; simpl in *; try discriminate.
  - reflexivity.
  - unfold set_nth in *. simpl. now apply IH.
Qed.

Lemma nth_error_set_nth_other {A : Type} (l : list A) (i j : nat) (x : A) :
  i <> j -> nth_error (set_nth i x l) j = nth_error l j.
Proof.
  revert i j. induction l as [|a l IH]; intros i j H.
  - unfold set_nth. now rewrite firstn_nil, skipn_nil.
  - destruct i as [|i], j as [|j]; try congruence; unfold set_nth in *; simpl;
      try reflexivity.
    apply IH. congruence.
Qed.

Lemma map_set_nth {A B : Type} (f : A -> B) (l : list A) (i : nat) (x : A) :
  map f (set_nth i x l) = set_nth i (f x) (map f l).
Proof.
  revert i. induction l as [|a l IH]; intros [|i]; simpl; try reflexivity.
  unfold set_nth in *. simpl. f_equal. apply IH.
Qed.

Lemma map_todo_release (l : list thread) : map th_todo (map release l) = map th_todo l.
Proof. rewrite map_map. apply map_ext. reflexivity. Qed.

(** What a step does to the programs and to the trace. *)
Lemma step_effect (c c' : pool) (i : nat) :
  step c i = Some c' ->
  exists o rest,
    nth_error (todos c) i = Some (o :: rest) /\
    todos c' = set_nth i rest (todos c) /\
    pl_trace c' = pl_trace c ++ [(i, o)].
Proof.
  unfold step, todos. intros H.
  destruct (nth_error (pl_threads c) i) as [[st todo]|] eqn:En; [|discriminate].
  destruct st; [|discriminate].
  destruct todo as [|o rest]; [discriminate|].
  exists o, rest.
  split; [now rewrite nth_error_map, En|].
  destruct o.
  - destruct (busy_work iters) as [[acc k]|]; [|discriminate].
    inversion H; subst c'; simpl. now rewrite map_set_nth.
  - destruct (Nat.eqb _ _); inversion H; subst c'; simpl.
    + now rewrite map_todo_release, map_set_nth.
    + now rewrite map_set_nth.
  - inversion H; subst c'; simpl. now rewrite map_set_nth.
  - inversion H; subst c'; simpl. now rewrite map_set_nth.
  - destruct (pl_mutex c); [discriminate|].
    inversion H; subst c'; simpl. now rewrite map_set_nth.
  - inversion H; subst c'; simpl. now rewrite map_set_nth.
Qed.

Lemma todo_of_todos (i : nat) (c : pool) :
  todo_of i c = match nth_error (todos c) i with Some l => l | None => [] end.
Proof.
  unfold todo_of, todos. rewrite nth_error_map.
  destruct (nth_error (pl_threads c) i); reflexivity.
Qed.

(** A step moves one operation of one thread from its program to the
    trace, and leaves the other threads alone. *)
Lemma step_program_order (c c' : pool) (i j : nat) :
  step c i = Some c' ->
  done_by j c' ++ todo_of j c' = done_by j c ++ todo_of j c.
Proof.
  intros H. destruct (step_effect c c' i H) as (o & rest & Hn & Ht & Htr).
  unfold done_by. rewrite !todo_of_todos, Ht, Htr, filter_app, map_app. simpl.
  destruct (Nat.eqb_spec i j) as [E|E].
  - subst j. rewrite (nth_error_set_nth_same _ _ _ _ Hn), Hn.
    simpl. now rewrite <- app_assoc.
  - rewrite (nth_error_set_nth_other _ _ _ _ E). simpl. now rewrite app_nil_r.
Qed.

Lemma exec_program_order (sched : list nat) : forall (c : pool) (j : nat),
  done_by j (exec sched c) ++ todo_of j (exec sched c) = done_by j c ++ todo_of j c.
Proof.
  induction sched as [|i sched IH]; intros c j; simpl; [reflexivity|].
  destruct (step c i) as [c'|] eqn:E.
  - rewrite IH. now apply step_program_order with (i := i).
  - apply IH.
Qed.

Lemma init_pool_program (ts : list (list op)) (j : nat) :
  done_by j (init_pool ts) ++ todo_of j (init_pool ts) = nth j ts [].
Proof.
  unfold done_by, todo_of, init_pool. simpl. rewrite nth_error_map.
  revert j. induction ts as [|t ts IH]; intros [|j]; simpl; auto.
Qed.

(** C7: under every schedule of the pool of a Driver invocation, what a
    worker has executed so far, followed by what it has still to do, is the
    worker's program; that program is one compute slice, then
    [coh_rounds] coherence rounds (each: barrier rendezvous, [coh_ops]
    increments of the hot counter, [coh_ops] increments of the packed
    counter number [op_index mod 8]), then [lock_iters] lock/unlock pairs
    with nothing in between; so the operations a worker has executed never
    go back to an earlier phase. *)
Theorem worker_phases_in_order
  (p : RunParameters) (N : Z) (inv : Invocation) (sched : list nat) (i : nat) :
  run_with p N = Some inv ->
  (i < length (threads inv))%nat ->
  let c := exec sched (init_pool (threads inv)) in
  done_by i c ++ todo_of i c = worker p (per inv) /\
  worker p (per inv)
  = [BusyWork (per inv)]
    ++ concat (repeat (round_shape (coh_ops p)) (Z.to_nat (coh_rounds p)))
    ++ concat (repeat [MutexLock; MutexUnlock] (Z.to_nat (lock_iters p))) /\
  phases_in_order (done_by i c).
Proof.
  intros H Hi c.
  assert (E : done_by i c ++ todo_of i c = worker p (per inv)).
  { unfold c. rewrite exec_program_order, init_pool_program.
    rewrite (threads_repeat p N inv H) in *.
    rewrite repeat_length in Hi.
    apply nth_repeat_lt. exact Hi. }
  split; [exact E|]. split; [apply worker_shape|].
  apply StronglySorted_prefix with (l2 := todo_of i c).
  rewrite E. apply worker_in_order.
Qed.

Lemma worker_phases_in_order_witness :
  exists inv,
    run_with (small_params lit_0_10 1000 4) 2 = Some inv /\
    let c := exec [0; 1; 1; 0; 0; 1; 0; 1; 1]%nat (init_pool (threads inv)) in
    done_by 1 c = [BusyWork 450; ArriveAndWait; HotFetchAdd; HotFetchAdd; HotFetchAdd] /\
    done_by 1 c ++ todo_of 1 c = worker (small_params lit_0_10 1000 4) (per inv) /\
    phases_in_order (done_by 1 c).
Proof.
  eexists. split; [vm_compute; reflexivity|].
  split; [vm_compute; reflexivity|].
  assert (Hi : (1 < 2)%nat) by (repeat constructor).
  destruct (worker_phases_in_order (small_params lit_0_10 1000 4) 2 _
              [0; 1; 1; 0; 0; 1; 0; 1; 1]%nat 1%nat eq_refl Hi) as (H1 & _ & H3).
  split; [exact H1 | exact H3].
Defined.

(** ** Division by oneself *)

Lemma div_eucl_div_mod (a b : Z) : Z.div_eucl a b = (a / b, a mod b).
Proof. unfold Z.div, Z.modulo. now destruct (Z.div_eucl a b). Qed.

Lemma new_location_zero (n : Z) : new_location n 0 = loc_Exact.
Proof.
  unfold new_location, new_location_even, new_location_odd.
  destruct (Z.even n); reflexivity.
Qed.

(** [t / t == 1.0] for every finite non-zero [t], whatever its bits. *)
Lemma div_self (sx : bool) (m : positive) (e : Z) :
  div (S754_finite sx m e) (S754_finite sx m e) = one.
Proof.
  unfold div, SFdiv, SFdiv_core_binary.
  replace (Zdigits2 (Z.pos m) + e - (Zdigits2 (Z.pos m) + e)) with 0 by lia.
  replace (e - e) with 0 by lia.
  change (Z.min (fexp prec emax 0) 0) with (-53).
  change (0 - -53) with 53.
  cbv iota beta.
  rewrite Z.shiftl_mul_pow2 by lia.
  rewrite (div_eucl_div_mod (Z.pos m * 2 ^ 53) (Z.pos m)).
  rewrite (Z.mul_comm (Z.pos m)), Z.div_mul, Z.mod_mul by lia.
  rewrite new_location_zero.
  destruct sx; vm_compute; reflexivity.
Qed.

(** ** The sweep *)

Section Sweep.

Variable clock : nat -> double.
Variable p : RunParameters.
Variable serial : Z.
Hypothesis Hserial : serial_of p = Some serial.
Hypothesis HmaxN : maxN p < INT_MAX.

(** From [N >= 2] on, every turn of the loop makes one Driver invocation
    and writes one row. *)
Lemma sweep_from (n : nat) : forall (N : Z) (st : process) (fuel : nat),
  2 <= N ->
  Z.of_nat n = maxN p + 1 - N ->
  (n < fuel)%nat ->
  length (invocations st) = Z.to_nat (N - 1) ->
  exists invs,
    sweep clock fuel p (clock O) N st
    = Some {| rows := rows st ++ map (expected_row clock p) (Zseq N n);
              invocations := invocations st ++ invs |} /\
    map Some invs = map (run_with p) (Zseq N n).
Proof.
  induction n as [|n IH]; intros N st fuel HN Hn Hf Hlen.
  - destruct fuel as [|fuel]; [lia|]. simpl.
    assert (E : (N <=? maxN p) = false) by (apply Z.leb_gt; lia).
    rewrite E. exists []. simpl. rewrite !app_nil_r.
    destruct st; auto.
  - destruct fuel as [|fuel]; [lia|].
    rewrite Nat2Z.inj_succ in Hn.
    cbn [sweep].
    assert (E : (N <=? maxN p) = true) by (apply Z.leb_le; lia).
    assert (E1 : (N =? 1) = false) by (apply Z.eqb_neq; lia).
    assert (E2 : (N =? INT_MAX) = false) by (apply Z.eqb_neq; lia).
    rewrite E, E1, E2.
    destruct (run_with_defined p N serial Hserial ltac:(lia)) as [inv Hinv].
    unfold timed_run. rewrite Hinv.
    cbn [rows invocations].
    destruct (IH (N + 1)
                {| rows := rows st ++
                     [result_row p (clock O) (clock (length (invocations st))) N];
                   invocations := invocations st ++ [inv] |} fuel)
      as (invs & Hs & Hi); try lia.
    { cbn [invocations]. rewrite length_app, Hlen. simpl. lia. }
    exists (inv :: invs). split.
    + unfold result_row in Hs. rewrite Hs. cbn [rows invocations].
      f_equal. f_equal.
      * rewrite <- app_assoc. f_equal. simpl. f_equal.
        unfold expected_row, result_row. now rewrite Hlen.
      * now rewrite <- app_assoc.
    + simpl. now rewrite Hinv, Hi.
Qed.

(** The whole sweep, for [maxN >= 1]. *)
Lemma sweep_controller_runs :
  1 <= maxN p ->
  exists inv1 invs,
    run_with p 1 = Some inv1 /\
    map Some invs = map (run_with p) (Zseq 2 (Z.to_nat (maxN p - 1))) /\
    sweep_controller clock p
    = Some {| rows := map (expected_row clock p) (Zseq 1 (Z.to_nat (maxN p)));
              invocations := inv1 :: invs |}.
Proof.
  intros Hge.
  destruct (run_with_defined p 1 serial Hserial) as [inv1 H1].
  { unfold INT_MAX. lia. }
  destruct (sweep_from (Z.to_nat (maxN p - 1)) 2
              {| rows := [result_row p (clock O) (clock O) 1];
                 invocations := [inv1] |} (Z.to_nat (maxN p)))
    as (invs & Hs & Hi); try lia.
  { reflexivity. }
  exists inv1, invs. split; [exact H1|]. split; [exact Hi|].
  unfold sweep_controller, timed_run. rewrite H1. cbn [invocations length rows].
  cbn [sweep].
  assert (E : (1 <=? maxN p) = true) by (apply Z.leb_le; lia).
  assert (E2 : (1 =? INT_MAX) = false) by reflexivity.
  rewrite E, E2. cbn [Z.eqb Pos.eqb rows invocations app].
  unfold result_row in Hs. change (1 + 1) with 2. rewrite Hs.
  cbn [rows invocations app]. f_equal. f_equal.
  replace (Z.to_nat (maxN p)) with (S (Z.to_nat (maxN p - 1))) by lia.
  reflexivity.
Qed.

(** For [maxN < 1] the loop body never runs. *)
Lemma sweep_controller_empty :
  maxN p < 1 ->
  exists inv1,
    run_with p 1 = Some inv1 /\
    sweep_controller clock p = Some {| rows := []; invocations := [inv1] |}.
Proof.
  intros Hlt.
  destruct (run_with_defined p 1 serial Hserial) as [inv1 H1].
  { unfold INT_MAX. lia. }
  exists inv1. split; [exact H1|].
  unfold sweep_controller, timed_run. rewrite H1. cbn [sweep].
  assert (E : (1 <=? maxN p) = false) by (apply Z.leb_gt; lia).
  now rewrite E.
Qed.

End Sweep.

Lemma map_rr_N_expected (clock : nat -> double) (p : RunParameters) (l : list Z) :
  map rr_N (map (expected_row clock p) l) = l.
Proof. rewrite map_map. simpl. apply map_id. Qed.

Lemma map_inv_N_run_with (p : RunParameters) (invs : list Invocation) (l : list Z) :
  map Some invs = map (run_with p) l -> map inv_N invs = l.
Proof.
  revert l. induction invs as [|inv invs IH]; intros [|z l] H; simpl in *;
    try discriminate; [reflexivity|].
  inversion H as [[H1 H2]]. symmetry in H1.
  destruct (run_with_fields p z inv H1) as (_ & _ & _ & _ & E & _).
  rewrite E. f_equal. now apply IH.
Qed.

Lemma Zseq_lower (n : nat) : forall lo, Forall (fun z => lo <= z) (Zseq lo n).
Proof.
  induction n as [|n IH]; intros lo; simpl; constructor; [lia|].
  eapply Forall_impl; [|apply IH]. simpl. intros; lia.
Qed.

Lemma Zseq_increasing (n : nat) : forall lo, StronglySorted Z.lt (Zseq lo n).
Proof.
  induction n as [|n IH]; intros lo; simpl; constructor; [apply IH|].
  eapply Forall_impl; [|apply Zseq_lower]. simpl. intros; lia.
Qed.

(** What the Sweep Controller leaves behind: the rows and the log of the
    Driver invocations. *)
Lemma sweep_controller_rows
  (clock : nat -> double) (p : RunParameters) (serial : Z) :
  serial_of p = Some serial ->
  maxN p < INT_MAX ->
  exists st,
    sweep_controller clock p = Some st /\
    rows st = map (expected_row clock p) (Zseq 1 (Z.to_nat (maxN p))) /\
    map Some (invocations st)
    = map (run_with p) (Zseq 1 (Z.to_nat (Z.max 1 (maxN p)))).
Proof.
  intros Hs Hm.
  destruct (Z_lt_le_dec (maxN p) 1) as [Hlt|Hge].
  - destruct (sweep_controller_empty clock p serial Hs Hlt) as (inv1 & H1 & Hc).
    eexists. split; [exact Hc|]. cbn [rows invocations].
    replace (Z.to_nat (maxN p)) with O by lia.
    replace (Z.to_nat (Z.max 1 (maxN p))) with 1%nat by lia.
    simpl. rewrite H1. split; reflexivity.
  - destruct (sweep_controller_runs clock p serial Hs Hm Hge)
      as (inv1 & invs & H1 & Hi & Hc).
    eexists. split; [exact Hc|]. cbn [rows invocations].
    replace (Z.to_nat (Z.max 1 (maxN p))) with (S (Z.to_nat (maxN p - 1))) by lia.
    split; [reflexivity|]. simpl. now rewrite H1, Hi.
Qed.

(** C1: the Sweep Controller returns; it invokes the Driver once for each
    [N] in [1 .. max(1, maxN)], in that order (so once with [N = 1], the
    baseline, which is not run again for the first row); it writes exactly
    one record for each [N] from [1] to [maxN], in strictly increasing
    order of [N],
    whose [measured_speedup] is the baseline time divided by the time of
    the invocation with [N] threads; and with [maxN = 1] it writes exactly
    one record, whose [measured_speedup] is [1.0] (the baseline time being
    a finite non-zero number of seconds). *)
Theorem sweep_controller_records
  (clock : nat -> double) (p : RunParameters) (serial : Z) :
  serial_of p = Some serial ->
  maxN p < INT_MAX ->
  exists st,
    sweep_controller clock p = Some st /\
    map inv_N (invocations st) = Zseq 1 (Z.to_nat (Z.max 1 (maxN p))) /\
    map Some (invocations st)
    = map (run_with p) (Zseq 1 (Z.to_nat (Z.max 1 (maxN p)))) /\
    rows st = map (expected_row clock p) (Zseq 1 (Z.to_nat (maxN p))) /\
    map rr_N (rows st) = Zseq 1 (Z.to_nat (maxN p)) /\
    StronglySorted Z.lt (map rr_N (rows st)) /\
    (forall r, In r (rows st) ->
       elapsed_seconds r = clock (Z.to_nat (rr_N r - 1)) /\
       measured_speedup r = div (clock O) (elapsed_seconds r)) /\
    (maxN p = 1 -> is_finite (clock O) = true -> eqb (clock O) zero = false ->
     exists r, rows st = [r] /\ rr_N r = 1 /\ measured_speedup r = one).
Proof.
  intros Hs Hm.
  destruct (sweep_controller_rows clock p serial Hs Hm) as (st & Hst & Hrows & Hinv).
  exists st. split; [exact Hst|].
  split; [now apply (map_inv_N_run_with p)|].
  split; [exact Hinv|].
  split; [exact Hrows|].
  rewrite Hrows.
  split; [apply map_rr_N_expected|].
  split; [rewrite map_rr_N_expected; apply Zseq_increasing|].
  split.
  - intros r Hr. apply in_map_iff in Hr. destruct Hr as (N & <- & _).
    split; reflexivity.
  - intros E1 Hfin Hnz. rewrite E1. simpl.
    eexists. split; [reflexivity|]. split; [reflexivity|].
    simpl. destruct (clock O) as [s0|s0| |s0 m0 e0]; try discriminate.
    apply div_self.
Qed.

Lemma sweep_controller_records_witness :
  exists st,
    sweep_controller sample_clock (small_params lit_0_10 1000 1) = Some st /\
    map inv_N (invocations st) = [1] /\
    exists r, rows st = [r] /\ rr_N r = 1 /\ measured_speedup r = one.
Proof.
  assert (Hm : maxN (small_params lit_0_10 1000 1) < INT_MAX) by reflexivity.
  destruct (sweep_controller_records sample_clock (small_params lit_0_10 1000 1) 100
              eq_refl Hm) as (st & H1 & H2 & _ & _ & _ & _ & _ & H7).
  exists st. split; [exact H1|]. split; [exact H2|].
  apply H7; reflexivity.
Defined.

(** ** One thread alone *)

Lemma runs_alone_app (l rest : list op) (held : bool) :
  Forall (fun o => phase_of o = Coherence) l ->
  runs_alone held rest -> runs_alone held (l ++ rest).
Proof.
  induction 1 as [|o l Ho _ IH]; intros Hr; simpl; [exact Hr|].
  destruct o; simpl in Ho; try discriminate; now apply IH.
Qed.

Lemma runs_alone_locks (n : nat) :
  runs_alone false (concat (repeat [MutexLock; MutexUnlock] n)).
Proof. induction n; simpl; auto. Qed.

Lemma worker_runs_alone (p : RunParameters) (n : Z) :
  is_uint64 n -> runs_alone false (worker p n).
Proof.
  intros Hn. destruct (worker_phases p n) as (coh & con & E & _ & Hcon & Hcoh & _).
  rewrite E. simpl. split; [exact Hn|].
  apply runs_alone_app; [exact Hcoh|]. subst con. apply runs_alone_locks.
Qed.

(** A pool of one thread runs its program to the end. *)
Lemma exec_alone (prog : list op) : forall (c : pool),
  pl_threads c = [{| th_status := Running; th_todo := prog |}] ->
  pl_arrived c = O ->
  runs_alone (mutex_held c) prog ->
  let c' := exec (repeat O (length prog)) c in
  pl_threads c' = [{| th_status := Running; th_todo := [] |}] /\
  pl_trace c' = pl_trace c ++ map (pair O) prog.
Proof.
  induction prog as [|o rest IH]; intros c Ht Ha Hr; simpl.
  - split; [exact Ht | now rewrite app_nil_r].
  - assert (Hstep : exists c1, step c O = Some c1 /\
              pl_threads c1 = [{| th_status := Running; th_todo := rest |}] /\
              pl_arrived c1 = O /\
              runs_alone (mutex_held c1) rest /\
              pl_trace c1 = pl_trace c ++ [(O, o)]).
    { unfold step. rewrite Ht. simpl nth_error. cbv iota beta.
      destruct o; simpl in Hr.
      - destruct Hr as [Hn Hr].
        destruct (busy_work_iterations iters Hn) as [acc Eb]. rewrite Eb.
        eexists. split; [reflexivity|]. simpl. auto.
      - rewrite Ha. simpl. eexists. split; [reflexivity|]. simpl. auto.
      - eexists. split; [reflexivity|]. simpl. auto.
      - eexists. split; [reflexivity|]. simpl. auto.
      - destruct Hr as [Hh Hr]. unfold mutex_held in Hh.
        destruct (pl_mutex c); [discriminate|].
        eexists. split; [reflexivity|]. simpl. auto.
      - eexists. split; [reflexivity|]. simpl. auto. }
    destruct Hstep as (c1 & E1 & Ht1 & Ha1 & Hr1 & Htr1).
    rewrite E1. destruct (IH c1 Ht1 Ha1 Hr1) as [H1 H2].
    split; [exact H1|]. rewrite H2, Htr1, <- app_assoc. reflexivity.
Qed.

Lemma pair_projection (prog : list op) :
  map snd (filter (fun e => Nat.eqb (fst e) O) (map (pair O) prog)) = prog.
Proof. induction prog; simpl; congruence. Qed.

(** C10: with [maxN < 1] the process ends with exit status [0], having
    written no row and made exactly one Driver invocation, the baseline
    with [N = 1]; that invocation is complete: its serial slice runs all
    its [serial_iters] iterations, and its single worker runs its whole
    program and is joined. *)
Theorem baseline_runs_when_sweep_is_empty
  (clock : nat -> double) (a : ParsedArgs) (p : RunParameters) (serial : Z) :
  resolve a = Some p ->
  serial_of p = Some serial ->
  maxN p < 1 ->
  exists inv1,
    main clock a = Some ({| rows := []; invocations := [inv1] |}, 0) /\
    run_with p 1 = Some inv1 /\
    inv_N inv1 = 1 /\
    (exists acc, busy_work (serial_iters inv1)
                 = Some (acc, Z.to_nat (serial_iters inv1))) /\
    threads inv1 = [worker p (parallel_iters inv1)] /\
    exists sched,
      let c := exec sched (init_pool (threads inv1)) in
      all_joined c = true /\
      done_by O c = worker p (parallel_iters inv1).
Proof.
  intros Hres Hs Hlt.
  destruct (sweep_controller_empty clock p serial Hs Hlt) as (inv1 & H1 & Hc).
  exists inv1. unfold main. rewrite Hres, Hc.
  destruct (run_with_fields p 1 inv1 H1) as (Hser & Hpar & Hper & _ & HN & _).
  change (wrap64 1) with 1 in Hper. rewrite Z.div_1_r in Hper.
  pose proof (threads_repeat p 1 inv1 H1) as Hth. simpl in Hth. rewrite Hper in Hth.
  split; [reflexivity|]. split; [exact H1|]. split; [exact HN|].
  split; [apply busy_work_iterations; now apply (to_uint64_range _ _ Hser)|].
  split; [exact Hth|].
  exists (repeat O (length (worker p (parallel_iters inv1)))).
  rewrite Hth.
  destruct (exec_alone (worker p (parallel_iters inv1))
              (init_pool [worker p (parallel_iters inv1)])) as [E1 E2].
  - reflexivity.
  - reflexivity.
  - apply worker_runs_alone. rewrite Hpar. apply wrap64_range.
  - cbv zeta. split.
    + unfold all_joined. rewrite E1. reflexivity.
    + unfold done_by. rewrite E2. cbn [init_pool pl_trace app]. apply pair_projection.
Qed.

Lemma baseline_runs_when_sweep_is_empty_witness :
  exists inv1,
    main sample_clock
         {| argc := 9; argv1 := lit_0_10; argv2 := lit_0_02; argv3 := lit_0_003;
            argv4 := 1000; argv5 := 0; argv6 := 2; argv7 := 3; argv8 := 2 |}
    = Some ({| rows := []; invocations := [inv1] |}, 0) /\
    inv_N inv1 = 1.
Proof.
  destruct (baseline_runs_when_sweep_is_empty sample_clock
              {| argc := 9; argv1 := lit_0_10; argv2 := lit_0_02; argv3 := lit_0_003;
                 argv4 := 1000; argv5 := 0; argv6 := 2; argv7 := 3; argv8 := 2 |}
              _ 100 eq_refl eq_refl eq_refl) as (inv1 & H1 & _ & H3 & _).
  exists inv1. split; [exact H1 | exact H3].
Defined.

(** ** Rounding on codes *)

Lemma rec_code_of_loc (m : Z) (l : location) :
  rec_code (shr_record_of_loc m l) = 4 * m + loc_code l.
Proof. destruct l as [|[| |]]; unfold rec_code; simpl; lia. Qed.

Lemma ssr_0 (c : Z) : ssr c 0 = c.
Proof.
  unfold ssr. change (2 ^ (0 + 1)) with 2.
  destruct (Z.eqb_spec (c mod 2) 0); Z.div_mod_to_equations; lia.
Qed.

Lemma ssr_1 (c : Z) : ssr c 1 = 2 * (c / 4) + (if c mod 4 =? 0 then 0 else 1).
Proof. reflexivity. Qed.

Lemma pow2_pos (n : Z) : 0 <= n -> 0 < 2 ^ n.
Proof. intros. apply Z.pow_pos_nonneg; lia. Qed.

Lemma ssr_ssr (c a b : Z) : 0 <= a -> 0 <= b -> ssr (ssr c a) b = ssr c (a + b).
Proof.
  intros Ha Hb. unfold ssr.
  set (A := 2 ^ (a + 1)). set (B := 2 ^ b).
  assert (HA : 0 < A) by (apply pow2_pos; lia).
  assert (HB : 0 < B) by (apply pow2_pos; lia).
  replace (2 ^ (b + 1)) with (2 * B) by (unfold B; rewrite Z.pow_add_r by lia; ring).
  replace (2 ^ (a + b + 1)) with (A * B)
    by (unfold A, B; rewrite <- Z.pow_add_r by lia; f_equal; lia).
  set (t := if c mod A =? 0 then 0 else 1).
  assert (Ht : 0 <= t <= 1) by (unfold t; destruct (c mod A =? 0); lia).
  assert (E1 : (2 * (c / A) + t) / (2 * B) = c / (A * B)).
  { rewrite <- Z.div_div by lia.
    replace ((2 * (c / A) + t) / 2) with (c / A) by (Z.div_mod_to_equations; lia).
    now rewrite Z.div_div by lia. }
  rewrite E1. f_equal.
  assert (E2 : (2 * (c / A) + t) mod (2 * B) = 2 * ((c / A) mod B) + t).
  { rewrite Z.rem_mul_r by lia.
    replace ((2 * (c / A) + t) / 2) with (c / A) by (Z.div_mod_to_equations; lia).
    replace ((2 * (c / A) + t) mod 2) with t by (Z.div_mod_to_equations; lia).
    ring. }
  rewrite E2, (Z.rem_mul_r c A B) by lia.
  pose proof (Z.mod_pos_bound (c / A) B HB) as H1.
  pose proof (Z.mod_pos_bound c A HA) as H2.
  unfold t.
  destruct (Z.eqb_spec (c mod A) 0) as [E|E].
  - rewrite E.
    destruct (Z.eqb_spec (2 * ((c / A) mod B) + 0) 0);
      destruct (Z.eqb_spec (0 + A * ((c / A) mod B)) 0); nia.
  - destruct (Z.eqb_spec (2 * ((c / A) mod B) + 1) 0);
      destruct (Z.eqb_spec (c mod A + A * ((c / A) mod B)) 0); nia.
Qed.

Lemma shr_1_code (mrs : shr_record) :
  0 <= shr_m mrs ->
  rec_code (shr_1 mrs) = ssr (rec_code mrs) 1 /\ 0 <= shr_m (shr_1 mrs).
Proof.
  destruct mrs as [m r s]. cbn [shr_m]. intros Hm. rewrite ssr_1.
  assert (Hd : forall q k, 0 <= k < 4 ->
            2 * ((4 * q + k) / 4) + (if (4 * q + k) mod 4 =? 0 then 0 else 1)
            = 2 * q + (if k =? 0 then 0 else 1)).
  { intros q k Hk.
    replace ((4 * q + k) / 4) with q by (Z.div_mod_to_equations; lia).
    replace ((4 * q + k) mod 4) with k by (Z.div_mod_to_equations; lia).
    reflexivity. }
  replace (rec_code {| shr_m := m; shr_r := r; shr_s := s |})
    with (4 * m + (2 * b2z r + b2z s)) by (unfold rec_code; cbn [shr_m shr_r shr_s]; ring).
  rewrite Hd by (destruct r, s; simpl; lia).
  destruct m as [|[q|q|]|q]; try lia; unfold shr_1, rec_code; cbn [shr_m shr_r shr_s];
    (split; [|lia]);
    try rewrite Pos2Z.inj_xI; try rewrite Pos2Z.inj_xO;
    destruct r, s; simpl; lia.
Qed.

Lemma iter_pos_shr_1_code (n : positive) : forall mrs,
  0 <= shr_m mrs ->
  rec_code (iter_pos shr_1 n mrs) = ssr (rec_code mrs) (Z.pos n) /\
  0 <= shr_m (iter_pos shr_1 n mrs).
Proof.
  induction n as [n IH|n IH|]; intros mrs Hm; simpl iter_pos.
  - destruct (shr_1_code mrs Hm) as [E1 H1].
    destruct (IH _ H1) as [E2 H2]. destruct (IH _ H2) as [E3 H3].
    split; [|exact H3].
    rewrite E3, E2, E1, !ssr_ssr by lia. f_equal. lia.
  - destruct (IH _ Hm) as [E2 H2]. destruct (IH _ H2) as [E3 H3].
    split; [|exact H3].
    rewrite E3, E2, !ssr_ssr by lia. f_equal. lia.
  - apply shr_1_code, Hm.
Qed.

Lemma shr_code (mrs : shr_record) (e n : Z) :
  0 <= shr_m mrs ->
  rec_code (fst (shr mrs e n)) = ssr (rec_code mrs) (Z.max 0 n) /\
  snd (shr mrs e n) = e + Z.max 0 n /\
  0 <= shr_m (fst (shr mrs e n)).
Proof.
  intros Hm. destruct n as [|q|q]; simpl.
  - rewrite ssr_0. repeat split; [lia | exact Hm].
  - destruct (iter_pos_shr_1_code q mrs Hm) as [E H]. repeat split; assumption.
  - rewrite ssr_0. repeat split; [lia | exact Hm].
Qed.

Lemma rne4_spec (m k : Z) :
  0 <= k < 4 ->
  rne4 (4 * m + k)
  = match k with
    | 0 | 1 => m
    | 2 => if Z.even m then m else m + 1
    | _ => m + 1
    end.
Proof.
  intros Hk. unfold rne4.
  replace ((4 * m + k) / 4) with m by (Z.div_mod_to_equations; lia).
  replace ((4 * m + k) mod 4) with k by (Z.div_mod_to_equations; lia).
  reflexivity.
Qed.

Lemma round_nearest_even_code (mrs : shr_record) :
  round_nearest_even (shr_m mrs) (loc_of_shr_record mrs) = rne4 (rec_code mrs).
Proof.
  destruct mrs as [m r s]. unfold rec_code. cbn [shr_m shr_r shr_s].
  rewrite <- Z.add_assoc, rne4_spec by (destruct r, s; simpl; lia).
  destruct r, s; reflexivity.
Qed.

(** [binary_round_aux], told with codes: shift the code to the exponent
    the format asks for, round it, renormalise. *)
Lemma binary_round_aux_code (sx : bool) (mx ex : Z) (lx : location) :
  0 <= mx ->
  let n := Z.max 0 (fexp prec emax (Zdigits2 mx + ex) - ex) in
  binary_round_aux prec emax sx mx ex lx
  = round_code sx (ssr (4 * mx + loc_code lx) n) (ex + n).
Proof.
  intros Hm n. unfold binary_round_aux, round_code, finish.
  unfold shr_fexp at 1.
  destruct (shr_code (shr_record_of_loc mx lx) ex
              (fexp prec emax (Zdigits2 mx + ex) - ex)) as (E1 & E2 & _).
  { destruct lx as [|[| |]]; exact Hm. }
  destruct (shr (shr_record_of_loc mx lx) ex _) as [mrs' e'].
  simpl in E1, E2. rewrite round_nearest_even_code, E1, E2, rec_code_of_loc.
  reflexivity.
Qed.

(** ** Number of bits *)

Lemma digits2_pos_bounds (p : positive) :
  2 ^ (Z.pos (digits2_pos p) - 1) <= Z.pos p < 2 ^ Z.pos (digits2_pos p).
Proof.
  induction p as [p IH|p IH|]; simpl digits2_pos.
  - rewrite Pos2Z.inj_succ. change (Z.pos p~1) with (2 * Z.pos p + 1).
    replace (Z.succ (Z.pos (digits2_pos p)) - 1) with (Z.succ (Z.pos (digits2_pos p) - 1)) by lia.
    rewrite !Z.pow_succ_r by lia. lia.
  - rewrite Pos2Z.inj_succ. change (Z.pos p~0) with (2 * Z.pos p).
    replace (Z.succ (Z.pos (digits2_pos p)) - 1) with (Z.succ (Z.pos (digits2_pos p) - 1)) by lia.
    rewrite !Z.pow_succ_r by lia. lia.
  - simpl. lia.
Qed.

Lemma Zdigits2_bounds (m : Z) :
  0 < m -> 2 ^ (Zdigits2 m - 1) <= m < 2 ^ Zdigits2 m /\ 0 < Zdigits2 m.
Proof.
  destruct m as [|p|p]; try lia. intros _. simpl.
  split; [apply digits2_pos_bounds | lia].
Qed.

Lemma Zdigits2_unique (m d : Z) :
  2 ^ (d - 1) <= m < 2 ^ d -> 0 < m -> Zdigits2 m = d.
Proof.
  intros [H1 H2] Hm.
  destruct (Zdigits2_bounds m Hm) as [[H3 H4] H5].
  assert (Hd : 0 < d).
  { destruct (Z_lt_le_dec 0 d) as [|Hle]; [assumption|].
    destruct (Z.eq_dec d 0) as [->|Hne]; [simpl in H2; lia|].
    rewrite Z.pow_neg_r in H2 by lia. lia. }
  destruct (Z_lt_le_dec (Zdigits2 m) d) as [Hlt|Hge].
  - assert (2 ^ Zdigits2 m <= 2 ^ (d - 1)) by (apply Z.pow_le_mono_r; lia). lia.
  - destruct (Z_lt_le_dec d (Zdigits2 m)) as [Hlt|Hle]; [|lia].
    assert (2 ^ d <= 2 ^ (Zdigits2 m - 1)) by (apply Z.pow_le_mono_r; lia). lia.
Qed.

(** ** The last step of rounding *)

Lemma fexp_eq (k : Z) : fexp prec emax k = Z.max (k - 53) (-1074).
Proof. reflexivity. Qed.

Lemma finish_zero (sx : bool) (e : Z) : finish sx 0 e = S754_zero sx.
Proof.
  unfold finish, shr_fexp.
  destruct (shr_code (shr_record_of_loc 0 loc_Exact) e
              (fexp prec emax (Zdigits2 0 + e) - e)) as (E1 & _ & E3); [simpl; lia|].
  destruct (shr _ e _) as [mrs e']. simpl in E1, E3.
  assert (E : 4 * shr_m mrs + 2 * b2z (shr_r mrs) + b2z (shr_s mrs) = 0).
  { fold (rec_code mrs). rewrite E1. unfold ssr, rec_code. simpl shr_m.
    rewrite Z.div_0_l, Z.mod_0_l; [reflexivity| |];
      apply Z.pow_nonzero; lia. }
  destruct mrs as [m r s]. cbn [shr_m shr_r shr_s] in *.
  assert (m = 0) by (destruct r, s; unfold b2z in E; lia).
  now subst m.
Qed.

(** A mantissa that already sits at the exponent of the format is kept. *)
Lemma finish_canonical (sx : bool) (m : positive) (e : Z) :
  fexp prec emax (Z.pos (digits2_pos m) + e) = e ->
  finish sx (Z.pos m) e
  = if e <=? emax - prec then S754_finite sx m e else S754_infinity sx.
Proof.
  intros H. unfold finish, shr_fexp. simpl Zdigits2. rewrite H, Z.sub_diag.
  reflexivity.
Qed.

(** A mantissa that rounding has carried to [2^53] is renormalised. *)
Lemma finish_carry (sx : bool) (e : Z) :
  -1074 <= e ->
  finish sx (2 ^ 53) e
  = if e + 1 <=? emax - prec
    then S754_finite sx 4503599627370496 (e + 1) else S754_infinity sx.
Proof.
  intros He. unfold finish, shr_fexp.
  change (Zdigits2 (2 ^ 53)) with 54. rewrite fexp_eq.
  replace (Z.max (54 + e - 53) (-1074) - e) with 1 by lia.
  reflexivity.
Qed.

(** ** Powers of two and floors in [Q] *)

Lemma pow2_gt0 (e : Z) : (0 < pow2 e)%Q.
Proof. apply Qpower_0_lt. reflexivity. Qed.

Lemma pow2_add (a b : Z) : (pow2 (a + b) == pow2 a * pow2 b)%Q.
Proof. apply Qpower_plus. discriminate. Qed.

Lemma pow2_Z (n : Z) : 0 <= n -> (pow2 n == inject_Z (2 ^ n))%Q.
Proof. intros H. unfold pow2. now rewrite Zpower_Qpower. Qed.

Lemma pow2_le (a b : Z) : a <= b -> (pow2 a <= pow2 b)%Q.
Proof. intros H. apply Qpower_le_compat_l; [exact H | discriminate]. Qed.

Lemma pow2_lt (a b : Z) : a < b -> (pow2 a < pow2 b)%Q.
Proof. intros H. apply Qpower_lt_compat_l; [exact H | reflexivity]. Qed.

Lemma pow2_lt_inv (a b : Z) : (pow2 a < pow2 b)%Q -> a < b.
Proof. intros H. apply (Qpower_lt_compat_l_inv 2); [exact H | reflexivity]. Qed.

Lemma pow2_inv (n : Z) : (pow2 n * pow2 (- n) == 1)%Q.
Proof. rewrite <- pow2_add, Z.add_opp_diag_r. reflexivity. Qed.

Lemma Qfloor_unique (y : Q) (z : Z) :
  (inject_Z z <= y)%Q -> (y < inject_Z (z + 1))%Q -> Qfloor y = z.
Proof.
  intros H1 H2.
  pose proof (Qfloor_le y) as H3. pose proof (Qlt_floor y) as H4.
  assert (z < Qfloor y + 1) by (rewrite Zlt_Qlt; eapply Qle_lt_trans; eassumption).
  assert (Qfloor y < z + 1) by (rewrite Zlt_Qlt; eapply Qle_lt_trans; eassumption).
  lia.
Qed.

(** Dividing by a power of two commutes with taking the integer part. *)
Lemma Qfloor_shift (y : Q) (n : Z) :
  0 <= n -> Qfloor (y * pow2 (- n)) = Qfloor y / 2 ^ n.
Proof.
  intros Hn.
  pose proof (Qfloor_le y) as H3. pose proof (Qlt_floor y) as H4.
  pose proof (pow2_gt0 (- n)) as Hp.
  set (P := 2 ^ n). assert (HP : 0 < P) by (apply pow2_pos; exact Hn).
  assert (EP : (inject_Z P * pow2 (- n) == 1)%Q).
  { unfold P. rewrite <- pow2_Z by exact Hn. apply pow2_inv. }
  set (f := Qfloor y) in *. set (q := f / P).
  assert (Hq : P * q <= f < P * (q + 1)).
  { unfold q. pose proof (Z.mul_div_le f P HP).
    pose proof (Z.mul_succ_div_gt f P HP). lia. }
  apply Qfloor_unique.
  - setoid_replace (inject_Z q) with (inject_Z (P * q) * pow2 (- n))%Q.
    + apply Qmult_le_compat_r; [|apply Qlt_le_weak, Hp].
      eapply Qle_trans; [|exact H3]. rewrite <- Zle_Qle. lia.
    + rewrite inject_Z_mult, (Qmult_comm (inject_Z P)), <- Qmult_assoc, EP. ring.
  - setoid_replace (inject_Z (q + 1)) with (inject_Z (P * (q + 1)) * pow2 (- n))%Q.
    + apply Qmult_lt_compat_r; [exact Hp|].
      eapply Qlt_le_trans; [exact H4|]. rewrite <- Zle_Qle. lia.
    + rewrite inject_Z_mult, (Qmult_comm (inject_Z P)), <- Qmult_assoc, EP. ring.
Qed.

Lemma sticky_0 (y : Q) : sticky y = 0 <-> (y == inject_Z (Qfloor y))%Q.
Proof.
  unfold sticky. destruct (Qeq_bool (inject_Z (Qfloor y)) y) eqn:E.
  - apply Qeq_bool_iff in E. split; [intros _; now symmetry | reflexivity].
  - split; [discriminate|]. intros H. symmetry in H.
    apply Qeq_bool_iff in H. congruence.
Qed.

Lemma sticky_range (y : Q) : 0 <= sticky y <= 1.
Proof. unfold sticky. destruct (Qeq_bool _ _); lia. Qed.

Lemma sticky_integer (z : Z) : sticky (inject_Z z) = 0.
Proof. apply sticky_0. now rewrite Qfloor_Z. Qed.

#[local] Instance sticky_proper : Proper (Qeq ==> eq) sticky.
Proof.
  intros x y H. unfold sticky. rewrite (Qfloor_comp _ _ H).
  destruct (Qeq_bool (inject_Z (Qfloor y)) x) eqn:E1;
    destruct (Qeq_bool (inject_Z (Qfloor y)) y) eqn:E2; try reflexivity.
  - apply Qeq_bool_iff in E1.
    assert (X : Qeq_bool (inject_Z (Qfloor y)) y = true)
      by (apply Qeq_bool_iff; eapply Qeq_trans; eassumption).
    congruence.
  - apply Qeq_bool_iff in E2. symmetry in H.
    assert (X : Qeq_bool (inject_Z (Qfloor y)) x = true)
      by (apply Qeq_bool_iff; eapply Qeq_trans; eassumption).
    congruence.
Qed.

#[local] Instance scode_proper : Proper (Qeq ==> eq ==> eq) scode.
Proof. intros x y H e e' <-. unfold scode. now rewrite H. Qed.

(** ** Codes of a rational *)

(** Seeing [x] at a coarser exponent is a sticky shift of its code. *)
Lemma scode_shift (x : Q) (e n : Z) :
  0 <= n -> ssr (scode x e) n = scode x (e + n).
Proof.
  intros Hn. unfold scode.
  set (y := (x * pow2 (1 - e))%Q).
  assert (Ey : (x * pow2 (1 - (e + n)) == y * pow2 (- n))%Q).
  { unfold y. rewrite <- Qmult_assoc, <- pow2_add.
    replace (1 - (e + n)) with (1 - e + - n) by ring. reflexivity. }
  rewrite Ey. rewrite (Qfloor_shift y n Hn).
  set (f := Qfloor y). set (t := sticky y).
  pose proof (sticky_range y) as Ht. fold t in Ht.
  set (P := 2 ^ n). assert (HP : 0 < P) by (apply pow2_pos; exact Hn).
  unfold ssr.
  replace (2 ^ (n + 1)) with (2 * P) by (unfold P; rewrite Z.pow_add_r by lia; ring).
  assert (E1 : (2 * f + t) / (2 * P) = f / P).
  { rewrite <- Z.div_div by lia.
    replace ((2 * f + t) / 2) with f by (Z.div_mod_to_equations; lia).
    reflexivity. }
  assert (E2 : (2 * f + t) mod (2 * P) = 2 * (f mod P) + t).
  { rewrite Z.rem_mul_r by lia.
    replace ((2 * f + t) / 2) with f by (Z.div_mod_to_equations; lia).
    replace ((2 * f + t) mod 2) with t by (Z.div_mod_to_equations; lia).
    ring. }
  rewrite E1, E2. f_equal.
  pose proof (Z.mod_pos_bound f P HP) as Hm.
  assert (EP : (inject_Z P * pow2 (- n) == 1)%Q).
  { unfold P. rewrite <- pow2_Z by exact Hn. apply pow2_inv. }
  destruct (Z.eqb_spec (2 * (f mod P) + t) 0) as [E|E].
  - (* nothing is lost: [y] is an integer multiple of [P] *)
    symmetry. apply sticky_0.
    rewrite (Qfloor_shift y n Hn). fold f. fold P.
    assert (Et : t = 0) by lia. assert (Ef : f mod P = 0) by lia.
    apply sticky_0 in Et. fold f in Et. rewrite Et.
    rewrite (Z.div_mod f P) at 1 by lia. rewrite Ef, Z.add_0_r.
    rewrite inject_Z_mult, (Qmult_comm (inject_Z P)), <- Qmult_assoc, EP. ring.
  - destruct (Z.eq_dec (sticky (y * pow2 (- n))) 0) as [E0|E0].
    + exfalso. apply E.
      apply sticky_0 in E0. rewrite (Qfloor_shift y n Hn) in E0. fold f P in E0.
      assert (Ey' : (y == inject_Z (P * (f / P)))%Q).
      { rewrite inject_Z_mult, <- E0, (Qmult_comm y), Qmult_assoc, EP. ring. }
      assert (Ef : f = P * (f / P)).
      { unfold f at 1. rewrite Ey'. apply Qfloor_Z. }
      assert (Et : t = 0).
      { apply sticky_0. fold f. rewrite Ef at 1. exact Ey'. }
      pose proof (Z.div_mod f P ltac:(lia)). lia.
    + pose proof (sticky_range (y * pow2 (- n))). lia.
Qed.

Lemma scode_mono (x y : Q) (e : Z) : (x <= y)%Q -> scode x e <= scode y e.
Proof.
  intros H. unfold scode.
  set (u := (x * pow2 (1 - e))%Q). set (v := (y * pow2 (1 - e))%Q).
  assert (Huv : (u <= v)%Q).
  { unfold u, v. apply Qmult_le_compat_r; [exact H | apply Qlt_le_weak, pow2_gt0]. }
  pose proof (Qfloor_resp_le u v Huv) as Hf.
  pose proof (sticky_range u). pose proof (sticky_range v).
  destruct (Z.eq_dec (Qfloor u) (Qfloor v)) as [E|E]; [|lia].
  destruct (Z.eq_dec (sticky u) 0) as [E0|E0]; [lia|].
  destruct (Z.eq_dec (sticky v) 0) as [E1|E1]; [|lia].
  exfalso. apply E0. apply sticky_0. apply sticky_0 in E1.
  apply Qle_antisym.
  - rewrite E. rewrite <- E1. exact Huv.
  - apply Qfloor_le.
Qed.

(** The code of a number that is a multiple of [2^e]. *)
Lemma scode_exact (x : Q) (m e : Z) :
  (x == inject_Z m * pow2 e)%Q -> scode x e = 4 * m.
Proof.
  intros H. unfold scode.
  assert (E : (x * pow2 (1 - e) == inject_Z (2 * m))%Q).
  { rewrite H, <- Qmult_assoc, <- pow2_add.
    replace (e + (1 - e)) with 1 by ring. rewrite inject_Z_mult.
    change (pow2 1) with (inject_Z 2). ring. }
  rewrite E, Qfloor_Z, sticky_integer. ring.
Qed.

(** The mantissa in a code is the integer part of [x / 2^e]. *)
Lemma scode_div4 (x : Q) (e : Z) : scode x e / 4 = Qfloor (x * pow2 (- e)).
Proof.
  unfold scode.
  assert (E : (x * pow2 (- e) == x * pow2 (1 - e) * pow2 (- 1))%Q).
  { rewrite <- Qmult_assoc, <- pow2_add. replace (1 - e + - 1) with (- e) by ring.
    reflexivity. }
  rewrite E, (Qfloor_shift _ 1) by lia.
  pose proof (sticky_range (x * pow2 (1 - e))).
  change (2 ^ 1) with 2. Z.div_mod_to_equations; lia.
Qed.

(** [x] lies between its mantissa and the next one. *)
Lemma mantissa_bounds (x : Q) (e : Z) :
  (inject_Z (scode x e / 4) * pow2 e <= x)%Q /\
  (x < inject_Z (scode x e / 4 + 1) * pow2 e)%Q.
Proof.
  rewrite scode_div4.
  pose proof (Qfloor_le (x * pow2 (- e))) as H1.
  pose proof (Qlt_floor (x * pow2 (- e))) as H2.
  pose proof (pow2_gt0 e) as Hp.
  assert (E : (x == x * pow2 (- e) * pow2 e)%Q).
  { rewrite <- Qmult_assoc, <- pow2_add, Z.add_opp_diag_l.
    change (pow2 0) with 1%Q. ring. }
  split.
  - rewrite E at 2. apply Qmult_le_compat_r; [exact H1 | now apply Qlt_le_weak].
  - rewrite E at 1. apply Qmult_lt_compat_r; assumption.
Qed.

(** ** Orders of magnitude *)

Lemma bracket_of_mantissa (x : Q) (e : Z) :
  0 < scode x e / 4 -> bracket x (Zdigits2 (scode x e / 4) + e).
Proof.
  intros Hm. destruct (mantissa_bounds x e) as [H1 H2].
  set (m := scode x e / 4) in *.
  destruct (Zdigits2_bounds m Hm) as [[H3 H4] H5].
  set (d := Zdigits2 m) in *.
  pose proof (pow2_gt0 e) as Hp.
  split.
  - replace (d + e - 1) with (d - 1 + e) by ring.
    rewrite pow2_add, pow2_Z by lia.
    eapply Qle_trans; [|exact H1].
    apply Qmult_le_compat_r; [|now apply Qlt_le_weak].
    now rewrite <- Zle_Qle.
  - rewrite pow2_add, pow2_Z by lia.
    eapply Qlt_le_trans; [exact H2|].
    apply Qmult_le_compat_r; [|now apply Qlt_le_weak].
    rewrite <- Zle_Qle. lia.
Qed.

Lemma bracket_pos (x : Q) (k : Z) : bracket x k -> (0 < x)%Q.
Proof. intros [H _]. eapply Qlt_le_trans; [apply pow2_gt0 | exact H]. Qed.

Lemma bracket_le (x y : Q) (kx ky : Z) :
  bracket x kx -> bracket y ky -> (x <= y)%Q -> kx <= ky.
Proof.
  intros [H1 _] [_ H2] H.
  assert (Hlt : (pow2 (kx - 1) < pow2 ky)%Q)
    by (eapply Qle_lt_trans; [exact H1|]; eapply Qle_lt_trans; eassumption).
  apply pow2_lt_inv in Hlt. lia.
Qed.

Lemma bracket_unique (x : Q) (k k' : Z) : bracket x k -> bracket x k' -> k = k'.
Proof.
  intros H H'.
  pose proof (bracket_le x x k k' H H' (Qle_refl x)).
  pose proof (bracket_le x x k' k H' H (Qle_refl x)). lia.
Qed.

(** The mantissa of [x] at an exponent below its order of magnitude. *)
Lemma mantissa_of_bracket (x : Q) (k e : Z) :
  bracket x k -> e <= k ->
  scode x e / 4 < 2 ^ (k - e) /\ (e <= k - 1 -> 2 ^ (k - 1 - e) <= scode x e / 4).
Proof.
  intros [H1 H2] He. rewrite scode_div4.
  pose proof (pow2_gt0 (- e)) as Hp.
  split.
  - rewrite Zlt_Qlt. eapply Qle_lt_trans; [apply Qfloor_le|].
    rewrite <- pow2_Z by lia. replace (k - e) with (k + - e) by ring.
    rewrite pow2_add. now apply Qmult_lt_compat_r.
  - intros He'.
    rewrite <- (Qfloor_Z (2 ^ (k - 1 - e))). apply Qfloor_resp_le.
    rewrite <- pow2_Z by lia. replace (k - 1 - e) with (k - 1 + - e) by ring.
    rewrite pow2_add. apply Qmult_le_compat_r; [exact H1 | now apply Qlt_le_weak].
Qed.

(** ** [binary_round_aux] computes [RND] *)

Lemma binary_round_aux_RND (sx : bool) (mx ex : Z) (lx : location) (x : Q) :
  0 < mx ->
  4 * mx + loc_code lx = scode x ex ->
  ex <= fexp prec emax (Zdigits2 mx + ex) ->
  binary_round_aux prec emax sx mx ex lx = RND sx x (Zdigits2 mx + ex) /\
  bracket x (Zdigits2 mx + ex).
Proof.
  intros Hm Hc He.
  assert (Em : scode x ex / 4 = mx).
  { rewrite <- Hc. destruct lx as [|[| |]]; simpl loc_code; Z.div_mod_to_equations; lia. }
  split.
  - rewrite binary_round_aux_code by lia. cbv zeta. unfold RND.
    rewrite Hc, scode_shift by lia.
    replace (ex + Z.max 0 (fexp prec emax (Zdigits2 mx + ex) - ex))
      with (fexp prec emax (Zdigits2 mx + ex)) by lia.
    reflexivity.
  - rewrite <- Em at 1. apply bracket_of_mantissa. now rewrite Em.
Qed.

Lemma iter_xO_pow (d m : positive) :
  Z.pos (Pos.iter xO m d) = Z.pos m * 2 ^ Z.pos d.
Proof.
  rewrite (Pos.iter_swap_gen _ _ Z.pos xO (Z.mul 2)) by reflexivity.
  change (2 ^ Z.pos d) with (Pos.iter (Z.mul 2) 1 d).
  rewrite (Pos.iter_swap_gen _ _ (fun t => Z.pos m * t) (Z.mul 2) (Z.mul 2))
    by (intros; ring).
  now rewrite Z.mul_1_r.
Qed.

Lemma shl_align_spec (mx : positive) (ex ex' : Z) :
  snd (shl_align mx ex ex') = Z.min ex ex' /\
  Z.pos (fst (shl_align mx ex ex')) = Z.pos mx * 2 ^ (ex - Z.min ex ex').
Proof.
  unfold shl_align. destruct (ex' - ex) as [|d|d] eqn:E; simpl fst; simpl snd.
  - replace (Z.min ex ex') with ex by lia. rewrite Z.sub_diag. split; [reflexivity|].
    simpl. lia.
  - replace (Z.min ex ex') with ex by lia. rewrite Z.sub_diag. split; [reflexivity|].
    simpl. lia.
  - replace (Z.min ex ex') with ex' by lia. split; [reflexivity|].
    replace (ex - ex') with (Z.pos d) by lia. apply iter_xO_pow.
Qed.

Lemma Zdigits2_shift (m : positive) (j : Z) :
  0 <= j -> Zdigits2 (Z.pos m * 2 ^ j) = Z.pos (digits2_pos m) + j.
Proof.
  intros Hj. pose proof (digits2_pos_bounds m) as [H1 H2].
  pose proof (pow2_pos j Hj) as Hp.
  apply Zdigits2_unique; [|nia].
  replace (Z.pos (digits2_pos m) + j - 1) with (Z.pos (digits2_pos m) - 1 + j) by ring.
  rewrite !Z.pow_add_r by lia. split; nia.
Qed.

(** [binary_round] on [M * 2^e] is the rounding of that number. *)
Lemma binary_round_RND (sx : bool) (M : positive) (e : Z) (x : Q) :
  (x == inject_Z (Z.pos M) * pow2 e)%Q ->
  binary_round prec emax sx M e = RND sx x (Z.pos (digits2_pos M) + e) /\
  bracket x (Z.pos (digits2_pos M) + e).
Proof.
  intros Hx. unfold binary_round.
  set (E := fexp prec emax (Z.pos (digits2_pos M) + e)).
  destruct (shl_align_spec M e E) as [H1 H2].
  destruct (shl_align M e E) as [mz ez]. cbn [fst snd] in H1, H2.
  assert (Hj : 0 <= e - ez) by lia.
  assert (Hd : Zdigits2 (Z.pos mz) + ez = Z.pos (digits2_pos M) + e).
  { rewrite H2, <- H1, Zdigits2_shift by lia. ring. }
  rewrite <- Hd. apply binary_round_aux_RND.
  - lia.
  - simpl loc_code. rewrite Z.add_0_r. symmetry. apply scode_exact.
    rewrite Hx, H2, <- H1, inject_Z_mult, <- pow2_Z, <- Qmult_assoc, <- pow2_add by lia.
    replace (e - ez + ez) with e by ring. reflexivity.
  - rewrite Hd. fold E. lia.
Qed.

(** ** Rounding a code *)

Lemma rne4_range (c : Z) : c / 4 <= rne4 c <= c / 4 + 1.
Proof.
  unfold rne4.
  destruct (c mod 4) as [|[q|q|]|q]; try destruct q; try destruct (Z.even (c / 4)); lia.
Qed.

Lemma rne4_mono (c c' : Z) : c <= c' -> rne4 c <= rne4 c'.
Proof.
  intros H.
  pose proof (Z.div_mod c 4 ltac:(lia)) as E.
  pose proof (Z.div_mod c' 4 ltac:(lia)) as E'.
  pose proof (Z.mod_pos_bound c 4 ltac:(lia)) as B.
  pose proof (Z.mod_pos_bound c' 4 ltac:(lia)) as B'.
  destruct (Z.eq_dec (c / 4) (c' / 4)) as [Em|Em].
  - rewrite E, E', <- Em, !rne4_spec by lia.
    assert (Hk : c mod 4 <= c' mod 4) by lia.
    generalize dependent (c mod 4). generalize dependent (c' mod 4).
    intros k' _ B' k _ B Hk.
    assert (Hc : k = 0 \/ k = 1 \/ k = 2 \/ k = 3) by lia.
    assert (Hc' : k' = 0 \/ k' = 1 \/ k' = 2 \/ k' = 3) by lia.
    destruct Hc as [-> | [-> | [-> | ->]]]; destruct Hc' as [-> | [-> | [-> | ->]]];
      try lia; destruct (Z.even (c / 4)); lia.
  - pose proof (rne4_range c). pose proof (rne4_range c'). lia.
Qed.

Lemma mantissa_small (x : Q) (k e : Z) : bracket x k -> k <= e -> scode x e / 4 = 0.
Proof.
  intros Hb Hk. rewrite scode_div4. apply Qfloor_unique.
  - apply Qmult_le_0_compat; apply Qlt_le_weak;
      [exact (bracket_pos x k Hb) | apply pow2_gt0].
  - destruct Hb as [_ H2]. change (inject_Z (0 + 1)) with (pow2 0).
    eapply Qlt_le_trans.
    + apply Qmult_lt_compat_r; [apply pow2_gt0 | exact H2].
    + rewrite <- pow2_add. apply pow2_le. lia.
Qed.

Lemma pow2_le_inv_Z (a b : Z) : 0 <= a -> 0 <= b -> 2 ^ a <= 2 ^ b -> a <= b.
Proof. intros Ha Hb H. apply (Z.pow_le_mono_r_iff 2); lia. Qed.

(** The rounding of [x], as [pack] gives it. *)
Lemma RND_pack (sx : bool) (x : Q) (k : Z) :
  bracket x k ->
  RND sx x k
  = pack sx (rne4 (scode x (fexp prec emax k))) (fexp prec emax k) /\
  packable (rne4 (scode x (fexp prec emax k))) (fexp prec emax k) /\
  (-1021 <= k -> 2 ^ 52 <= rne4 (scode x (fexp prec emax k))).
Proof.
  intros Hb. unfold RND, round_code. rewrite fexp_eq.
  set (e := Z.max (k - 53) (-1074)).
  pose proof (rne4_range (scode x e)) as Hr.
  set (m1 := rne4 (scode x e)) in *.
  destruct (Z_le_gt_dec (-1021) k) as [Hn|Hs].
  - (* normal range *)
    assert (Ee : e = k - 53) by (unfold e; lia).
    destruct (mantissa_of_bracket x k e Hb ltac:(lia)) as [H1 H2].
    specialize (H2 ltac:(lia)).
    replace (k - e) with 53 in H1 by lia. replace (k - 1 - e) with 52 in H2 by lia.
    assert (Hm1 : 2 ^ 52 <= m1 <= 2 ^ 53) by lia.
    split; [|split; [unfold packable; lia | intros _; lia]].
    unfold pack.
    destruct (Z.eqb_spec m1 0) as [E0|E0]; [lia|].
    destruct (Z.eqb_spec m1 (2 ^ 53)) as [E1|E1].
    + rewrite E1. apply finish_carry. lia.
    + destruct m1 as [|q|q] eqn:Eq; try lia. simpl Z.to_pos.
      apply finish_canonical.
      assert (Ed : Zdigits2 (Z.pos q) = 53) by (apply Zdigits2_unique; lia).
      simpl in Ed. rewrite Ed, fexp_eq. lia.
  - (* subnormal range *)
    assert (Ee : e = -1074) by (unfold e; lia).
    assert (Hm : 0 <= scode x e / 4 < 2 ^ 52).
    { destruct (Z_le_gt_dec k e) as [Hle|Hgt].
      - rewrite (mantissa_small x k e Hb Hle). lia.
      - destruct (mantissa_of_bracket x k e Hb ltac:(lia)) as [H1 H2].
        specialize (H2 ltac:(lia)).
        assert (2 ^ (k - e) <= 2 ^ 52) by (apply Z.pow_le_mono_r; lia).
        assert (0 < 2 ^ (k - 1 - e)) by (apply pow2_pos; lia). lia. }
    assert (Hm1 : 0 <= m1 <= 2 ^ 52) by lia.
    split; [|split; [unfold packable; lia | intros; lia]].
    unfold pack.
    destruct (Z.eqb_spec m1 0) as [E0|E0]; [rewrite E0; apply finish_zero|].
    destruct (Z.eqb_spec m1 (2 ^ 53)) as [E1|E1]; [lia|].
    destruct m1 as [|q|q] eqn:Eq; try lia. simpl Z.to_pos.
    rewrite finish_canonical.
    + rewrite Ee. reflexivity.
    + destruct (Zdigits2_bounds (Z.pos q) ltac:(lia)) as [[H3 H4] H5].
      cbn [Zdigits2] in H3, H4, H5.
      assert (Z.pos (digits2_pos q) - 1 <= 52)
        by (apply pow2_le_inv_Z; lia).
      rewrite fexp_eq. lia.
Qed.

(** ** Rounding is monotone *)

Lemma fexp_mono (k k' : Z) : k <= k' -> fexp prec emax k <= fexp prec emax k'.
Proof. rewrite !fexp_eq. lia. Qed.

(** The key of the rounding of [x] grows with [x]. *)
Lemma okey_mono (x y : Q) (kx ky : Z) :
  bracket x kx -> bracket y ky -> (x <= y)%Q ->
  okey (rne4 (scode x (fexp prec emax kx))) (fexp prec emax kx)
  <= okey (rne4 (scode y (fexp prec emax ky))) (fexp prec emax ky).
Proof.
  intros Hx Hy Hle.
  pose proof (bracket_le x y kx ky Hx Hy Hle) as Hk.
  pose proof (fexp_mono kx ky Hk) as He.
  destruct (RND_pack false x kx Hx) as (_ & (Px1 & Px2 & Px3) & _).
  destruct (RND_pack false y ky Hy) as (_ & (Py1 & Py2 & Py3) & _).
  unfold okey.
  destruct (Z.eq_dec (fexp prec emax kx) (fexp prec emax ky)) as [E|E].
  - rewrite E in *.
    pose proof (rne4_mono _ _ (scode_mono x y (fexp prec emax ky) Hle)). lia.
  - specialize (Py3 ltac:(lia)). nia.
Qed.

Lemma leb_finite (m m' : positive) (e e' : Z) :
  e < e' \/ (e = e' /\ Z.pos m <= Z.pos m') ->
  leb (S754_finite false m e) (S754_finite false m' e') = true.
Proof.
  intros H. unfold leb, SFleb, SFcompare.
  destruct (Z.compare_spec e e') as [E|E|E]; try reflexivity; try lia.
  destruct H as [H|[_ H]]; [lia|].
  rewrite Pos.compare_cont_spec. simpl.
  destruct (Pos.compare_spec m m') as [E'|E'|E']; try reflexivity. lia.
Qed.

(** [pack] respects the order of the keys. *)
Lemma leb_pack (m1 e m1' e' : Z) :
  packable m1 e -> packable m1' e' ->
  okey m1 e <= okey m1' e' ->
  leb (pack false m1 e) (pack false m1' e') = true.
Proof.
  unfold packable, okey, pack. intros (P1 & P2 & P3) (P1' & P2' & P3') H.
  destruct (Z.eqb_spec m1 0), (Z.eqb_spec m1' 0),
           (Z.eqb_spec m1 (2 ^ 53)), (Z.eqb_spec m1' (2 ^ 53)),
           (Z.leb_spec (e + 1) 971), (Z.leb_spec (e' + 1) 971),
           (Z.leb_spec e 971), (Z.leb_spec e' 971);
    try reflexivity; try lia;
    try (apply leb_finite; rewrite ?Z2Pos.id by lia; lia).
Qed.

(** [pack] depends on the key only. *)
Lemma pack_okey_inj (sx : bool) (m1 e m1' e' : Z) :
  packable m1 e -> packable m1' e' ->
  okey m1 e = okey m1' e' ->
  pack sx m1 e = pack sx m1' e'.
Proof.
  unfold packable, okey. intros (P1 & P2 & P3) (P1' & P2' & P3') H.
  destruct (Z.eq_dec e e') as [E|E].
  - subst e'. replace m1' with m1 by lia. reflexivity.
  - destruct (Z_lt_le_dec e e') as [Hlt|Hge].
    + assert (e' = e + 1 /\ m1 = 2 ^ 53 /\ m1' = 2 ^ 52) as (-> & -> & ->) by lia.
      unfold pack. simpl Z.eqb. cbv iota.
      destruct (Z.leb_spec (e + 1) 971); reflexivity.
    + assert (e = e' + 1 /\ m1' = 2 ^ 53 /\ m1 = 2 ^ 52) as (-> & -> & ->) by lia.
      unfold pack. simpl Z.eqb. cbv iota.
      destruct (Z.leb_spec (e' + 1) 971); reflexivity.
Qed.

(** ** Values *)

Lemma to_Q_finite (sx : bool) (m : positive) (e : Z) :
  (to_Q (S754_finite sx m e) == inject_Z (cond_Zopp sx (Z.pos m)) * pow2 e)%Q.
Proof.
  unfold to_Q. destruct e as [|q|q].
  - change (pow2 0) with 1%Q. rewrite Z.pow_0_r, Z.mul_1_r. ring.
  - rewrite inject_Z_mult, <- pow2_Z by lia. reflexivity.
  - rewrite Qmake_Qdiv. unfold Qdiv. apply Qmult_comp; [reflexivity|].
    change (Z.neg q) with (- Z.pos q). unfold pow2. rewrite Qpower_opp.
    apply Qinv_comp. rewrite Pos2Z.inj_pow. symmetry. apply (pow2_Z (Z.pos q)). lia.
Qed.

Lemma pack_finite (sx : bool) (m1 e : Z) :
  packable m1 e -> 0 < m1 -> okey m1 e < OKEY_INF ->
  exists m e', pack sx m1 e = S754_finite sx m e' /\
               (inject_Z (Z.pos m) * pow2 e' == inject_Z m1 * pow2 e)%Q /\
               okey (Z.pos m) e' = okey m1 e /\
               bounded prec emax m e' = true.
Proof.
  unfold packable, okey, OKEY_INF, pack. intros (P1 & P2 & P3) Hpos H.
  destruct (Z.eqb_spec m1 0) as [E0|E0]; [lia|].
  destruct (Z.eqb_spec m1 (2 ^ 53)) as [E1|E1].
  - destruct (Z.leb_spec (e + 1) 971); [|lia].
    eexists. eexists. split; [reflexivity|]. split; [|split].
    + rewrite E1, pow2_add. change (pow2 1) with (inject_Z 2).
      change (inject_Z (2 ^ 53)) with (inject_Z 4503599627370496 * inject_Z 2)%Q.
      ring.
    + lia.
    + unfold bounded, canonical_mantissa. apply andb_true_iff. split.
      * apply Z.eqb_eq. change (Z.pos (digits2_pos 4503599627370496)) with 53.
        rewrite fexp_eq. lia.
      * apply Z.leb_le. unfold emax, prec. lia.
  - destruct (Z.leb_spec e 971); [|lia].
    exists (Z.to_pos m1), e. split; [reflexivity|].
    rewrite Z2Pos.id by lia. split; [reflexivity|]. split; [reflexivity|].
    unfold bounded, canonical_mantissa. apply andb_true_iff. split.
    + apply Z.eqb_eq. rewrite fexp_eq.
      destruct (Zdigits2_bounds m1 Hpos) as [[H3 H4] H5].
      replace (Z.pos (digits2_pos (Z.to_pos m1))) with (Zdigits2 m1)
        by (destruct m1; try lia; reflexivity).
      assert (Zdigits2 m1 - 1 < 53) by (apply (Z.pow_lt_mono_r_iff 2); lia).
      destruct (Z.eq_dec e (-1074)) as [->|Hne]; [lia|].
      specialize (P3 ltac:(lia)).
      assert (52 < Zdigits2 m1) by (apply (Z.pow_lt_mono_r_iff 2); lia).
      lia.
    + apply Z.leb_le. unfold emax, prec. lia.
Qed.

(** Values follow keys. *)
Lemma value_mono (m1 e m1' e' : Z) :
  packable m1 e -> packable m1' e' ->
  okey m1 e <= okey m1' e' ->
  (inject_Z m1 * pow2 e <= inject_Z m1' * pow2 e')%Q.
Proof.
  unfold packable, okey. intros (P1 & P2 & P3) (P1' & P2' & P3') H.
  pose proof (pow2_gt0 e) as Hp. pose proof (pow2_gt0 e') as Hp'.
  destruct (Z.eq_dec e e') as [E|E].
  - subst e'. apply Qmult_le_compat_r; [|now apply Qlt_le_weak].
    rewrite <- Zle_Qle. lia.
  - destruct (Z_lt_le_dec e e') as [Hlt|Hge].
    + specialize (P3' ltac:(lia)).
      apply Qle_trans with (inject_Z (2 ^ 52) * pow2 (e + 1))%Q.
      * rewrite pow2_add. change (pow2 1) with (inject_Z 2).
        rewrite (Qmult_comm (pow2 e)), Qmult_assoc, <- inject_Z_mult.
        apply Qmult_le_compat_r; [|now apply Qlt_le_weak].
        rewrite <- Zle_Qle. lia.
      * apply Qle_trans with (inject_Z (2 ^ 52) * pow2 e')%Q.
        -- rewrite !(Qmult_comm (inject_Z (2 ^ 52))).
           apply Qmult_le_compat_r; [apply pow2_le; lia | discriminate].
        -- apply Qmult_le_compat_r; [|now apply Qlt_le_weak].
           rewrite <- Zle_Qle. lia.
    + assert (e = e' + 1 /\ m1' = 2 ^ 53 /\ m1 = 2 ^ 52) as (-> & -> & ->) by lia.
      rewrite pow2_add. change (pow2 1) with (inject_Z 2).
      change (inject_Z (2 ^ 53)) with (inject_Z (2 ^ 52) * inject_Z 2)%Q.
      apply Qle_lteq. right. ring.
Qed.

Lemma pack_value (m1 e : Z) :
  packable m1 e -> okey m1 e < OKEY_INF ->
  (to_Q (pack false m1 e) == inject_Z m1 * pow2 e)%Q.
Proof.
  intros P H. destruct (Z.eq_dec m1 0) as [->|Hne].
  - unfold pack. simpl. ring.
  - assert (Hpos : 0 < m1) by (unfold packable in P; lia).
    destruct (pack_finite false m1 e P Hpos H) as (m & e' & E & Ev & _).
    rewrite E, to_Q_finite. exact Ev.
Qed.

Lemma bounded_canonical (m : positive) (e : Z) :
  bounded prec emax m e = true ->
  fexp prec emax (Z.pos (digits2_pos m) + e) = e /\ e <= 971.
Proof.
  unfold bounded, canonical_mantissa. intros H.
  apply andb_true_iff in H. destruct H as [H1 H2].
  apply Z.eqb_eq in H1. apply Z.leb_le in H2. split; [exact H1|].
  unfold emax, prec in H2. lia.
Qed.

Lemma bracket_finite (m : positive) (e : Z) :
  bracket (inject_Z (Z.pos m) * pow2 e) (Z.pos (digits2_pos m) + e).
Proof.
  pose proof (digits2_pos_bounds m) as [H1 H2].
  pose proof (pow2_gt0 e) as Hp.
  split.
  - replace (Z.pos (digits2_pos m) + e - 1) with (Z.pos (digits2_pos m) - 1 + e) by ring.
    rewrite pow2_add, (pow2_Z (Z.pos (digits2_pos m) - 1)) by lia.
    apply Qmult_le_compat_r; [|now apply Qlt_le_weak]. now rewrite <- Zle_Qle.
  - rewrite pow2_add, (pow2_Z (Z.pos (digits2_pos m))) by lia.
    apply Qmult_lt_compat_r; [exact Hp|]. now rewrite <- Zlt_Qlt.
Qed.

(** A [double] is the rounding of its own value. *)
Lemma RND_exact (sx : bool) (m : positive) (e : Z) :
  bounded prec emax m e = true ->
  RND sx (inject_Z (Z.pos m) * pow2 e) (Z.pos (digits2_pos m) + e)
  = S754_finite sx m e.
Proof.
  intros Hb. destruct (bounded_canonical m e Hb) as [Hc He].
  unfold RND, round_code. rewrite Hc.
  rewrite (scode_exact _ (Z.pos m) e) by reflexivity.
  replace (4 * Z.pos m) with (4 * Z.pos m + 0) by ring.
  rewrite rne4_spec by lia. rewrite finish_canonical by exact Hc.
  assert (E : (e <=? emax - prec) = true) by (apply Z.leb_le; unfold emax, prec; lia).
  now rewrite E.
Qed.

Lemma posfin_rounds_self (X : double) : posfin X -> rounds_to (to_Q X) X.
Proof.
  intros (m & e & -> & Hb).
  exists (Z.pos (digits2_pos m) + e). split.
  - destruct (bracket_finite m e) as [H1 H2]. split.
    + now rewrite to_Q_finite.
    + now rewrite to_Q_finite.
  - symmetry. unfold RND. rewrite to_Q_finite. apply (RND_exact false m e Hb).
Qed.

Lemma posfin_pos (X : double) : posfin X -> (0 < to_Q X)%Q.
Proof.
  intros H. destruct (posfin_rounds_self X H) as (k & Hb & _).
  exact (bracket_pos _ _ Hb).
Qed.

(** ** Consequences for the results of rounding *)

Lemma rounds_to_leb (x y : Q) (X Y : double) :
  rounds_to x X -> rounds_to y Y -> (x <= y)%Q -> leb X Y = true.
Proof.
  intros (kx & Hx & ->) (ky & Hy & ->) Hle.
  destruct (RND_pack false x kx Hx) as (Ex & Px & _).
  destruct (RND_pack false y ky Hy) as (Ey & Py & _).
  rewrite Ex, Ey. apply leb_pack; try assumption.
  now apply okey_mono.
Qed.

Lemma no_overflow (x : Q) (k : Z) :
  bracket x k -> k <= 1023 ->
  okey (rne4 (scode x (fexp prec emax k))) (fexp prec emax k) < OKEY_INF.
Proof.
  intros Hb Hk. destruct (RND_pack false x k Hb) as (_ & (P1 & P2 & P3) & _).
  unfold okey, OKEY_INF. rewrite fexp_eq in *. lia.
Qed.

Lemma rounds_to_value_le (x y : Q) (X Y : double) :
  rounds_to x X -> rounds_to y Y -> (x <= y)%Q -> (y < pow2 1023)%Q ->
  (to_Q X <= to_Q Y)%Q.
Proof.
  intros (kx & Hx & ->) (ky & Hy & ->) Hle Hy1.
  assert (Hky : ky <= 1023).
  { destruct Hy as [Hy0 _].
    assert (Hlt : (pow2 (ky - 1) < pow2 1023)%Q) by (eapply Qle_lt_trans; eassumption).
    apply pow2_lt_inv in Hlt. lia. }
  pose proof (bracket_le x y kx ky Hx Hy Hle) as Hk.
  destruct (RND_pack false x kx Hx) as (Ex & Px & _).
  destruct (RND_pack false y ky Hy) as (Ey & Py & _).
  pose proof (okey_mono x y kx ky Hx Hy Hle) as Ho.
  rewrite Ex, Ey, !pack_value; try assumption.
  - now apply value_mono.
  - apply no_overflow; assumption.
  - apply no_overflow; [assumption | lia].
Qed.

(** In the normal range, rounding gives a positive finite [double] of the
    same order of magnitude. *)
Lemma rounds_to_posfin (x : Q) (X : double) (a b : Z) :
  rounds_to x X ->
  (pow2 a <= x)%Q -> (x < pow2 b)%Q -> -1022 <= a -> b <= 1023 ->
  posfin X /\ (pow2 a <= to_Q X)%Q /\ (to_Q X <= pow2 b)%Q.
Proof.
  intros (k & Hb & ->) Ha Hxb Ha' Hb'.
  assert (Hk : a < k <= b).
  { destruct Hb as [H1 H2]. split.
    - apply pow2_lt_inv. eapply Qle_lt_trans; eassumption.
    - assert (Hlt : (pow2 (k - 1) < pow2 b)%Q) by (eapply Qle_lt_trans; eassumption).
      apply pow2_lt_inv in Hlt. lia. }
  destruct (RND_pack false x k Hb) as (E & P & Hn).
  specialize (Hn ltac:(lia)).
  pose proof (no_overflow x k Hb ltac:(lia)) as Hov.
  set (m1 := rne4 (scode x (fexp prec emax k))) in *.
  assert (Ee : fexp prec emax k = k - 53) by (rewrite fexp_eq; lia).
  rewrite Ee in *.
  destruct (pack_finite false m1 (k - 53) P ltac:(lia) Hov) as (m & e' & E' & Ev & _ & Hbd).
  split; [exists m, e'; split; [congruence | exact Hbd]|].
  rewrite E, E', to_Q_finite. simpl cond_Zopp. rewrite Ev.
  destruct P as (_ & P2 & _).
  pose proof (pow2_gt0 (k - 53)) as Hp.
  split.
  - apply Qle_trans with (pow2 (k - 1)); [apply pow2_le; lia|].
    replace (k - 1) with (52 + (k - 53)) by ring. rewrite pow2_add, (pow2_Z 52) by lia.
    apply Qmult_le_compat_r; [|now apply Qlt_le_weak]. now rewrite <- Zle_Qle.
  - apply Qle_trans with (pow2 k); [|apply pow2_le; lia].
    replace k with (53 + (k - 53)) at 2 by ring. rewrite pow2_add, (pow2_Z 53) by lia.
    apply Qmult_le_compat_r; [|now apply Qlt_le_weak]. rewrite <- Zle_Qle. lia.
Qed.

(** ** The arithmetic operations round *)

Lemma posfin_value (m : positive) (e : Z) :
  (to_Q (S754_finite false m e) == inject_Z (Z.pos m) * pow2 e)%Q.
Proof. apply (to_Q_finite false). Qed.

(** Conversion of a positive integer. *)
Lemma of_Z_rounds (N : Z) : 0 < N -> rounds_to (inject_Z N) (of_Z N).
Proof.
  intros HN. destruct N as [|q|q]; try lia.
  unfold of_Z, binary_normalize.
  destruct (binary_round_RND false q 0 (inject_Z (Z.pos q))) as [E Hb].
  { change (pow2 0) with 1%Q. ring. }
  eexists. split; [exact Hb | exact E].
Qed.

Lemma aligned_value (m : positive) (e e' : Z) :
  e' <= e ->
  (inject_Z (Z.pos (fst (shl_align m e e'))) * pow2 e' == inject_Z (Z.pos m) * pow2 e)%Q.
Proof.
  intros H. destruct (shl_align_spec m e e') as [_ E]. rewrite E.
  replace (Z.min e e') with e' by lia.
  rewrite inject_Z_mult, <- (pow2_Z (e - e')), <- Qmult_assoc, <- pow2_add by lia.
  replace (e - e' + e') with e by ring. reflexivity.
Qed.

(** Addition of positive numbers. *)
Lemma add_rounds (X Y : double) :
  posfin X -> posfin Y -> rounds_to (to_Q X + to_Q Y) (add X Y).
Proof.
  intros (mx & ex & -> & _) (my & ey & -> & _).
  unfold add, SFadd, cond_Zopp.
  set (ez := Z.min ex ey).
  set (ma := fst (shl_align mx ex ez)). set (mb := fst (shl_align my ey ez)).
  change (Z.pos ma + Z.pos mb) with (Z.pos (ma + mb)). unfold binary_normalize.
  destruct (binary_round_RND false (ma + mb) ez
              (to_Q (S754_finite false mx ex) + to_Q (S754_finite false my ey)))
    as [E Hb].
  { rewrite !posfin_value, Pos2Z.inj_add, inject_Z_plus, Qmult_plus_distr_l.
    unfold ma, mb. rewrite !aligned_value by (unfold ez; lia). reflexivity. }
  eexists. split; [exact Hb | exact E].
Qed.

(** Subtraction of a smaller positive number. *)
Lemma sub_rounds (X Y : double) :
  posfin X -> posfin Y -> (to_Q Y < to_Q X)%Q ->
  rounds_to (to_Q X - to_Q Y) (sub X Y).
Proof.
  intros (mx & ex & -> & _) (my & ey & -> & _) Hlt.
  unfold sub, SFsub, cond_Zopp.
  set (ez := Z.min ex ey).
  set (ma := fst (shl_align mx ex ez)). set (mb := fst (shl_align my ey ez)).
  assert (Ea : (inject_Z (Z.pos ma) * pow2 ez == to_Q (S754_finite false mx ex))%Q)
    by (rewrite posfin_value; apply aligned_value; unfold ez; lia).
  assert (Eb : (inject_Z (Z.pos mb) * pow2 ez == to_Q (S754_finite false my ey))%Q)
    by (rewrite posfin_value; apply aligned_value; unfold ez; lia).
  assert (Hm : 0 < Z.pos ma - Z.pos mb).
  { rewrite <- Ea, <- Eb in Hlt.
    apply Qmult_lt_r in Hlt; [|apply pow2_gt0].
    rewrite <- Zlt_Qlt in Hlt. lia. }
  destruct (Z.pos ma - Z.pos mb) as [|q|q] eqn:Eq; try lia.
  unfold binary_normalize.
  destruct (binary_round_RND false q ez
              (to_Q (S754_finite false mx ex) - to_Q (S754_finite false my ey)))
    as [E Hb].
  { rewrite <- Ea, <- Eb, <- Eq. unfold Z.sub.
    rewrite inject_Z_plus, inject_Z_opp. ring. }
  eexists. split; [exact Hb | exact E].
Qed.

(** ** Division *)

Lemma div_mod_2r (b r : Z) :
  0 < b -> 0 <= r < b ->
  (2 * r < b -> (2 * r) / b = 0 /\ (2 * r) mod b = 2 * r) /\
  (b <= 2 * r -> (2 * r) / b = 1 /\ (2 * r) mod b = 2 * r - b).
Proof.
  intros Hb Hr. split; intros H.
  - split; [apply Z.div_small | apply Z.mod_small]; lia.
  - replace (2 * r) with ((2 * r - b) + 1 * b) at 1 2 by ring.
    rewrite Z.div_add, Z.mod_add, Z.div_small, Z.mod_small by lia. split; reflexivity.
Qed.

(** The location of a remainder is the code of the quotient's tail. *)
Lemma new_location_code (b q r : Z) :
  0 < b -> 0 <= r < b ->
  4 * q + loc_code (new_location b r)
  = 2 * ((2 * (b * q + r)) / b)
    + (if (2 * (b * q + r)) mod b =? 0 then 0 else 1).
Proof.
  intros Hb Hr.
  replace (2 * (b * q + r)) with (2 * r + (2 * q) * b) by ring.
  rewrite Z.div_add, Z.mod_add by lia.
  destruct (div_mod_2r b r Hb Hr) as [Hs Hl].
  unfold new_location.
  destruct (Z.even b) eqn:Ev;
    [unfold new_location_even | unfold new_location_odd];
    destruct (Z.eqb_spec r 0) as [E0|E0].
  - subst r. destruct (Hs ltac:(lia)) as [E1 E2]. rewrite E1, E2.
    change (2 * 0 =? 0) with true. cbn [loc_code]. lia.
  - apply Z.even_spec in Ev. destruct Ev as [h Eh].
    destruct (Z.compare_spec (2 * r) b) as [E|E|E]; simpl loc_code.
    + destruct (Hl ltac:(lia)) as [E1 E2]. rewrite E1, E2.
      destruct (Z.eqb_spec (2 * r - b) 0); lia.
    + destruct (Hs ltac:(lia)) as [E1 E2]. rewrite E1, E2.
      destruct (Z.eqb_spec (2 * r) 0); lia.
    + destruct (Hl ltac:(lia)) as [E1 E2]. rewrite E1, E2.
      destruct (Z.eqb_spec (2 * r - b) 0); lia.
  - subst r. destruct (Hs ltac:(lia)) as [E1 E2]. rewrite E1, E2.
    change (2 * 0 =? 0) with true. cbn [loc_code]. lia.
  - assert (Ho : Z.odd b = true) by (rewrite <- Z.negb_even, Ev; reflexivity).
    apply Z.odd_spec in Ho. destruct Ho as [h Eh].
    destruct (Z.compare_spec (2 * r + 1) b) as [E|E|E]; simpl loc_code.
    + destruct (Hs ltac:(lia)) as [E1 E2]. rewrite E1, E2.
      destruct (Z.eqb_spec (2 * r) 0); lia.
    + destruct (Hs ltac:(lia)) as [E1 E2]. rewrite E1, E2.
      destruct (Z.eqb_spec (2 * r) 0); lia.
    + destruct (Hl ltac:(lia)) as [E1 E2]. rewrite E1, E2.
      destruct (Z.eqb_spec (2 * r - b) 0); lia.
Qed.

(** The code of a quotient of integers. *)
Lemma scode_quotient (z : Q) (a b e : Z) :
  0 < b ->
  (z * pow2 (1 - e) == inject_Z a / inject_Z b)%Q ->
  scode z e = 2 * (a / b) + (if a mod b =? 0 then 0 else 1).
Proof.
  intros Hb Hz. unfold scode. rewrite Hz, <- Zdiv_Qdiv. f_equal.
  assert (Hbq : ~ (inject_Z b == 0)%Q).
  { intros H. apply (proj1 (inject_Z_injective b 0)) in H. lia. }
  destruct (Z.eqb_spec (a mod b) 0) as [E|E].
  - apply sticky_0. rewrite <- Zdiv_Qdiv.
    rewrite (Z.div_mod a b) at 1 by lia. rewrite E, Z.add_0_r, inject_Z_mult.
    field. exact Hbq.
  - destruct (Z.eq_dec (sticky (inject_Z a / inject_Z b)) 0) as [E0|E0].
    + exfalso. apply E. apply sticky_0 in E0. rewrite <- Zdiv_Qdiv in E0.
      assert (Ea : (inject_Z a == inject_Z (b * (a / b)))%Q).
      { rewrite inject_Z_mult, <- E0. field. exact Hbq. }
      apply (proj1 (inject_Z_injective _ _)) in Ea.
      pose proof (Z.div_mod a b ltac:(lia)). lia.
    + pose proof (sticky_range (inject_Z a / inject_Z b)). lia.
Qed.

Lemma mantissa_lower (z : Q) (a e : Z) :
  (pow2 a <= z)%Q -> e <= a -> 2 ^ (a - e) <= scode z e / 4.
Proof.
  intros H He. rewrite scode_div4.
  rewrite <- (Qfloor_Z (2 ^ (a - e))). apply Qfloor_resp_le.
  rewrite <- pow2_Z by lia. replace (a - e) with (a + - e) by ring.
  rewrite pow2_add. apply Qmult_le_compat_r; [exact H | apply Qlt_le_weak, pow2_gt0].
Qed.

Lemma pow2_neq0 (e : Z) : ~ (pow2 e == 0)%Q.
Proof. intros H. pose proof (pow2_gt0 e) as Hp. rewrite H in Hp. discriminate. Qed.

Lemma inject_pos_neq0 (m : positive) : ~ (inject_Z (Z.pos m) == 0)%Q.
Proof. intros H. apply (proj1 (inject_Z_injective _ 0)) in H. discriminate. Qed.

(** The order of magnitude of a quotient. *)
Lemma quotient_bounds (x y : Q) (kx ky : Z) :
  bracket x kx -> bracket y ky ->
  (pow2 (kx - ky - 1) <= x / y)%Q /\ (x / y < pow2 (kx - ky + 1))%Q.
Proof.
  intros [Hx1 Hx2] [Hy1 Hy2].
  assert (Hy : (0 < y)%Q) by (eapply Qlt_le_trans; [apply pow2_gt0 | exact Hy1]).
  split.
  - apply Qle_shift_div_l; [exact Hy|].
    apply Qle_trans with (pow2 (kx - ky - 1) * pow2 ky)%Q.
    + rewrite !(Qmult_comm (pow2 (kx - ky - 1))).
      apply Qmult_le_compat_r; [now apply Qlt_le_weak | apply Qlt_le_weak, pow2_gt0].
    + rewrite <- pow2_add. replace (kx - ky - 1 + ky) with (kx - 1) by ring. exact Hx1.
  - apply Qlt_shift_div_r; [exact Hy|].
    apply Qlt_le_trans with (pow2 (kx - ky + 1) * pow2 (ky - 1))%Q.
    + rewrite <- pow2_add. replace (kx - ky + 1 + (ky - 1)) with kx by ring. exact Hx2.
    + rewrite !(Qmult_comm (pow2 (kx - ky + 1))).
      apply Qmult_le_compat_r; [exact Hy1 | apply Qlt_le_weak, pow2_gt0].
Qed.

Lemma shifted_mantissa (m s : Z) :
  0 <= s ->
  match s with
  | 0 => m
  | Z.pos _ => Z.shiftl m s
  | Z.neg _ => 0
  end = m * 2 ^ s.
Proof.
  intros Hs. destruct s as [|p|p]; try lia.
  apply Z.shiftl_mul_pow2. lia.
Qed.

(** Division of positive numbers whose quotient is in the normal range. *)
Lemma div_rounds (X Y : double) :
  posfin X -> posfin Y ->
  (pow2 (-1021) <= to_Q X / to_Q Y)%Q ->
  rounds_to (to_Q X / to_Q Y) (div X Y).
Proof.
  intros (mx & ex & -> & _) (my & ey & -> & _) Hlow.
  set (z := (to_Q (S754_finite false mx ex) / to_Q (S754_finite false my ey))%Q) in *.
  assert (Ez : (z == (inject_Z (Z.pos mx) * pow2 ex) / (inject_Z (Z.pos my) * pow2 ey))%Q)
    by (unfold z; now rewrite !posfin_value).
  set (d1 := Zdigits2 (Z.pos mx)). set (d2 := Zdigits2 (Z.pos my)).
  set (D := d1 + ex - (d2 + ey)).
  destruct (quotient_bounds _ _ _ _ (bracket_finite mx ex) (bracket_finite my ey))
    as [Hq1 Hq2].
  fold (Zdigits2 (Z.pos mx)) in Hq1, Hq2. fold (Zdigits2 (Z.pos my)) in Hq1, Hq2.
  fold d1 d2 in Hq1, Hq2. rewrite <- Ez in Hq1, Hq2.
  replace (d1 + ex - (d2 + ey) - 1) with (D - 1) in Hq1 by (unfold D; ring).
  replace (d1 + ex - (d2 + ey) + 1) with (D + 1) in Hq2 by (unfold D; ring).
  assert (HD : -1021 <= D).
  { assert (Hlt : (pow2 (-1021) < pow2 (D + 1))%Q) by (eapply Qle_lt_trans; eassumption).
    apply pow2_lt_inv in Hlt. lia. }
  unfold div, SFdiv, SFdiv_core_binary. fold d1 d2 D.
  rewrite fexp_eq.
  set (e' := Z.min (Z.max (D - 53) (-1074)) (ex - ey)).
  assert (He' : e' <= D - 53 /\ e' <= ex - ey) by (unfold e'; lia).
  set (s := ex - ey - e'). assert (Hs : 0 <= s) by (unfold s; lia).
  assert (Em : match s with
               | 0 => Z.pos mx
               | Z.pos _ => Z.shiftl (Z.pos mx) s
               | Z.neg _ => 0
               end = Z.pos mx * 2 ^ s).
  { apply shifted_mantissa, Hs. }
  rewrite Em. set (m' := Z.pos mx * 2 ^ s).
  assert (Hm' : 0 < m') by (unfold m'; pose proof (pow2_pos s Hs); nia).
  rewrite (div_eucl_div_mod m' (Z.pos my)).
  set (q := m' / Z.pos my). set (r := m' mod Z.pos my).
  assert (Hr : 0 <= r < Z.pos my) by (apply Z.mod_pos_bound; lia).
  assert (Hdm : m' = Z.pos my * q + r) by (apply Z.div_mod; lia).
  assert (EA : (z * pow2 (1 - e') == inject_Z (2 * m') / inject_Z (Z.pos my))%Q).
  { rewrite Ez. unfold m'. rewrite !inject_Z_mult, <- (pow2_Z s) by exact Hs.
    replace ex with (s + ey + e') by (unfold s; ring).
    replace (1 - e') with (1 + - e') by ring.
    rewrite !pow2_add. change (pow2 1) with (inject_Z 2).
    unfold pow2 at 5. rewrite Qpower_opp. fold (pow2 e').
    field. repeat split; try apply pow2_neq0; apply inject_pos_neq0. }
  assert (Ec : 4 * q + loc_code (new_location (Z.pos my) r) = scode z e').
  { rewrite (scode_quotient z (2 * m') (Z.pos my) e' ltac:(lia) EA).
    rewrite Hdm. apply new_location_code; lia. }
  assert (Hq : 2 ^ 52 <= q).
  { assert (Eq4 : scode z e' / 4 = q).
    { rewrite <- Ec. destruct (new_location (Z.pos my) r) as [|[| |]]; simpl loc_code;
        Z.div_mod_to_equations; lia. }
    rewrite <- Eq4.
    apply Z.le_trans with (2 ^ (D - 1 - e')); [apply Z.pow_le_mono_r; lia|].
    apply mantissa_lower; [exact Hq1 | lia]. }
  destruct (binary_round_aux_RND false q e' (new_location (Z.pos my) r) z)
    as [E Hb]; try assumption; try lia.
  - destruct (Zdigits2_bounds q ltac:(lia)) as [[H3 H4] H5].
    assert (Hlt : 2 ^ 52 < 2 ^ Zdigits2 q) by lia.
    apply Z.pow_lt_mono_r_iff in Hlt; try lia.
    assert (Hle : 2 ^ (D - 1 - e') <= q).
    { assert (Eq4 : scode z e' / 4 = q).
      { rewrite <- Ec. destruct (new_location (Z.pos my) r) as [|[| |]]; simpl loc_code;
          Z.div_mod_to_equations; lia. }
      rewrite <- Eq4. apply mantissa_lower; [exact Hq1 | lia]. }
    assert (Hlt2 : 2 ^ (D - 1 - e') < 2 ^ Zdigits2 q) by lia.
    apply Z.pow_lt_mono_r_iff in Hlt2; try lia.
    rewrite fexp_eq. lia.
  - eexists. split; [exact Hb | exact E].
Qed.

(** ** The error of rounding *)

Ltac qnorm :=
  change (inject_Z 0) with 0%Q in *; change (inject_Z 1) with 1%Q in *;
  change (inject_Z 2) with 2%Q in *.

Lemma rne4_error (x : Q) (e : Z) :
  (inject_Z (rne4 (scode x e)) * pow2 e - x <= pow2 (e - 1))%Q /\
  (x - inject_Z (rne4 (scode x e)) * pow2 e <= pow2 (e - 1))%Q.
Proof.
  set (y := (x * pow2 (1 - e))%Q).
  pose proof (Qfloor_le y) as H1. pose proof (Qlt_floor y) as H2.
  pose proof (sticky_range y) as Ht. pose proof (sticky_0 y) as H0.
  assert (Ec : scode x e = 2 * Qfloor y + sticky y) by reflexivity.
  set (f := Qfloor y) in *. set (t := sticky y) in *.
  pose proof (Z.div_mod f 2 ltac:(lia)) as Ef.
  pose proof (Z.mod_pos_bound f 2 ltac:(lia)) as Br.
  set (m := f / 2) in *. set (r := f mod 2) in *.
  assert (Ecode : scode x e = 4 * m + (2 * r + t)) by lia.
  assert (Ex : (x == y * pow2 (e - 1))%Q).
  { unfold y. rewrite <- Qmult_assoc, <- pow2_add.
    replace (1 - e + (e - 1)) with 0 by ring. change (pow2 0) with 1%Q. ring. }
  assert (Ep : (pow2 e == 2 * pow2 (e - 1))%Q).
  { replace e with (1 + (e - 1)) at 1 by ring. rewrite pow2_add. reflexivity. }
  pose proof (pow2_gt0 (e - 1)) as Hp.
  assert (Hy : (inject_Z (2 * m + r) <= y)%Q /\ (y < inject_Z (2 * m + r) + 1)%Q /\
               (t = 0 -> (y == inject_Z (2 * m + r))%Q)).
  { rewrite <- Ef. rewrite inject_Z_plus in H2. auto with *.
    repeat split; try assumption. intros E. now apply H0. }
  rewrite inject_Z_plus, inject_Z_mult in Hy. change (inject_Z 2) with 2%Q in Hy.
  destruct Hy as (Hy1 & Hy2 & Hy3).
  assert (Hgoal : forall m1 : Z,
            (2 * inject_Z m1 - y <= 1)%Q -> (y - 2 * inject_Z m1 <= 1)%Q ->
            (inject_Z m1 * pow2 e - x <= pow2 (e - 1))%Q /\
            (x - inject_Z m1 * pow2 e <= pow2 (e - 1))%Q).
  { intros m1 Ha Hb. rewrite Ex, Ep. split.
    - setoid_replace (inject_Z m1 * (2 * pow2 (e - 1)) - y * pow2 (e - 1))%Q
        with ((2 * inject_Z m1 - y) * pow2 (e - 1))%Q by ring.
      setoid_replace (pow2 (e - 1)) with (1 * pow2 (e - 1))%Q at 2 by ring.
      apply Qmult_le_compat_r; [exact Ha | now apply Qlt_le_weak].
    - setoid_replace (y * pow2 (e - 1) - inject_Z m1 * (2 * pow2 (e - 1)))%Q
        with ((y - 2 * inject_Z m1) * pow2 (e - 1))%Q by ring.
      setoid_replace (pow2 (e - 1)) with (1 * pow2 (e - 1))%Q at 2 by ring.
      apply Qmult_le_compat_r; [exact Hb | now apply Qlt_le_weak]. }
  rewrite Ecode, rne4_spec by lia.
  assert (Hr : r = 0 \/ r = 1) by lia. assert (Ht' : t = 0 \/ t = 1) by lia.
  destruct Hr as [Er|Er]; destruct Ht' as [Et|Et]; rewrite Er, Et in *;
    cbn [Z.mul Z.add Pos.mul Pos.add]; cbv iota.
  - specialize (Hy3 eq_refl). apply Hgoal; rewrite Hy3; qnorm; lra.
  - apply Hgoal; qnorm; lra.
  - specialize (Hy3 eq_refl).
    destruct (Z.even m); apply Hgoal; rewrite ?inject_Z_plus, Hy3; qnorm; lra.
  - apply Hgoal; rewrite ?inject_Z_plus; qnorm; lra.
Qed.

(** The error of a rounding, in terms of the order of magnitude. *)
Lemma rounding_error (x : Q) (X : double) (b : Z) :
  rounds_to x X -> (x < pow2 b)%Q -> b <= 1023 ->
  (to_Q X - x <= pow2 (fexp prec emax b - 1))%Q /\
  (x - to_Q X <= pow2 (fexp prec emax b - 1))%Q.
Proof.
  intros (k & Hb & ->) Hx Hb'.
  assert (Hk : k <= b).
  { destruct Hb as [H1 _].
    assert (Hlt : (pow2 (k - 1) < pow2 b)%Q) by (eapply Qle_lt_trans; eassumption).
    apply pow2_lt_inv in Hlt. lia. }
  destruct (RND_pack false x k Hb) as (E & P & _).
  pose proof (pack_value _ _ P (no_overflow x k Hb ltac:(lia))) as Ev.
  rewrite E, Ev.
  destruct (rne4_error x (fexp prec emax k)) as [H1 H2].
  assert (Hp : (pow2 (fexp prec emax k - 1) <= pow2 (fexp prec emax b - 1))%Q).
  { apply pow2_le. pose proof (fexp_mono k b Hk). lia. }
  split; eapply Qle_trans; eassumption.
Qed.

(** Rounding is a function, and what lies between two numbers that round
    to the same [double] rounds to it too. *)
Lemma rounds_to_squeeze (x y z : Q) (X Y : double) :
  rounds_to x X -> rounds_to z X -> rounds_to y Y ->
  (x <= y)%Q -> (y <= z)%Q -> (z < pow2 1023)%Q -> Y = X.
Proof.
  intros (kx & Hx & Ex) (kz & Hz & Ez) (ky & Hy & ->) Hxy Hyz Hz1.
  pose proof (okey_mono x y kx ky Hx Hy Hxy) as H1.
  pose proof (okey_mono y z ky kz Hy Hz Hyz) as H2.
  assert (Hov : okey (rne4 (scode z (fexp prec emax kz))) (fexp prec emax kz) < OKEY_INF).
  { apply no_overflow; [exact Hz|]. destruct Hz as [Hz0 _].
    assert (Hlt : (pow2 (kz - 1) < pow2 1023)%Q) by (eapply Qle_lt_trans; eassumption).
    apply pow2_lt_inv in Hlt. lia. }
  destruct (RND_pack false x kx Hx) as (Ex' & Px & _).
  destruct (RND_pack false y ky Hy) as (Ey' & Py & _).
  destruct (RND_pack false z kz Hz) as (Ez' & Pz & _).
  rewrite Ey'.
  destruct (Z.eq_dec (okey (rne4 (scode x (fexp prec emax kx))) (fexp prec emax kx))
                     (okey (rne4 (scode z (fexp prec emax kz))) (fexp prec emax kz)))
    as [Ek|Ek].
  - rewrite Ex, Ex'. apply pack_okey_inj; try assumption. lia.
  - exfalso. apply Ek.
    assert (Hxz : (x <= z)%Q) by (eapply Qle_trans; eassumption).
    (* both round to [X]: their keys agree *)
    rewrite Ex' in Ex. rewrite Ez' in Ez.
    assert (Hxz' : okey (rne4 (scode x (fexp prec emax kx))) (fexp prec emax kx)
                   <= okey (rne4 (scode z (fexp prec emax kz))) (fexp prec emax kz)) by lia.
    clear - Ex Ez Px Pz Hov Hxz'.
    set (mx := rne4 (scode x (fexp prec emax kx))) in *.
    set (ex := fexp prec emax kx) in *.
    set (mz := rne4 (scode z (fexp prec emax kz))) in *.
    set (ez := fexp prec emax kz) in *.
    clearbody mx ex mz ez. subst X.
    unfold packable in *. unfold pack, okey, OKEY_INF in *.
    destruct Px as (P1 & P2 & P3). destruct Pz as (P1' & P2' & P3').
    destruct (Z.eqb_spec mx 0), (Z.eqb_spec mz 0),
             (Z.eqb_spec mx (2 ^ 53)), (Z.eqb_spec mz (2 ^ 53)),
             (Z.leb_spec (ex + 1) 971), (Z.leb_spec (ez + 1) 971),
             (Z.leb_spec ex 971), (Z.leb_spec ez 971);
      try discriminate; try lia;
      try (inversion Ez; rewrite ?Z2Pos.id in *; try lia;
           match goal with
           | H : Z.to_pos _ = _ |- _ => apply (f_equal Z.pos) in H;
                                         rewrite ?Z2Pos.id in H by lia; lia
           | H : _ = Z.to_pos _ |- _ => apply (f_equal Z.pos) in H;
                                         rewrite ?Z2Pos.id in H by lia; lia
           end).
Qed.

(** ** Exact operations *)

#[local] Instance bracket_proper : Proper (Qeq ==> eq ==> iff) bracket.
Proof. intros x y H k k' <-. unfold bracket. now rewrite H. Qed.

Lemma rounds_to_fun (x y : Q) (X Y : double) :
  rounds_to x X -> rounds_to y Y -> (x == y)%Q -> X = Y.
Proof.
  intros (kx & Hx & ->) (ky & Hy & ->) E.
  rewrite E in Hx. rewrite (bracket_unique y kx ky Hx Hy).
  unfold RND. now rewrite E.
Qed.

#[local] Instance rounds_to_proper : Proper (Qeq ==> eq ==> iff) rounds_to.
Proof.
  intros x y H X X' <-. unfold rounds_to, RND.
  split; intros (k & Hb & E); exists k.
  - rewrite <- H. now split.
  - rewrite H. now split.
Qed.

Lemma to_Q_one : (to_Q one == 1)%Q.
Proof. reflexivity. Qed.

Lemma posfin_one : posfin one.
Proof. exists 4503599627370496%positive, (-52). split; reflexivity. Qed.

(** [x / 1.0 == x] *)
Lemma div_one (X : double) :
  posfin X -> (pow2 (-1021) <= to_Q X)%Q -> div X one = X.
Proof.
  intros HX Hlow.
  assert (E : (to_Q X / to_Q one == to_Q X)%Q) by (rewrite to_Q_one; field).
  apply (rounds_to_fun (to_Q X / to_Q one) (to_Q X)).
  - apply div_rounds; [exact HX | exact posfin_one | now rewrite E].
  - now apply posfin_rounds_self.
  - exact E.
Qed.

(** [x * 1.0 == x], whatever the sign of [x] *)
Lemma mul_one (sx : bool) (m : positive) (e : Z) :
  bounded prec emax m e = true ->
  mul (S754_finite sx m e) one = S754_finite sx m e.
Proof.
  intros Hb. destruct (bounded_canonical m e Hb) as [Hc He].
  unfold mul, SFmul, one. rewrite xorb_false_r.
  change (Z.pos (m * 4503599627370496)) with (Z.pos m * 2 ^ 52).
  destruct (binary_round_aux_RND sx (Z.pos m * 2 ^ 52) (e + -52) loc_Exact
              (inject_Z (Z.pos m) * pow2 e)) as [E _].
  - lia.
  - simpl loc_code. rewrite Z.add_0_r. symmetry. apply scode_exact.
    rewrite inject_Z_mult, <- (pow2_Z 52), <- Qmult_assoc, <- pow2_add by lia.
    replace (52 + (e + -52)) with e by ring. reflexivity.
  - rewrite Zdigits2_shift by lia.
    replace (Z.pos (digits2_pos m) + 52 + (e + -52)) with (Z.pos (digits2_pos m) + e) by ring.
    rewrite Hc. lia.
  - rewrite E, Zdigits2_shift by lia.
    replace (Z.pos (digits2_pos m) + 52 + (e + -52)) with (Z.pos (digits2_pos m) + e) by ring.
    now apply RND_exact.
Qed.

(** ** The serial fraction *)

(** A [double] in [[0, 1]] is a zero, or [1.0], or a positive number not
    above [1 - 2^-53]. *)
Lemma unit_interval_cases (sf : double) :
  is_double sf -> leb zero sf = true -> leb sf one = true ->
  (exists s0, sf = S754_zero s0) \/ sf = one \/
  (posfin sf /\ (to_Q sf <= 1 - pow2 (-53))%Q).
Proof.
  intros Hd H0 H1.
  destruct sf as [s0|s0| |s0 m e]; try discriminate.
  - left. now exists s0.
  - destruct s0; discriminate.
  - destruct s0; [discriminate|]. right.
    unfold is_double, valid_binary in Hd.
    destruct (bounded_canonical m e Hd) as [Hc He].
    pose proof (digits2_pos_bounds m) as [D1 D2].
    rewrite fexp_eq in Hc.
    unfold leb, SFleb, SFcompare, one in H1.
    destruct (Z.compare_spec e (-52)) as [E|E|E]; try discriminate.
    + left. subst e. rewrite Pos.compare_cont_spec in H1. simpl in H1.
      assert (Ed : Z.pos (digits2_pos m) = 53) by lia. rewrite Ed in D1.
      destruct (Pos.compare_spec m 4503599627370496) as [Em|Em|Em]; try discriminate.
      * now subst m.
      * exfalso. unfold Pos.lt in Em.
        assert (Hz : Z.pos m < Z.pos 4503599627370496) by exact Em.
        change (2 ^ (53 - 1)) with (Z.pos 4503599627370496) in D1.
        exact (Z.lt_irrefl _ (Z.lt_le_trans _ _ _ Hz D1)).
    + right. split; [exists m, e; split; [reflexivity | exact Hd]|].
      rewrite posfin_value.
      assert (Hd53 : Z.pos (digits2_pos m) <= 53) by lia.
      assert (Hm : Z.pos m <= 2 ^ 53 - 1).
      { assert (2 ^ Z.pos (digits2_pos m) <= 2 ^ 53) by (apply Z.pow_le_mono_r; lia). lia. }
      apply Qle_trans with (inject_Z (2 ^ 53 - 1) * pow2 (-53))%Q.
      * apply Qle_trans with (inject_Z (Z.pos m) * pow2 (-53))%Q.
        -- rewrite !(Qmult_comm (inject_Z (Z.pos m))).
           apply Qmult_le_compat_r; [apply pow2_le; lia | discriminate].
        -- apply Qmult_le_compat_r; [now rewrite <- Zle_Qle | discriminate].
      * vm_compute. discriminate.
Qed.

(** ** Quotients in [Q] *)

Lemma Qdiv_le_l (c a b : Q) :
  (0 <= c)%Q -> (0 < a)%Q -> (a <= b)%Q -> (c / b <= c / a)%Q.
Proof.
  intros Hc Ha Hab.
  assert (Hb : (0 < b)%Q) by (eapply Qlt_le_trans; eassumption).
  apply Qle_shift_div_l; [exact Ha|].
  unfold Qdiv. rewrite <- Qmult_assoc, (Qmult_comm (/ b)).
  change (c * (a * / b))%Q with (c * (a / b))%Q.
  setoid_replace c with (c * 1)%Q at 2 by ring.
  rewrite !(Qmult_comm c). apply Qmult_le_compat_r; [|exact Hc].
  apply Qle_shift_div_r; [exact Hb|]. now rewrite Qmult_1_l.
Qed.

Lemma Qdiv_le_r (a b c : Q) :
  (0 < c)%Q -> (a <= b)%Q -> (a / c <= b / c)%Q.
Proof.
  intros Hc Hab. unfold Qdiv.
  apply Qmult_le_compat_r; [exact Hab | apply Qlt_le_weak, Qinv_lt_0_compat, Hc].
Qed.

Lemma pow2_div (a b : Z) : (pow2 a / pow2 b == pow2 (a - b))%Q.
Proof.
  replace a with (a - b + b) at 1 by ring. rewrite pow2_add.
  field. apply pow2_neq0.
Qed.

Lemma quotient_lower (x y : Q) (a b : Z) :
  (pow2 a <= x)%Q -> (0 < y)%Q -> (y <= pow2 b)%Q -> (pow2 (a - b) <= x / y)%Q.
Proof.
  intros Hx Hy Hyb. rewrite <- pow2_div.
  apply Qle_trans with (pow2 a / y)%Q.
  - apply Qdiv_le_l; [apply Qlt_le_weak, pow2_gt0 | exact Hy | exact Hyb].
  - apply Qdiv_le_r; assumption.
Qed.

Lemma quotient_upper (x y : Q) (a b : Z) :
  (0 <= x)%Q -> (x <= pow2 a)%Q -> (pow2 b <= y)%Q -> (x / y <= pow2 (a - b))%Q.
Proof.
  intros Hx0 Hx Hy. rewrite <- pow2_div.
  assert (Hy0 : (0 < y)%Q) by (eapply Qlt_le_trans; [apply pow2_gt0 | exact Hy]).
  apply Qle_trans with (x / pow2 b)%Q.
  - apply Qdiv_le_l; [exact Hx0 | apply pow2_gt0 | exact Hy].
  - apply Qdiv_le_r; [apply pow2_gt0 | exact Hx].
Qed.

(** ** The pieces of Amdahl's formula *)

Lemma of_Z_props (N : Z) :
  1 <= N <= INT_MAX ->
  posfin (of_Z N) /\ (pow2 0 <= to_Q (of_Z N))%Q /\ (to_Q (of_Z N) <= pow2 31)%Q.
Proof.
  intros HN.
  apply (rounds_to_posfin (inject_Z N)); try lia.
  - apply of_Z_rounds. lia.
  - change (pow2 0) with (inject_Z 1). rewrite <- Zle_Qle. lia.
  - rewrite (pow2_Z 31) by lia. rewrite <- Zlt_Qlt. unfold INT_MAX in HN. lia.
Qed.

Lemma of_Z_mono (N N' : Z) :
  1 <= N -> N <= N' -> N' <= INT_MAX -> (to_Q (of_Z N) <= to_Q (of_Z N'))%Q.
Proof.
  intros H1 H2 H3.
  apply (rounds_to_value_le (inject_Z N) (inject_Z N')).
  - apply of_Z_rounds. lia.
  - apply of_Z_rounds. lia.
  - now rewrite <- Zle_Qle.
  - rewrite (pow2_Z 1023) by lia. rewrite <- Zlt_Qlt.
    assert (INT_MAX < 2 ^ 1023) by reflexivity. lia.
Qed.

(** The parallel part [1.0 - s], for [0 < s < 1]. *)
Lemma parallel_part_props (sf : double) :
  posfin sf -> (to_Q sf <= 1 - pow2 (-53))%Q ->
  rounds_to (1 - to_Q sf) (sub one sf) /\
  posfin (sub one sf) /\
  (pow2 (-53) <= to_Q (sub one sf))%Q /\ (to_Q (sub one sf) <= pow2 0)%Q.
Proof.
  intros Hs Hle.
  pose proof (posfin_pos sf Hs) as Hpos.
  pose proof (pow2_gt0 (-53)) as Hp.
  assert (Hr : rounds_to (1 - to_Q sf) (sub one sf)).
  { rewrite <- to_Q_one at 1. apply sub_rounds; [exact posfin_one | exact Hs|].
    rewrite to_Q_one. lra. }
  split; [exact Hr|].
  apply (rounds_to_posfin (1 - to_Q sf)); try lia; try assumption.
  - lra.
  - change (pow2 0) with 1%Q. lra.
Qed.

(** The share of one worker, [a / N]. *)
Lemma share_props (A : double) (N : Z) :
  posfin A -> (pow2 (-53) <= to_Q A)%Q -> (to_Q A <= pow2 0)%Q ->
  1 <= N <= INT_MAX ->
  rounds_to (to_Q A / to_Q (of_Z N)) (div A (of_Z N)) /\
  posfin (div A (of_Z N)) /\
  (pow2 (-84) <= to_Q (div A (of_Z N)))%Q /\ (to_Q (div A (of_Z N)) <= pow2 1)%Q.
Proof.
  intros HA Ha1 Ha2 HN.
  destruct (of_Z_props N HN) as (HF & Hf1 & Hf2).
  pose proof (posfin_pos _ HF) as Hfpos. pose proof (posfin_pos _ HA) as Hapos.
  assert (Hlow : (pow2 (-84) <= to_Q A / to_Q (of_Z N))%Q)
    by (apply (quotient_lower _ _ (-53) 31); assumption).
  assert (Hup : (to_Q A / to_Q (of_Z N) <= pow2 0)%Q)
    by (apply (quotient_upper _ _ 0 0); [now apply Qlt_le_weak | assumption | assumption]).
  assert (Hr : rounds_to (to_Q A / to_Q (of_Z N)) (div A (of_Z N))).
  { apply div_rounds; try assumption.
    eapply Qle_trans; [|exact Hlow]. apply pow2_le. lia. }
  split; [exact Hr|].
  apply (rounds_to_posfin (to_Q A / to_Q (of_Z N))); try lia; try assumption.
  eapply Qle_lt_trans; [exact Hup|]. apply pow2_lt. lia.
Qed.

Lemma share_mono (A : double) (N N' : Z) :
  posfin A -> (pow2 (-53) <= to_Q A)%Q -> (to_Q A <= pow2 0)%Q ->
  1 <= N -> N <= N' -> N' <= INT_MAX ->
  (to_Q (div A (of_Z N')) <= to_Q (div A (of_Z N)))%Q.
Proof.
  intros HA Ha1 Ha2 H1 H2 H3.
  destruct (share_props A N HA Ha1 Ha2 ltac:(lia)) as (Hr & _ & _ & Hu).
  destruct (share_props A N' HA Ha1 Ha2 ltac:(lia)) as (Hr' & _).
  destruct (of_Z_props N ltac:(lia)) as (HF & Hf1 & Hf2).
  apply (rounds_to_value_le _ _ _ _ Hr' Hr).
  - apply Qdiv_le_l.
    + apply Qlt_le_weak, posfin_pos, HA.
    + apply posfin_pos, HF.
    + apply of_Z_mono; assumption.
  - apply Qle_lt_trans with (pow2 0).
    + apply (quotient_upper _ _ 0 0); try assumption.
      apply Qlt_le_weak, posfin_pos, HA.
    + apply pow2_lt. lia.
Qed.

Lemma one_bounds : (pow2 (-53) <= to_Q one)%Q /\ (to_Q one <= pow2 0)%Q.
Proof. split; vm_compute; discriminate. Qed.

Lemma denominator_zero (s0 : bool) (N : Z) :
  1 <= N <= INT_MAX -> denominator (S754_zero s0) N = div one (of_Z N).
Proof.
  intros HN. unfold denominator.
  change (sub one (S754_zero s0)) with one.
  destruct one_bounds as [H1 H2].
  destruct (share_props one N posfin_one H1 H2 HN) as (_ & (m & e & E & _) & _).
  rewrite E. reflexivity.
Qed.

Lemma denominator_one (N : Z) : 1 <= N <= INT_MAX -> denominator one N = one.
Proof.
  intros HN. unfold denominator.
  change (sub one one) with (S754_zero false).
  destruct (of_Z_props N HN) as ((m & e & E & _) & _).
  rewrite E. reflexivity.
Qed.

(** The denominator [s + (1.0 - s) / N] is a positive finite number, not
    below [s]. *)
Lemma denominator_props (sf : double) (N : Z) :
  is_double sf -> leb zero sf = true -> leb sf one = true ->
  1 <= N <= INT_MAX ->
  posfin (denominator sf N) /\
  (pow2 (-84) <= to_Q (denominator sf N))%Q /\
  (to_Q (denominator sf N) <= pow2 2)%Q /\
  (to_Q sf <= to_Q (denominator sf N))%Q.
Proof.
  intros Hd H0 H1 HN.
  destruct (unit_interval_cases sf Hd H0 H1) as [[s0 ->]|[->|[Hs Hle]]].
  - rewrite denominator_zero by exact HN.
    destruct one_bounds as [Ho1 Ho2].
    destruct (share_props one N posfin_one Ho1 Ho2 HN) as (_ & HB & Hb1 & Hb2).
    repeat split; try assumption.
    + eapply Qle_trans; [exact Hb2 | apply pow2_le; lia].
    + simpl (to_Q (S754_zero s0)). apply Qlt_le_weak, posfin_pos, HB.
  - rewrite denominator_one by exact HN.
    repeat split; try exact posfin_one; try apply Qle_refl; vm_compute; discriminate.
  - destruct (parallel_part_props sf Hs Hle) as (_ & HA & Ha1 & Ha2).
    destruct (share_props _ N HA Ha1 Ha2 HN) as (_ & HB & Hb1 & Hb2).
    fold (denominator sf N) in *.
    pose proof (posfin_pos sf Hs) as Hspos. pose proof (posfin_pos _ HB) as Hbpos.
    pose proof (pow2_gt0 (-53)) as Hp53.
    change (pow2 1) with 2%Q in Hb2.
    assert (Hr : rounds_to (to_Q sf + to_Q (div (sub one sf) (of_Z N))) (denominator sf N))
      by (apply add_rounds; assumption).
    destruct (rounds_to_posfin _ _ (-84) 2 Hr) as (HC & Hc1 & Hc2); try lia.
    + lra.
    + change (pow2 2) with 4%Q. lra.
    + repeat split; try assumption.
      apply (rounds_to_value_le _ _ _ _ (posfin_rounds_self sf Hs) Hr); [lra|].
      apply Qlt_trans with (pow2 2); [change (pow2 2) with 4%Q; lra | apply pow2_lt; lia].
Qed.

(** The denominator does not grow with [N]. *)
Lemma denominator_mono (sf : double) (N N' : Z) :
  is_double sf -> leb zero sf = true -> leb sf one = true ->
  1 <= N -> N <= N' -> N' <= INT_MAX ->
  (to_Q (denominator sf N') <= to_Q (denominator sf N))%Q.
Proof.
  intros Hd H0 H1 HN1 HN2 HN3.
  destruct (unit_interval_cases sf Hd H0 H1) as [[s0 ->]|[->|[Hs Hle]]].
  - rewrite !denominator_zero by lia.
    destruct one_bounds as [Ho1 Ho2].
    apply share_mono; try assumption. exact posfin_one.
  - rewrite !denominator_one by lia. apply Qle_refl.
  - destruct (parallel_part_props sf Hs Hle) as (_ & HA & Ha1 & Ha2).
    destruct (share_props _ N HA Ha1 Ha2 ltac:(lia)) as (_ & HB & Hb1 & Hb2).
    destruct (share_props _ N' HA Ha1 Ha2 ltac:(lia)) as (_ & HB' & Hb1' & Hb2').
    pose proof (share_mono _ N N' HA Ha1 Ha2 HN1 HN2 HN3) as Hm.
    pose proof (pow2_gt0 (-53)) as Hp53.
    change (pow2 1) with 2%Q in Hb2.
    unfold denominator.
    apply (rounds_to_value_le
             (to_Q sf + to_Q (div (sub one sf) (of_Z N')))
             (to_Q sf + to_Q (div (sub one sf) (of_Z N)))).
    + apply add_rounds; assumption.
    + apply add_rounds; assumption.
    + lra.
    + apply Qlt_trans with (pow2 2); [change (pow2 2) with 4%Q; lra | apply pow2_lt; lia].
Qed.

(** The reciprocal of a denominator. *)
Lemma reciprocal_rounds (C : double) :
  posfin C -> (to_Q C <= pow2 2)%Q -> rounds_to (1 / to_Q C) (div one C).
Proof.
  intros HC Hc. rewrite <- to_Q_one at 1.
  apply div_rounds; [exact posfin_one | exact HC|].
  rewrite to_Q_one.
  apply Qle_trans with (pow2 (0 - 2)); [apply pow2_le; lia|].
  apply quotient_lower; [apply Qle_refl | apply posfin_pos, HC | exact Hc].
Qed.

Lemma leb_infinity (X : double) : posfin X -> leb X (S754_infinity false) = true.
Proof. intros (m & e & -> & _). reflexivity. Qed.

(** ** The theoretical curves *)

Lemma amdahl_denominator (sf : double) (N : Z) :
  amdahl sf N = div one (denominator sf N).
Proof. reflexivity. Qed.

Lemma amdahl_props (sf : double) (N : Z) :
  is_double sf -> leb zero sf = true -> leb sf one = true ->
  1 <= N <= INT_MAX ->
  rounds_to (1 / to_Q (denominator sf N)) (amdahl sf N) /\ posfin (amdahl sf N).
Proof.
  intros Hd H0 H1 HN.
  destruct (denominator_props sf N Hd H0 H1 HN) as (HC & Hc1 & Hc2 & _).
  pose proof (reciprocal_rounds _ HC Hc2) as Hr.
  rewrite amdahl_denominator. split; [exact Hr|].
  pose proof (posfin_pos _ HC) as Hpos.
  apply (rounds_to_posfin _ _ (0 - 2) (0 - -84 + 1) Hr); try lia.
  - apply quotient_lower; [apply Qle_refl | exact Hpos | exact Hc2].
  - apply Qle_lt_trans with (pow2 (0 - -84)); [|apply pow2_lt; lia].
    apply quotient_upper; [discriminate | apply Qle_refl | exact Hc1].
Qed.

(** C6: for a serial fraction [s] in [[0, 1]], the [double] that
    [amdahl(s, N)] returns does not decrease when [N] grows (for thread
    counts [1 <= N <= N' <= INT_MAX]), and it is at most the [double]
    [1.0 / s] (which is [+inf] for [s = +0.0]; the bound is stated for
    every [s] but the negative zero, whose reciprocal is [-inf]). *)
Theorem amdahl_nondecreasing_bounded (sf : double) (N N' : Z) :
  is_double sf -> leb zero sf = true -> leb sf one = true ->
  1 <= N -> N <= N' -> N' <= INT_MAX ->
  leb (amdahl sf N) (amdahl sf N') = true /\
  (sf <> S754_zero true -> leb (amdahl sf N) (div one sf) = true).
Proof.
  intros Hd H0 H1 HN1 HN2 HN3.
  destruct (amdahl_props sf N Hd H0 H1 ltac:(lia)) as [Hr HP].
  destruct (amdahl_props sf N' Hd H0 H1 ltac:(lia)) as [Hr' _].
  destruct (denominator_props sf N Hd H0 H1 ltac:(lia)) as (HC & _ & Hc2 & Hsc).
  destruct (denominator_props sf N' Hd H0 H1 ltac:(lia)) as (HC' & _).
  pose proof (denominator_mono sf N N' Hd H0 H1 HN1 HN2 HN3) as Hm.
  split.
  - apply (rounds_to_leb _ _ _ _ Hr Hr').
    apply Qdiv_le_l; [discriminate | apply posfin_pos, HC' | exact Hm].
  - intros Hnz.
    assert (Hcases : sf = S754_zero false \/ posfin sf).
    { destruct (unit_interval_cases sf Hd H0 H1) as [[s0 ->]|[->|[Hs _]]].
      - destruct s0; [congruence | now left].
      - right. exact posfin_one.
      - now right. }
    destruct Hcases as [->|Hs].
    + change (div one (S754_zero false)) with (S754_infinity false).
      now apply leb_infinity.
    + apply (rounds_to_leb (1 / to_Q (denominator sf N)) (1 / to_Q sf)).
      * exact Hr.
      * apply reciprocal_rounds; [exact Hs|]. eapply Qle_trans; eassumption.
      * apply Qdiv_le_l; [discriminate | apply posfin_pos, Hs | exact Hsc].
Qed.

Lemma amdahl_nondecreasing_bounded_witness :
  leb (amdahl lit_0_10 3) (amdahl lit_0_10 4) = true /\
  leb (amdahl lit_0_10 3) (div one lit_0_10) = true.
Proof.
  assert (H3 : 4 <= INT_MAX) by (vm_compute; discriminate).
  destruct (amdahl_nondecreasing_bounded lit_0_10 3 4 eq_refl eq_refl eq_refl
              ltac:(lia) ltac:(lia) H3) as [H1 H2].
  split; [exact H1 | apply H2; discriminate].
Defined.

(** The negative zero is in [[0, 1]], and its reciprocal is [-inf]: there
    the bound [1.0 / s] does not hold. *)
Lemma amdahl_bound_negative_zero :
  leb zero (S754_zero true) = true /\
  amdahl (S754_zero true) 2 = of_Z 2 /\
  leb (amdahl (S754_zero true) 2) (div one (S754_zero true)) = false.
Proof. vm_compute. repeat split. Qed.

(** [1 - 2^-54] and [1 + 2^-54] both round to [1.0]. *)
Lemma rounds_to_one_below : rounds_to (1 - pow2 (-54)) one.
Proof.
  exists 0. split.
  - split; vm_compute; [discriminate | reflexivity].
  - vm_compute. reflexivity.
Qed.

Lemma rounds_to_one_above : rounds_to (1 + pow2 (-54)) one.
Proof.
  exists 1. split.
  - split; vm_compute; [discriminate | reflexivity].
  - vm_compute. reflexivity.
Qed.

(** [s + (1.0 - s) == 1.0] in binary64, for [0 <= s <= 1]. *)
Lemma denominator_at_one (sf : double) :
  is_double sf -> leb zero sf = true -> leb sf one = true ->
  denominator sf 1 = one.
Proof.
  intros Hd H0 H1.
  assert (HN : 1 <= 1 <= INT_MAX) by (vm_compute; split; discriminate).
  destruct (unit_interval_cases sf Hd H0 H1) as [[s0 ->]|[->|[Hs Hle]]].
  - rewrite denominator_zero by exact HN. apply div_self.
  - now apply denominator_one.
  - destruct (parallel_part_props sf Hs Hle) as (Hr & HA & Ha1 & Ha2).
    unfold denominator. change (of_Z 1) with one.
    rewrite div_one; [|exact HA|eapply Qle_trans; [|exact Ha1]; apply pow2_le; lia].
    pose proof (posfin_pos sf Hs) as Hspos.
    destruct (rounding_error _ _ 0 Hr) as [E1 E2]; try lia.
    { change (pow2 0) with 1%Q. lra. }
    change (fexp prec emax 0 - 1) with (-54) in E1, E2.
    apply (rounds_to_squeeze (1 - pow2 (-54)) (to_Q sf + to_Q (sub one sf))
             (1 + pow2 (-54))).
    + exact rounds_to_one_below.
    + exact rounds_to_one_above.
    + apply add_rounds; assumption.
    + lra.
    + lra.
    + vm_compute. reflexivity.
Qed.

Lemma mul_zero_finite (x : double) (z : bool) :
  is_finite x = true -> exists sz, mul x (S754_zero z) = S754_zero sz.
Proof.
  destruct x as [sx|sx| |sx m e]; try discriminate; intros _; eexists; reflexivity.
Qed.

(** C4: [amdahl(s, 1) == 1.0] for every [double] [s] in [[0, 1]], and
    [gunther(alpha, beta, 1) == 1.0] for all finite [alpha] and [beta], in
    particular for the non-negative ones: the results are the [double]
    [1.0] itself. *)
Theorem curves_at_one_thread (sf al be : double) :
  is_double sf -> leb zero sf = true -> leb sf one = true ->
  is_double al -> is_finite al = true -> leb zero al = true ->
  is_double be -> is_finite be = true -> leb zero be = true ->
  amdahl sf 1 = one /\ gunther al be 1 = one.
Proof.
  intros Hd H0 H1 Hda Hfa _ Hdb Hfb _. split.
  - rewrite amdahl_denominator, denominator_at_one by assumption. apply div_self.
  - unfold gunther. change (of_Z (1 - 1)) with (S754_zero false).
    change (of_Z 1) with one.
    destruct (mul_zero_finite al false Hfa) as [sa Ea]. rewrite Ea.
    assert (Eb : exists sb, mul (mul be one) (S754_zero false) = S754_zero sb).
    { apply mul_zero_finite.
      destruct be as [sb|sb| |sb m e]; try discriminate; try reflexivity.
      now rewrite mul_one. }
    destruct Eb as [sb Eb]. rewrite Eb.
    change (add (add one (S754_zero sa)) (S754_zero sb)) with one.
    apply div_self.
Qed.

Lemma curves_at_one_thread_witness :
  amdahl lit_0_10 1 = one /\ gunther lit_0_02 lit_0_003 1 = one.
Proof.
  exact (curves_at_one_thread lit_0_10 lit_0_02 lit_0_003
           eq_refl eq_refl eq_refl eq_refl eq_refl eq_refl eq_refl eq_refl eq_refl).
Defined.

(** With no contention and no coherence penalty the curve is the
    identity. *)
Lemma gunther_linear (N : Z) : 1 <= N <= INT_MAX -> gunther zero zero N = of_Z N.
Proof.
  intros HN. unfold gunther.
  destruct (of_Z_props N HN) as (HF & Hf1 & _).
  assert (E1 : mul zero (of_Z (N - 1)) = zero).
  { destruct (Z.eq_dec N 1) as [->|Hne]; [reflexivity|].
    destruct (of_Z_props (N - 1) ltac:(lia)) as ((m & e & E & _) & _).
    rewrite E. reflexivity. }
  assert (E2 : mul zero (of_Z N) = zero).
  { destruct HF as (m & e & E & _). rewrite E. reflexivity. }
  rewrite E1, E2, E1. change (add (add (of_Z 1) zero) zero) with one.
  apply div_one; [exact HF|].
  eapply Qle_trans; [|exact Hf1]. apply pow2_le. lia.
Qed.

(** C5: [gunther(0, 0, N)] is the [double] [N] itself for every thread
    count [N >= 1]; and in the scenario [s = 0], [alpha = beta = 0],
    [max_threads = 4] the sweep writes four rows, for [N = 1, 2, 3, 4],
    whose Amdahl and Gunther columns are exactly the [double]s
    [1, 2, 3, 4], whatever the clock measures. *)
Theorem linear_scaling (clock : nat -> double) (N : Z) :
  1 <= N <= INT_MAX ->
  gunther zero zero N = of_Z N /\
  exists st,
    sweep_controller clock scenario = Some st /\
    map rr_N (rows st) = [1; 2; 3; 4] /\
    map amdahl_speedup (rows st) = map of_Z [1; 2; 3; 4] /\
    map gunther_speedup (rows st) = map of_Z [1; 2; 3; 4].
Proof.
  intros HN. split; [now apply gunther_linear|].
  assert (Hm : maxN scenario < INT_MAX) by reflexivity.
  destruct (sweep_controller_rows clock scenario 0 eq_refl Hm)
    as (st & Hst & Hrows & _).
  exists st. split; [exact Hst|].
  rewrite Hrows, !map_map. repeat split; vm_compute; reflexivity.
Qed.

Lemma linear_scaling_witness :
  gunther zero zero 3 = of_Z 3 /\
  exists st,
    sweep_controller sample_clock scenario = Some st /\
    map rr_N (rows st) = [1; 2; 3; 4].
Proof.
  assert (H3 : 1 <= 3 <= INT_MAX) by (vm_compute; split; discriminate).
  destruct (linear_scaling sample_clock 3 H3) as (H1 & st & H2 & H4 & _).
  split; [exact H1|]. exists st. split; [exact H2 | exact H4].
Defined.

(** ** The serial slice, for parameters in their domain *)

(** Multiplication of positive numbers. *)
Lemma mul_rounds (X Y : double) :
  posfin X -> posfin Y -> rounds_to (to_Q X * to_Q Y) (mul X Y).
Proof.
  intros (mx & ex & -> & Hbx) (my & ey & -> & Hby).
  destruct (bounded_canonical mx ex Hbx) as [Hcx _].
  destruct (bounded_canonical my ey Hby) as [Hcy _].
  rewrite fexp_eq in Hcx, Hcy.
  pose proof (digits2_pos_bounds mx) as [Dx1 Dx2].
  pose proof (digits2_pos_bounds my) as [Dy1 Dy2].
  set (dx := Z.pos (digits2_pos mx)) in *. set (dy := Z.pos (digits2_pos my)) in *.
  assert (Hdx : 0 < dx) by (unfold dx; lia). assert (Hdy : 0 < dy) by (unfold dy; lia).
  unfold mul, SFmul. simpl xorb. rewrite Pos2Z.inj_mul.
  assert (Hd : dx + dy - 1 <= Zdigits2 (Z.pos mx * Z.pos my)).
  { destruct (Zdigits2_bounds (Z.pos mx * Z.pos my) ltac:(lia)) as [[_ H4] H5].
    assert (Hp : 2 ^ (dx - 1) * 2 ^ (dy - 1) <= Z.pos mx * Z.pos my) by nia.
    rewrite <- Z.pow_add_r in Hp by lia.
    assert (Hlt : 2 ^ (dx - 1 + (dy - 1)) < 2 ^ Zdigits2 (Z.pos mx * Z.pos my)) by lia.
    apply Z.pow_lt_mono_r_iff in Hlt; lia. }
  destruct (binary_round_aux_RND false (Z.pos mx * Z.pos my) (ex + ey) loc_Exact
              (to_Q (S754_finite false mx ex) * to_Q (S754_finite false my ey)))
    as [E Hb].
  - lia.
  - simpl loc_code. rewrite Z.add_0_r. symmetry. apply scode_exact.
    rewrite !posfin_value, inject_Z_mult, pow2_add. ring.
  - rewrite fexp_eq. lia.
  - eexists. split; [exact Hb | exact E].
Qed.

(** The result of a rounding that does not overflow is a zero or a
    positive finite number. *)
Lemma rounds_to_shape (x : Q) (X : double) :
  rounds_to x X -> (x < pow2 1023)%Q ->
  X = S754_zero false \/ exists m e, X = S754_finite false m e.
Proof.
  intros (k & Hb & ->) Hx.
  assert (Hk : k <= 1023).
  { destruct Hb as [H1 _].
    assert (Hlt : (pow2 (k - 1) < pow2 1023)%Q) by (eapply Qle_lt_trans; eassumption).
    apply pow2_lt_inv in Hlt. lia. }
  destruct (RND_pack false x k Hb) as (E & P & _).
  pose proof (no_overflow x k Hb Hk) as Hov.
  rewrite E.
  destruct (Z.eq_dec (rne4 (scode x (fexp prec emax k))) 0) as [E0|E0].
  - left. rewrite E0. reflexivity.
  - right.
    destruct (pack_finite false _ _ P ltac:(unfold packable in P; lia) Hov)
      as (m & e & Ep & _).
    now exists m, e.
Qed.

Lemma to_Q_nonneg (X : double) : not_negative X -> (0 <= to_Q X)%Q.
Proof.
  intros H. destruct X as [sx|sx| |[|] m e]; try apply Qle_refl; try contradiction.
  rewrite posfin_value.
  apply Qmult_le_0_compat; [discriminate | apply Qlt_le_weak, pow2_gt0].
Qed.

(** A finite [double] that is not negative and not above [2^63] converts
    to a [uint64_t]. *)
Lemma to_uint64_defined (X : double) :
  is_finite X = true -> not_negative X -> (to_Q X <= pow2 63)%Q ->
  exists z, to_uint64 X = Some z.
Proof.
  intros Hf Hn Hle.
  destruct (trunc X) as [z|] eqn:Et.
  - pose proof (trunc_floor X z Hn Et) as Ez.
    assert (H0 : 0 <= z).
    { rewrite Ez. rewrite <- (Qfloor_Z 0). apply Qfloor_resp_le. now apply to_Q_nonneg. }
    assert (H1 : z <= 2 ^ 63).
    { rewrite Ez. rewrite <- (Qfloor_Z (2 ^ 63)). apply Qfloor_resp_le.
      now rewrite <- (pow2_Z 63) by lia. }
    exists z. unfold to_uint64. rewrite Et.
    assert (Eb : (0 <=? z) && (z <? UINT64_MOD) = true).
    { apply andb_true_iff. split; [apply Z.leb_le; exact H0|].
      apply Z.ltb_lt. unfold UINT64_MOD.
      assert (2 ^ 63 < 2 ^ 64) by reflexivity. lia. }
    now rewrite Eb.
  - destruct X; try discriminate.
Qed.

(** For a serial fraction in [[0, 1]] and [total_iters < 2^63] the cast
    [static_cast<uint64_t>(total_iters * s)] is defined. *)
Lemma serial_of_defined (p : RunParameters) :
  is_double (s p) -> leb zero (s p) = true -> leb (s p) one = true ->
  0 <= total_iters p < 2 ^ 63 ->
  exists serial, serial_of p = Some serial.
Proof.
  intros Hd H0 H1 Ht. unfold serial_of.
  assert (Hz : forall X sz, is_finite X = true -> exists z, to_uint64 (mul X (S754_zero sz)) = Some z).
  { intros X sz HX. destruct (mul_zero_finite X sz HX) as [s' E]. rewrite E.
    exists 0. reflexivity. }
  destruct (Z.eq_dec (total_iters p) 0) as [E0|E0].
  - rewrite E0. change (of_Z 0) with (S754_zero false).
    destruct (unit_interval_cases _ Hd H0 H1) as [[s0 E]|[E|[(m & e & E & _) _]]];
      rewrite E; exists 0; reflexivity.
  - assert (HT : posfin (of_Z (total_iters p)) /\
                 (pow2 0 <= to_Q (of_Z (total_iters p)))%Q /\
                 (to_Q (of_Z (total_iters p)) <= pow2 63)%Q).
    { apply (rounds_to_posfin (inject_Z (total_iters p))); try lia.
      - apply of_Z_rounds. lia.
      - change (pow2 0) with (inject_Z 1). rewrite <- Zle_Qle. lia.
      - rewrite (pow2_Z 63) by lia. rewrite <- Zlt_Qlt. lia. }
    destruct HT as (HT & Ht1 & Ht2).
    assert (HTf : is_finite (of_Z (total_iters p)) = true)
      by (destruct HT as (m & e & E & _); now rewrite E).
    assert (Hcases : (exists s0, s p = S754_zero s0) \/
                     (posfin (s p) /\ (to_Q (s p) <= 1)%Q)).
    { destruct (unit_interval_cases _ Hd H0 H1) as [Hzero|[E|[Hs Hle]]].
      - now left.
      - right. rewrite E. split; [exact posfin_one | vm_compute; discriminate].
      - right. split; [exact Hs|]. pose proof (pow2_gt0 (-53)). lra. }
    destruct Hcases as [[s0 E]|[Hs Hle]].
    + rewrite E. now apply Hz.
    + pose proof (mul_rounds _ _ HT Hs) as Hr.
      pose proof (posfin_pos _ HT) as HTpos. pose proof (posfin_pos _ Hs) as Hspos.
      assert (Hprod : (to_Q (of_Z (total_iters p)) * to_Q (s p)
                       <= to_Q (of_Z (total_iters p)))%Q).
      { setoid_replace (to_Q (of_Z (total_iters p)))
          with (to_Q (of_Z (total_iters p)) * 1)%Q at 2 by ring.
        rewrite !(Qmult_comm (to_Q (of_Z (total_iters p)))).
        apply Qmult_le_compat_r; [exact Hle | now apply Qlt_le_weak]. }
      assert (Hlt : (to_Q (of_Z (total_iters p)) < pow2 1023)%Q)
        by (eapply Qle_lt_trans; [exact Ht2 | apply pow2_lt; lia]).
      assert (Hv : (to_Q (mul (of_Z (total_iters p)) (s p)) <= pow2 63)%Q).
      { eapply Qle_trans; [|exact Ht2].
        apply (rounds_to_value_le _ _ _ _ Hr (posfin_rounds_self _ HT) Hprod Hlt). }
      apply to_uint64_defined; [| |exact Hv].
      * destruct (rounds_to_shape _ _ Hr) as [E|(m & e & E)];
          [eapply Qle_lt_trans; eassumption | |]; now rewrite E.
      * destruct (rounds_to_shape _ _ Hr) as [E|(m & e & E)];
          [eapply Qle_lt_trans; eassumption | |]; now rewrite E.
Qed.

(** The product is the rounded one: with [total_iters = 10] and the
    [double] nearest to [0.3] (a little below it), [total_iters * s] rounds
    to [3.0], so [serial_iters] is [3], while the integer part of the exact
    product is [2]. *)
Lemma serial_iters_of_rounded_product :
  serial_of (small_params (div (of_Z 3) (of_Z 10)) 10 1) = Some 3 /\
  Qfloor (inject_Z 10 * to_Q (div (of_Z 3) (of_Z 10))) = 2.
Proof. vm_compute. split; reflexivity. Qed.

(** The conversion of [total_iters] to [double] can round up: with
    [total_iters = 2^53 + 3] and [s = 1.0], [serial_iters] is [2^53 + 4]
    and the subtraction wraps. *)
Lemma serial_iters_of_rounded_total :
  exists inv,
    run_with (small_params one (2 ^ 53 + 3) 1) 1 = Some inv /\
    serial_iters inv = 2 ^ 53 + 4 /\
    parallel_iters inv = UINT64_MOD - 1.
Proof. eexists. split; [vm_compute; reflexivity|]. split; reflexivity. Qed.

(** * Further properties of the code *)

(** ** The workload loop, one iteration more *)

Lemma busy_loop_unrolls (n : nat) : forall (iters : Z) (st : busy_state) (fuel : nat),
  0 <= bw_i st -> iters + 1 < UINT64_MOD ->
  Z.of_nat n = iters - bw_i st -> (n < fuel)%nat ->
  exists acc,
    busy_loop fuel iters st
    = Some {| bw_i := iters; bw_acc := acc; bw_steps := (bw_steps st + n)%nat |} /\
    busy_loop (S fuel) (iters + 1) st
    = Some {| bw_i := iters + 1; bw_acc := busy_step iters acc;
              bw_steps := S (bw_steps st + n) |} /\
    (is_uint64 (bw_acc st) -> is_uint64 acc).
Proof.
  induction n as [|n IH]; intros iters [i acc steps] fuel Hi Hit Hn Hf;
    cbn [bw_i bw_acc bw_steps] in *.
  - assert (i = iters) by lia. subst i.
    exists acc. rewrite Nat.add_0_r. split; [|split; [|auto]].
    + destruct fuel; simpl; now rewrite Z.ltb_irrefl.
    + cbn [busy_loop bw_i bw_acc bw_steps].
      assert (E : (iters <? iters + 1) = true) by (apply Z.ltb_lt; lia).
      rewrite E.
      assert (Hw : wrap64 (iters + 1) = iters + 1)
        by (apply wrap64_small; unfold is_uint64; lia).
      rewrite Hw.
      destruct fuel; simpl; now rewrite Z.ltb_irrefl.
  - destruct fuel as [|fuel]; [lia|].
    rewrite Nat2Z.inj_succ in Hn.
    assert (Hlt : (i <? iters) = true) by (apply Z.ltb_lt; lia).
    assert (Hlt' : (i <? iters + 1) = true) by (apply Z.ltb_lt; lia).
    assert (Hw : wrap64 (i + 1) = i + 1)
      by (apply wrap64_small; unfold is_uint64; lia).
    destruct (IH iters {| bw_i := i + 1; bw_acc := busy_step i acc; bw_steps := S steps |} fuel)
      as (acc' & E1 & E2 & E3); cbn [bw_i bw_acc bw_steps]; try lia.
    exists acc'. split; [|split].
    + cbn [busy_loop bw_i bw_acc bw_steps]. rewrite Hlt, Hw, E1.
      cbn [bw_steps]. f_equal. f_equal. lia.
    + remember (S fuel) as fuel1.
      cbn [busy_loop bw_i bw_acc bw_steps]. rewrite Hlt', Hw.
      subst fuel1. rewrite E2. cbn [bw_steps]. f_equal. f_equal. lia.
    + intros _. apply E3. cbn [bw_acc]. unfold busy_step. apply wrap64_range.
Qed.

(** X1: [busy_work] returns for every count; the value it leaves in
    [sink] is a [uint64_t]; and one iteration more applies the loop body
    once more, with the last index, to the value of the shorter run. *)
Theorem busy_work_unrolls (iters : Z) :
  0 <= iters -> iters + 1 < UINT64_MOD ->
  exists acc,
    busy_work iters = Some (acc, Z.to_nat iters) /\
    is_uint64 acc /\
    busy_work (iters + 1) = Some (busy_step iters acc, Z.to_nat (iters + 1)).
Proof.
  intros H0 H1. unfold busy_work.
  destruct (busy_loop_unrolls (Z.to_nat iters) iters
              {| bw_i := 0; bw_acc := 0; bw_steps := 0 |} (S (Z.to_nat iters)))
    as (acc & E1 & E2 & E3); cbn [bw_i bw_steps bw_acc]; try lia.
  exists acc. rewrite E1. cbn [bw_acc bw_steps].
  split; [reflexivity|]. split.
  - apply E3. cbn [bw_acc]. unfold is_uint64, UINT64_MOD. lia.
  - replace (Z.to_nat (iters + 1)) with (S (Z.to_nat iters)) by lia.
    rewrite E2. reflexivity.
Qed.

Lemma busy_work_unrolls_witness :
  busy_work 2 = Some (48271, 2%nat) /\
  is_uint64 48271 /\
  busy_work 3 = Some (busy_step 2 48271, 3%nat).
Proof.
  destruct (busy_work_unrolls 2) as (acc & E1 & E2 & E3).
  - lia.
  - unfold UINT64_MOD. lia.
  - assert (Ea : acc = 48271).
    { assert (E : busy_work 2 = Some (48271, 2%nat)) by (vm_compute; reflexivity).
      rewrite E in E1. now inversion E1. }
    subst acc. split; [exact E1|]. split; [exact E2|exact E3].
Defined.

(** ** Lists updated at one place *)

Lemma set_nth_length {A : Type} (l : list A) (i : nat) (x : A) :
  length (set_nth i x l) = length l.
Proof.
  revert i. induction l as [|a l IH]; intros [|i]; simpl; try reflexivity.
  unfold set_nth in *. simpl. f_equal. apply IH.
Qed.

Lemma set_nth_cons {A : Type} (a : A) (l : list A) (i : nat) (x : A) :
  set_nth (S i) x (a :: l) = a :: set_nth i x l.
Proof. reflexivity. Qed.

Lemma filter_set_nth {A : Type} (f : A -> bool) (l : list A) (i : nat) (x y : A) :
  nth_error l i = Some y ->
  (length (filter f (set_nth i x l)) + (if f y then 1 else 0)
   = length (filter f l) + (if f x then 1 else 0))%nat.
Proof.
  revert i. induction l as [|a l IH]; intros [|i] H; simpl in H; try discriminate.
  - inversion H; subst a. unfold set_nth. simpl.
    destruct (f x), (f y); simpl; lia.
  - rewrite set_nth_cons. simpl. specialize (IH i H).
    destruct (f a); simpl; lia.
Qed.

Lemma filter_length_le {A : Type} (f : A -> bool) (l : list A) :
  (length (filter f l) <= length l)%nat.
Proof. induction l as [|a l IH]; simpl; [lia|]. destruct (f a); simpl; lia. Qed.

Lemma filter_length_all {A : Type} (f : A -> bool) (l : list A) :
  length (filter f l) = length l -> forall j t, nth_error l j = Some t -> f t = true.
Proof.
  induction l as [|a l IH]; intros H [|j] t Ht; simpl in *; try discriminate.
  - inversion Ht; subst a. destruct (f t); [reflexivity|].
    pose proof (filter_length_le f l). lia.
  - destruct (f a); simpl in H.
    + apply (IH ltac:(lia) j t Ht).
    + pose proof (filter_length_le f l). lia.
Qed.

(** If the selected elements are all but one, and the [i]-th is not
    selected, every other element is. *)
Lemma filter_length_all_but {A : Type} (f : A -> bool) (l : list A) (i : nat) (y : A) :
  nth_error l i = Some y -> f y = false ->
  S (length (filter f l)) = length l ->
  forall j t, j <> i -> nth_error l j = Some t -> f t = true.
Proof.
  revert i. induction l as [|a l IH]; intros [|i] Hy Hf H j t Hj Ht; simpl in *;
    try discriminate.
  - inversion Hy; subst a. rewrite Hf in H.
    destruct j as [|j]; [congruence|]. simpl in Ht.
    apply (filter_length_all f l ltac:(lia) j t Ht).
  - destruct j as [|j]; simpl in Ht.
    + inversion Ht; subst a. destruct (f t); [reflexivity|].
      pose proof (filter_length_all f l ltac:(lia) i y Hy). congruence.
    + destruct (f a); simpl in H.
      * apply (IH i Hy Hf ltac:(lia) j t ltac:(congruence) Ht).
      * apply (filter_length_all f l ltac:(lia) j t Ht).
Qed.

Lemma filter_length_some_not {A : Type} (f : A -> bool) (l : list A) :
  (length (filter f l) < length l)%nat ->
  exists j t, nth_error l j = Some t /\ f t = false.
Proof.
  induction l as [|a l IH]; simpl; intros H; [lia|].
  destruct (f a) eqn:E.
  - simpl in H. destruct (IH ltac:(lia)) as (j & t & Hj & Ht).
    exists (S j), t. auto.
  - exists O, a. auto.
Qed.

Lemma nth_error_map_release (l : list thread) (j : nat) (t : thread) :
  nth_error (map release l) j = Some t ->
  exists t0, nth_error l j = Some t0 /\ t = release t0.
Proof.
  rewrite nth_error_map. destruct (nth_error l j) as [t0|]; simpl; [|discriminate].
  intros H. inversion H. now exists t0.
Qed.

Lemma filter_release (l : list thread) : filter at_barrier (map release l) = [].
Proof. induction l as [|a l IH]; simpl; auto. Qed.

(** ** One step of the pool, case by case *)

Lemma step_cases (c c' : pool) (i : nat) :
  step c i = Some c' ->
  exists o rest,
    nth_error (pl_threads c) i = Some {| th_status := Running; th_todo := o :: rest |} /\
    pl_trace c' = pl_trace c ++ [(i, o)] /\
    pl_hot c' = (if is_hot o then wrap64 (pl_hot c + 1) else pl_hot c) /\
    (forall g, pl_packed c' g
               = if is_packed g o then wrap64 (pl_packed c g + 1) else pl_packed c g) /\
    pl_threads c'
    = (match o with
       | ArriveAndWait =>
           if Nat.eqb (S (pl_arrived c)) (length (pl_threads c))
           then map release
                  (set_nth i {| th_status := Running; th_todo := rest |} (pl_threads c))
           else set_nth i {| th_status := AtBarrier; th_todo := rest |} (pl_threads c)
       | _ => set_nth i {| th_status := Running; th_todo := rest |} (pl_threads c)
       end) /\
    pl_arrived c'
    = (match o with
       | ArriveAndWait =>
           if Nat.eqb (S (pl_arrived c)) (length (pl_threads c))
           then O else S (pl_arrived c)
       | _ => pl_arrived c
       end) /\
    (match o with
     | MutexLock => pl_mutex c = None /\ pl_mutex c' = Some i
     | MutexUnlock => pl_mutex c' = None
     | _ => pl_mutex c' = pl_mutex c
     end).
Proof.
  unfold step. intros H.
  destruct (nth_error (pl_threads c) i) as [[st todo]|] eqn:En; [|discriminate].
  destruct st; [|discriminate].
  destruct todo as [|o rest]; [discriminate|].
  exists o, rest. split; [reflexivity|].
  destruct o.
  - destruct (busy_work iters) as [[acc k]|]; [|discriminate].
    inversion H; subst c'; simpl. repeat split; reflexivity.
  - destruct (Nat.eqb _ _); inversion H; subst c'; simpl; repeat split; reflexivity.
  - inversion H; subst c'; simpl. repeat split; reflexivity.
  - inversion H; subst c'; simpl. repeat split; reflexivity.
  - destruct (pl_mutex c); [discriminate|].
    inversion H; subst c'; simpl. repeat split; reflexivity.
  - inversion H; subst c'; simpl. repeat split; reflexivity.
Qed.

(** When a thread can move. *)
Lemma step_enabled (c : pool) (i : nat) (o : op) (rest : list op) :
  nth_error (pl_threads c) i = Some {| th_status := Running; th_todo := o :: rest |} ->
  busy_ok o ->
  (o = MutexLock -> pl_mutex c = None) ->
  exists c', step c i = Some c'.
Proof.
  intros Hn Hb Hm. unfold step. rewrite Hn.
  destruct o; simpl in Hb.
  - destruct (busy_work_iterations iters Hb) as [acc E]. rewrite E. eauto.
  - destruct (Nat.eqb _ _); eauto.
  - eauto.
  - eauto.
  - rewrite (Hm eq_refl). eauto.
  - eauto.
Qed.

Lemma exec_invariant (P : pool -> Prop) :
  (forall c c' i, P c -> step c i = Some c' -> P c') ->
  forall sched c, P c -> P (exec sched c).
Proof.
  intros Hstep sched. induction sched as [|i sched IH]; intros c Hc; simpl; [exact Hc|].
  destruct (step c i) as [c'|] eqn:E; [|now apply IH].
  apply IH. now apply (Hstep c c' i).
Qed.

Lemma exec_app (s1 s2 : list nat) : forall c, exec (s1 ++ s2) c = exec s2 (exec s1 c).
Proof.
  induction s1 as [|i s1 IH]; intros c; simpl; [reflexivity|].
  destruct (step c i); apply IH.
Qed.

(** ** Counting operations *)

Lemma count_ops_app (sel : op -> bool) (l1 l2 : list op) :
  count_ops sel (l1 ++ l2) = count_ops sel l1 + count_ops sel l2.
Proof. unfold count_ops. rewrite filter_app, length_app. lia. Qed.

Lemma count_ops_nonneg (sel : op -> bool) (l : list op) : 0 <= count_ops sel l.
Proof. unfold count_ops. lia. Qed.

Lemma count_ops_cons (sel : op -> bool) (o : op) (l : list op) :
  count_ops sel (o :: l) = (if sel o then 1 else 0) + count_ops sel l.
Proof. unfold count_ops. simpl. destruct (sel o); simpl length; lia. Qed.

Lemma count_ops_concat_repeat (sel : op -> bool) (l : list op) (n : nat) :
  count_ops sel (concat (repeat l n)) = Z.of_nat n * count_ops sel l.
Proof.
  induction n as [|n IH]; [reflexivity|].
  rewrite Nat2Z.inj_succ. simpl repeat. simpl concat.
  rewrite count_ops_app, IH. ring.
Qed.

Lemma count_ops_none (sel : op -> bool) (l : list op) :
  Forall (fun o => sel o = false) l -> count_ops sel l = 0.
Proof.
  induction 1 as [|o l Ho _ IH]; [reflexivity|].
  rewrite count_ops_cons, Ho, IH. reflexivity.
Qed.

Lemma count_ops_all (sel : op -> bool) (l : list op) :
  Forall (fun o => sel o = true) l -> count_ops sel l = Z.of_nat (length l).
Proof.
  induction 1 as [|o l Ho _ IH]; [reflexivity|].
  rewrite count_ops_cons, Ho, IH. simpl length. lia.
Qed.

Lemma sum_set_nth (sel : op -> bool) (ls : list (list op)) (i : nat)
  (o : op) (rest : list op) :
  nth_error ls i = Some (o :: rest) ->
  fold_right (fun l acc => count_ops sel l + acc) 0 (set_nth i rest ls)
  = fold_right (fun l acc => count_ops sel l + acc) 0 ls - (if sel o then 1 else 0).
Proof.
  revert i. induction ls as [|a ls IH]; intros [|i] H; simpl in H; try discriminate.
  - inversion H; subst a. unfold set_nth. simpl.
    rewrite count_ops_cons. lia.
  - rewrite set_nth_cons. simpl. rewrite (IH i H). lia.
Qed.

Lemma sum_repeat (sel : op -> bool) (w : list op) (n : nat) :
  fold_right (fun l acc => count_ops sel l + acc) 0 (repeat w n)
  = Z.of_nat n * count_ops sel w.
Proof.
  induction n as [|n IH]; [reflexivity|].
  rewrite Nat2Z.inj_succ. simpl. rewrite IH. ring.
Qed.

Lemma todos_init_pool (ts : list (list op)) : todos (init_pool ts) = ts.
Proof.
  unfold todos, init_pool. simpl. rewrite map_map. simpl. apply map_id.
Qed.

Lemma all_joined_todos (c : pool) :
  all_joined c = true -> Forall (fun l => l = []) (todos c).
Proof.
  unfold all_joined, todos. intros H.
  induction (pl_threads c) as [|t l IH]; simpl in *; constructor.
  - apply andb_true_iff in H. destruct H as [H _].
    destruct (th_todo t); [reflexivity|discriminate].
  - apply IH. apply andb_true_iff in H. tauto.
Qed.

Lemma all_joined_pending (sel : op -> bool) (c : pool) :
  all_joined c = true -> pending sel c = 0.
Proof.
  intros H. apply all_joined_todos in H. unfold pending.
  induction H as [|l ls Hl _ IH]; [reflexivity|].
  simpl. rewrite IH, Hl. reflexivity.
Qed.

Lemma performed_step (sel : op -> bool) (c c' : pool) (i : nat) (o : op) :
  pl_trace c' = pl_trace c ++ [(i, o)] ->
  performed sel c' = performed sel c + (if sel o then 1 else 0).
Proof.
  intros H. unfold performed. rewrite H, map_app, count_ops_app. simpl map.
  rewrite count_ops_cons. change (count_ops sel []) with 0. lia.
Qed.

Lemma wrap64_succ (z : Z) : wrap64 (wrap64 z + 1) = wrap64 (z + 1).
Proof. unfold wrap64. now rewrite Zplus_mod_idemp_l. Qed.

(** A counter that goes up by one, modulo [2^64], at each selected
    operation and at no other. *)
Section Counter.

Variable sel : op -> bool.
Variable obs : pool -> Z.
Hypothesis obs_step : forall c c' i o rest,
  step c i = Some c' ->
  nth_error (pl_threads c) i = Some {| th_status := Running; th_todo := o :: rest |} ->
  obs c' = if sel o then wrap64 (obs c + 1) else obs c.

Lemma counter_step (total : Z) (c c' : pool) (i : nat) :
  obs c = wrap64 (performed sel c) /\ performed sel c + pending sel c = total ->
  step c i = Some c' ->
  obs c' = wrap64 (performed sel c') /\ performed sel c' + pending sel c' = total.
Proof.
  intros [H1 H2] Hs.
  destruct (step_effect c c' i Hs) as (o & rest & Hn & Ht & Htr).
  destruct (step_cases c c' i Hs) as (o' & rest' & Hn' & _).
  assert (E : o' :: rest' = o :: rest).
  { unfold todos in Hn. rewrite nth_error_map, Hn' in Hn. simpl in Hn. congruence. }
  inversion E; subst o' rest'; clear E.
  rewrite (obs_step c c' i o rest Hs Hn').
  rewrite (performed_step sel c c' i o Htr).
  unfold pending. rewrite Ht, (sum_set_nth sel _ i o rest Hn).
  fold (pending sel c). split; [|lia].
  destruct (sel o).
  - rewrite H1. apply wrap64_succ.
  - rewrite Z.add_0_r. exact H1.
Qed.

Lemma counter_exec (ts : list (list op)) (sched : list nat) :
  obs (init_pool ts) = 0 ->
  let c := exec sched (init_pool ts) in
  obs c = wrap64 (performed sel c) /\
  performed sel c + pending sel c = pending sel (init_pool ts).
Proof.
  intros H0.
  apply (exec_invariant
           (fun c => obs c = wrap64 (performed sel c) /\
                     performed sel c + pending sel c = pending sel (init_pool ts))).
  - intros c c' i Hc Hs. now apply (counter_step _ c c' i).
  - split; [rewrite H0; reflexivity | reflexivity].
Qed.

End Counter.

Lemma pending_init_workers (sel : op -> bool) (p : RunParameters) (N : Z)
  (inv : Invocation) :
  run_with p N = Some inv -> 1 <= N ->
  pending sel (init_pool (threads inv)) = N * count_ops sel (worker p (per inv)).
Proof.
  intros H HN. unfold pending.
  rewrite todos_init_pool, (threads_repeat p N inv H), sum_repeat. f_equal. lia.
Qed.

Lemma round_shape_hot (ops : Z) : count_ops is_hot (round_shape ops) = Z.max 0 ops.
Proof.
  unfold round_shape. rewrite count_ops_cons, count_ops_app. simpl is_hot.
  rewrite count_ops_all, repeat_length.
  - rewrite count_ops_none; [lia|].
    apply Forall_forall. intros o Ho. apply in_map_iff in Ho.
    destruct Ho as (k & <- & _). reflexivity.
  - apply Forall_forall. intros o Ho. apply repeat_spec in Ho. now subst o.
Qed.

Lemma worker_hot (p : RunParameters) (n : Z) :
  count_ops is_hot (worker p n) = Z.max 0 (coh_rounds p) * Z.max 0 (coh_ops p).
Proof.
  rewrite worker_shape, !count_ops_app, !count_ops_concat_repeat, round_shape_hot.
  change (count_ops is_hot [BusyWork n]) with 0.
  change (count_ops is_hot [MutexLock; MutexUnlock]) with 0. lia.
Qed.

Lemma hot_exec (p : RunParameters) (N : Z) (inv : Invocation) (sched : list nat) :
  run_with p N = Some inv -> 1 <= N ->
  let c := exec sched (init_pool (threads inv)) in
  pl_hot c = wrap64 (performed is_hot c) /\
  performed is_hot c + pending is_hot c = N * count_ops is_hot (worker p (per inv)).
Proof.
  intros H HN c.
  destruct (counter_exec is_hot pl_hot) with (ts := threads inv) (sched := sched)
    as [H1 H2].
  - intros c0 c' i o rest Hs Hn.
    destruct (step_cases c0 c' i Hs) as (o' & rest' & Hn' & _ & Hh & _).
    rewrite Hn in Hn'. inversion Hn'; subst o' rest'. exact Hh.
  - reflexivity.
  - fold c in H1, H2.
    rewrite (pending_init_workers is_hot p N inv H HN) in H2.
    split; [exact H1 | exact H2].
Qed.

(** X2: the hot counter loses no increment.  Under every schedule of the
    threads of an invocation, [hot.v] is the number of [fetch_add]s made
    on it so far (modulo [2^64]); those made and those still to make are
    [N * coh_rounds * coh_ops] (a negative count of rounds or operations
    counting as none); so once all threads have finished, [hot.v] holds
    [N * coh_rounds * coh_ops] modulo [2^64]. *)
Theorem hot_counter_counts_every_increment
  (p : RunParameters) (N : Z) (inv : Invocation) (sched : list nat) :
  run_with p N = Some inv -> 1 <= N ->
  let c := exec sched (init_pool (threads inv)) in
  let total := N * (Z.max 0 (coh_rounds p) * Z.max 0 (coh_ops p)) in
  pl_hot c = wrap64 (performed is_hot c) /\
  performed is_hot c + pending is_hot c = total /\
  (all_joined c = true -> pl_hot c = wrap64 total).
Proof.
  intros H HN c total.
  destruct (hot_exec p N inv sched H HN) as [H1 H2]. fold c in H1, H2.
  rewrite worker_hot in H2.
  split; [exact H1|]. split; [exact H2|].
  intros Hj. rewrite H1. f_equal.
  rewrite (all_joined_pending is_hot c Hj) in H2. unfold total. lia.
Qed.

Lemma sample_invocation_runs :
  run_with (small_params lit_0_10 1000 4) 2 = Some sample_invocation.
Proof. vm_compute. reflexivity. Qed.

Lemma hot_counter_counts_every_increment_witness :
  let c := exec [0; 1; 1; 0; 0; 1; 0; 1; 1]%nat (init_pool (threads sample_invocation)) in
  pl_hot c = wrap64 (performed is_hot c) /\
  performed is_hot c + pending is_hot c = 12 /\
  pl_hot c = 5.
Proof.
  destruct (hot_counter_counts_every_increment (small_params lit_0_10 1000 4) 2
              sample_invocation [0; 1; 1; 0; 0; 1; 0; 1; 1]%nat
              sample_invocation_runs ltac:(lia)) as (H1 & H2 & _).
  split; [exact H1|]. split; [exact H2|]. vm_compute. reflexivity.
Defined.

(** ** The packed counters *)

Lemma field_of_index_eqb (a j : Z) :
  0 <= a < 8 -> 0 <= j < 8 ->
  packed_field_eqb (field_of_index a) (field_of_index j) = (a =? j).
Proof.
  intros Ha Hj.
  assert (Ea : a = 0 \/ a = 1 \/ a = 2 \/ a = 3 \/ a = 4 \/ a = 5 \/ a = 6 \/ a = 7) by lia.
  assert (Ej : j = 0 \/ j = 1 \/ j = 2 \/ j = 3 \/ j = 4 \/ j = 5 \/ j = 6 \/ j = 7) by lia.
  repeat (destruct Ea as [->|Ea]); try subst a;
    repeat (destruct Ej as [->|Ej]); try subst j; reflexivity.
Qed.

(** Among [n] consecutive indices from [lo], those that go to counter [j]. *)
Lemma packed_indices (j : Z) (n : nat) : forall lo,
  0 <= lo -> 0 <= j < 8 ->
  count_ops (is_packed (field_of_index j))
    (map (fun k => PackedFetchAdd (field_of_index (k mod 8))) (Zseq lo n))
  = (lo + Z.of_nat n + 7 - j) / 8 - (lo + 7 - j) / 8.
Proof.
  induction n as [|n IH]; intros lo Hlo Hj.
  - simpl. change (count_ops _ []) with 0. rewrite Z.add_0_r. lia.
  - rewrite Nat2Z.inj_succ. simpl Zseq. simpl map. rewrite count_ops_cons.
    rewrite (IH (lo + 1)) by lia.
    cbn [is_packed].
    rewrite (field_of_index_eqb (lo mod 8) j) by (try apply Z.mod_pos_bound; lia).
    replace (lo + 1 + Z.of_nat n + 7 - j) with (lo + Z.succ (Z.of_nat n) + 7 - j) by lia.
    assert (E : (if lo mod 8 =? j then 1 else 0)
                = (lo + 1 + 7 - j) / 8 - (lo + 7 - j) / 8).
    { destruct (Z.eqb_spec (lo mod 8) j) as [E|E];
        pose proof (Z.div_mod lo 8 ltac:(lia));
        pose proof (Z.mod_pos_bound lo 8 ltac:(lia));
        pose proof (Z.div_mod (lo + 1 + 7 - j) 8 ltac:(lia));
        pose proof (Z.mod_pos_bound (lo + 1 + 7 - j) 8 ltac:(lia));
        pose proof (Z.div_mod (lo + 7 - j) 8 ltac:(lia));
        pose proof (Z.mod_pos_bound (lo + 7 - j) 8 ltac:(lia)); lia. }
    rewrite E. lia.
Qed.

Lemma round_shape_packed (ops j : Z) :
  0 <= j < 8 ->
  count_ops (is_packed (field_of_index j)) (round_shape ops) = packed_share ops j.
Proof.
  intros Hj. unfold round_shape, packed_share.
  rewrite count_ops_cons, count_ops_app. cbn [is_packed].
  rewrite count_ops_none.
  - rewrite (packed_indices j (Z.to_nat ops) 0) by lia.
    replace ((0 + 7 - j) / 8) with 0 by (symmetry; apply Z.div_small; lia).
    replace (0 + Z.of_nat (Z.to_nat ops) + 7 - j) with (Z.max 0 ops + 7 - j) by lia.
    lia.
  - apply Forall_forall. intros o Ho. apply repeat_spec in Ho. now subst o.
Qed.

Lemma worker_packed (p : RunParameters) (n j : Z) :
  0 <= j < 8 ->
  count_ops (is_packed (field_of_index j)) (worker p n)
  = Z.max 0 (coh_rounds p) * packed_share (coh_ops p) j.
Proof.
  intros Hj.
  rewrite worker_shape, !count_ops_app, !count_ops_concat_repeat,
    (round_shape_packed _ j Hj).
  change (count_ops (is_packed (field_of_index j)) [BusyWork n]) with 0.
  change (count_ops (is_packed (field_of_index j)) [MutexLock; MutexUnlock]) with 0.
  lia.
Qed.

(** The shares of the eight counters add up to the operations of a round. *)
Lemma packed_share_sum (ops : Z) :
  packed_share ops 0 + packed_share ops 1 + packed_share ops 2 + packed_share ops 3
  + packed_share ops 4 + packed_share ops 5 + packed_share ops 6 + packed_share ops 7
  = Z.max 0 ops.
Proof.
  unfold packed_share. set (n := Z.max 0 ops).
  pose proof (Z.div_mod n 8 ltac:(lia)) as D.
  pose proof (Z.mod_pos_bound n 8 ltac:(lia)) as B.
  assert (S : forall j, 0 <= j < 8 ->
            (n + 7 - j) / 8 = n / 8 + (if j <? n mod 8 then 1 else 0)).
  { intros j Hj. destruct (Z.ltb_spec j (n mod 8)).
    - symmetry. apply Z.div_unique with (r := n mod 8 - j - 1); lia.
    - symmetry. apply Z.div_unique with (r := n mod 8 + 7 - j); lia. }
  rewrite !S by lia.
  assert (E : n mod 8 = 0 \/ n mod 8 = 1 \/ n mod 8 = 2 \/ n mod 8 = 3 \/
              n mod 8 = 4 \/ n mod 8 = 5 \/ n mod 8 = 6 \/ n mod 8 = 7) by lia.
  repeat (destruct E as [E|E]); rewrite E in *; simpl; lia.
Qed.

Lemma wrap64_sum {A : Type} (g h : A -> Z) (l : list A) :
  (forall x, In x l -> g x = wrap64 (h x)) ->
  wrap64 (fold_right (fun x acc => g x + acc) 0 l)
  = wrap64 (fold_right (fun x acc => h x + acc) 0 l).
Proof.
  induction l as [|a l IH]; intros H; [reflexivity|].
  simpl. rewrite (H a (or_introl eq_refl)).
  unfold wrap64 in *. rewrite Zplus_mod_idemp_l.
  rewrite <- Zplus_mod_idemp_r, IH, Zplus_mod_idemp_r; [reflexivity|].
  intros x Hx. apply H. now right.
Qed.

Lemma field_of_index_inverse (f : packed_field) :
  field_of_index (field_index f) = f /\ 0 <= field_index f < 8.
Proof. destruct f; simpl; split; (reflexivity || lia). Qed.

Lemma packed_total (p : RunParameters) (N : Z) (inv : Invocation) (sched : list nat)
  (f : packed_field) :
  run_with p N = Some inv -> 1 <= N ->
  let c := exec sched (init_pool (threads inv)) in
  pl_packed c f = wrap64 (performed (is_packed f) c) /\
  (all_joined c = true ->
   pl_packed c f
   = wrap64 (N * (Z.max 0 (coh_rounds p) * packed_share (coh_ops p) (field_index f)))).
Proof.
  intros H HN c.
  destruct (field_of_index_inverse f) as [Ef Hj].
  destruct (counter_exec (is_packed f) (fun c => pl_packed c f))
    with (ts := threads inv) (sched := sched) as [H1 H2].
  - intros c0 c' i o rest Hs Hn.
    destruct (step_cases c0 c' i Hs) as (o' & rest' & Hn' & _ & _ & Hp & _).
    rewrite Hn in Hn'. inversion Hn'; subst o' rest'. apply Hp.
  - reflexivity.
  - fold c in H1, H2.
    rewrite (pending_init_workers _ p N inv H HN) in H2.
    rewrite <- Ef in H2 at 3. rewrite (worker_packed p _ _ Hj) in H2.
    split; [exact H1|].
    intros Hjoin. rewrite H1. f_equal.
    rewrite (all_joined_pending _ c Hjoin) in H2. lia.
Qed.

(** X3: the packed counters lose no increment either, and share the work
    by [k & 7].  Under every schedule, each counter of [PackedLine] is the
    number of [fetch_add]s made on it (modulo [2^64]); once all threads
    have finished, the counter of case label [j] holds [N * coh_rounds]
    times the number of [k] in [0 .. coh_ops - 1] with [k & 7 = j], which
    is [(coh_ops + 7 - j) / 8]; and the eight counters then add up to
    [hot.v], modulo [2^64]. *)
Theorem packed_counters_share_increments
  (p : RunParameters) (N : Z) (inv : Invocation) (sched : list nat) :
  run_with p N = Some inv -> 1 <= N ->
  let c := exec sched (init_pool (threads inv)) in
  (forall f,
     pl_packed c f = wrap64 (performed (is_packed f) c) /\
     (all_joined c = true ->
      pl_packed c f
      = wrap64 (N * (Z.max 0 (coh_rounds p)
                     * packed_share (coh_ops p) (field_index f))))) /\
  (all_joined c = true -> wrap64 (packed_sum c) = pl_hot c).
Proof.
  intros H HN c.
  split; [intros f; apply (packed_total p N inv sched f H HN)|].
  intros Hjoin.
  destruct (hot_exec p N inv sched H HN) as [Hh Hp]. fold c in Hh, Hp.
  rewrite worker_hot, (all_joined_pending is_hot c Hjoin), Z.add_0_r in Hp.
  rewrite Hh, Hp.
  unfold packed_sum.
  rewrite (wrap64_sum (pl_packed c)
             (fun f => N * (Z.max 0 (coh_rounds p)
                            * packed_share (coh_ops p) (field_index f)))).
  - f_equal. unfold packed_fields. cbn [fold_right field_index].
    rewrite <- (packed_share_sum (coh_ops p)). ring.
  - intros f _. apply (proj2 (packed_total p N inv sched f H HN) Hjoin).
Qed.

Lemma packed_counters_share_increments_witness :
  let c := exec (round_robin 24) (init_pool (threads sample_invocation)) in
  all_joined c = true /\
  pl_packed c a0 = 4 /\ pl_packed c a2 = 4 /\ pl_packed c a3 = 0 /\
  wrap64 (packed_sum c) = pl_hot c.
Proof.
  destruct (packed_counters_share_increments (small_params lit_0_10 1000 4) 2
              sample_invocation (round_robin 24)
              sample_invocation_runs ltac:(lia)) as [P S].
  assert (J : all_joined (exec (round_robin 24) (init_pool (threads sample_invocation)))
              = true) by (vm_compute; reflexivity).
  split; [exact J|].
  split; [exact (proj2 (P a0) J)|].
  split; [exact (proj2 (P a2) J)|].
  split; [exact (proj2 (P a3) J)|].
  exact (S J).
Defined.

(** ** What every reachable pool satisfies *)

Lemma lock_scoped_head (held : bool) (o : op) (rest : list op) :
  lock_scoped held (o :: rest) = true ->
  match o with
  | MutexLock => held = false /\ lock_scoped true rest = true
  | MutexUnlock => held = true /\ lock_scoped false rest = true
  | _ => held = false /\ lock_scoped false rest = true
  end.
Proof. destruct o, held; simpl; intros H; try discriminate; auto. Qed.

Lemma lock_scoped_held (l : list op) :
  lock_scoped true l = true -> exists rest, l = MutexUnlock :: rest.
Proof. destruct l as [|[] rest]; simpl; try discriminate. eauto. Qed.

Lemma lock_scoped_app (l rest : list op) :
  Forall (fun o => phase_of o <> Contention) l ->
  lock_scoped false (l ++ rest) = lock_scoped false rest.
Proof.
  induction 1 as [|o l Ho _ IH]; [reflexivity|].
  destruct o; simpl in *; try exact IH; congruence.
Qed.

Lemma lock_scoped_guards (n : nat) :
  lock_scoped false (concat (repeat [MutexLock; MutexUnlock] n)) = true.
Proof. induction n; simpl; auto. Qed.

Lemma worker_lock_scoped (p : RunParameters) (n : Z) :
  lock_scoped false (worker p n) = true.
Proof.
  destruct (worker_phases p n) as (coh & con & E & _ & Hcon & Hcoh & _).
  rewrite E. rewrite app_assoc, lock_scoped_app.
  - subst con. apply lock_scoped_guards.
  - apply Forall_app. split.
    + constructor; [simpl; congruence | constructor].
    + eapply Forall_impl; [|exact Hcoh]. simpl. congruence.
Qed.

Lemma worker_busy_ok (p : RunParameters) (n : Z) :
  is_uint64 n -> Forall busy_ok (worker p n).
Proof.
  intros Hn. destruct (worker_phases p n) as (coh & con & E & _ & _ & Hcoh & Hcon).
  rewrite E. apply Forall_app. split; [constructor; [exact Hn|constructor]|].
  apply Forall_app. split.
  - eapply Forall_impl; [|exact Hcoh]. intros [] Ho; simpl in *; auto; discriminate.
  - eapply Forall_impl; [|exact Hcon]. intros [] Ho; simpl in *; auto; discriminate.
Qed.

Lemma per_is_uint64 (p : RunParameters) (N : Z) (inv : Invocation) :
  run_with p N = Some inv -> is_uint64 (per inv).
Proof.
  intros H. destruct (run_with_fields p N inv H) as (_ & Hp & Hper & _ & _ & HN).
  pose proof (wrap64_range (total_iters p - serial_iters inv)) as Hr.
  pose proof (wrap64_range N) as HrN.
  rewrite <- Hp in Hr. unfold is_uint64 in *. rewrite Hper.
  assert (0 < wrap64 N) by lia.
  split.
  - apply Z.div_pos; lia.
  - apply Z.le_lt_trans with (parallel_iters inv); [|lia].
    apply Z.div_le_upper_bound; nia.
Qed.

Lemma nth_error_init_pool (ts : list (list op)) (j : nat) (t : thread) :
  nth_error (pl_threads (init_pool ts)) j = Some t ->
  exists w, nth_error ts j = Some w /\ t = {| th_status := Running; th_todo := w |}.
Proof.
  unfold init_pool. simpl. rewrite nth_error_map.
  destruct (nth_error ts j) as [w|]; simpl; [|discriminate].
  intros H. inversion H. eauto.
Qed.

Lemma waiting_init_pool (ts : list (list op)) : waiting (init_pool ts) = O.
Proof.
  unfold waiting, init_pool. simpl. induction ts as [|w ts IH]; simpl; auto.
Qed.

Lemma pool_inv_init (w : list op) (n : nat) :
  lock_scoped false w = true -> Forall busy_ok w ->
  pool_inv (init_pool (repeat w n)).
Proof.
  intros Hl Hb. unfold pool_inv. rewrite waiting_init_pool.
  split; [reflexivity|]. split; [|split; [|split]].
  - destruct n as [|n]; [left; reflexivity|right].
    unfold init_pool. simpl. lia.
  - exists (count_ops is_arrive w). intros j t Ht.
    destruct (nth_error_init_pool _ j t Ht) as (w' & Hw & ->).
    apply nth_error_In, repeat_spec in Hw. subst w'.
    unfold arrivals_left, at_barrier. simpl. lia.
  - intros j t Ht.
    destruct (nth_error_init_pool _ j t Ht) as (w' & Hw & ->).
    apply nth_error_In, repeat_spec in Hw. subst w'.
    unfold holds. simpl. auto.
  - intros h Hh. discriminate.
Qed.

Lemma pool_inv_step (c c' : pool) (i : nat) :
  pool_inv c -> step c i = Some c' -> pool_inv c'.
Proof.
  intros (Hw & Hsome & (G & HG) & Hl & Hh) Hs.
  destruct (step_cases c c' i Hs) as (o & rest & Hn & _ & _ & _ & Ht & Ha & Hm).
  assert (Hi : (i < length (pl_threads c))%nat) by (apply nth_error_Some; congruence).
  destruct (Hl i _ Hn) as (Hsc & _ & Hb). cbn [th_todo] in Hsc, Hb.
  apply lock_scoped_head in Hsc.
  inversion Hb as [|o0 l0 Hbo Hbrest]; subst o0 l0.
  pose proof (HG i _ Hn) as HGi. unfold arrivals_left, at_barrier in HGi.
  cbn [th_todo th_status] in HGi. rewrite count_ops_cons in HGi.
  (* the mutex *)
  assert (F : (forall j, j <> i -> holds c' j = holds c j) /\
              lock_scoped (holds c' i) rest = true /\
              (o = ArriveAndWait -> holds c' i = false) /\
              (forall h, pl_mutex c' = Some h -> (h < length (pl_threads c))%nat)).
  { unfold holds in *.
    destruct o; try (rewrite Hm; destruct Hsc as [Hsc1 Hsc2]; rewrite Hsc1;
                     repeat split; auto; discriminate).
    - destruct Hm as [Hm1 Hm2]. rewrite Hm1, Hm2 in *. destruct Hsc as [_ Hsc2].
      rewrite Nat.eqb_refl. repeat split; auto; try discriminate.
      + intros j Hj. apply Nat.eqb_neq. congruence.
      + intros h E. inversion E. subst h. exact Hi.
    - rewrite Hm. destruct Hsc as [Hsc1 Hsc2].
      repeat split; auto; try discriminate.
      intros j Hj. destruct (pl_mutex c) as [h|]; [|reflexivity].
      apply Nat.eqb_eq in Hsc1. subst h. symmetry. apply Nat.eqb_neq. congruence. }
  destruct F as (F1 & F2 & F3 & F4).
  (* the part of the invariant that speaks of the mutex, for a thread list
     that differs from the old one at [i] only *)
  assert (L : forall st,
            (st = AtBarrier -> o = ArriveAndWait) ->
            forall j t,
              nth_error (set_nth i {| th_status := st; th_todo := rest |} (pl_threads c)) j
              = Some t ->
              lock_scoped (holds c' j) (th_todo t) = true /\
              (at_barrier t = true -> holds c' j = false) /\
              Forall busy_ok (th_todo t)).
  { intros st Hst j t Hj. destruct (Nat.eq_dec i j) as [E|E].
    - subst j. rewrite (nth_error_set_nth_same _ _ _ _ Hn) in Hj.
      inversion Hj; subst t. cbn [th_todo]. split; [exact F2|]. split; [|exact Hbrest].
      unfold at_barrier. cbn [th_status]. destruct st; [discriminate|].
      intros _. apply F3. now apply Hst.
    - rewrite (nth_error_set_nth_other _ _ _ _ E) in Hj.
      rewrite F1 by congruence. exact (Hl j t Hj). }
  unfold pool_inv.
  destruct (is_arrive o) eqn:Eo.
  - destruct o; try discriminate. clear Eo.
    destruct (Nat.eqb (S (pl_arrived c)) (length (pl_threads c))) eqn:Efull.
    + (* the last thread arrives: everybody is released *)
      apply Nat.eqb_eq in Efull. rewrite Ht, Ha.
      unfold waiting. rewrite Ht, filter_release, length_map, set_nth_length.
      cbn [length]. split; [reflexivity|]. split; [right; lia|].
      split; [|split].
      * exists (G - 1). intros j t Hj.
        apply nth_error_map_release in Hj. destruct Hj as (t0 & Hj & ->).
        unfold arrivals_left, at_barrier, release. cbn [th_status th_todo].
        destruct (Nat.eq_dec i j) as [E|E].
        -- subst j. rewrite (nth_error_set_nth_same _ _ _ _ Hn) in Hj.
           inversion Hj; subst t0. cbn [th_todo]. cbn [is_arrive] in HGi. lia.
        -- rewrite (nth_error_set_nth_other _ _ _ _ E) in Hj.
           pose proof (HG j t0 Hj) as HGj.
           assert (Hbar : at_barrier t0 = true).
           { apply (filter_length_all_but at_barrier (pl_threads c) i _ Hn eq_refl)
               with (j := j); [|congruence|exact Hj].
             unfold waiting in Hw. lia. }
           rewrite Hbar in HGj. unfold arrivals_left in HGj. lia.
      * intros j t Hj.
        apply nth_error_map_release in Hj. destruct Hj as (t0 & Hj & ->).
        destruct (L Running ltac:(discriminate) j t0 Hj) as (L1 & _ & L3).
        unfold release, at_barrier. cbn [th_todo th_status].
        split; [exact L1|]. split; [discriminate|exact L3].
      * exact F4.
    + (* the thread waits *)
      apply Nat.eqb_neq in Efull. rewrite Ha.
      assert (Wc : waiting c' = S (waiting c)).
      { unfold waiting. rewrite Ht.
        pose proof (filter_set_nth at_barrier (pl_threads c) i
                      {| th_status := AtBarrier; th_todo := rest |} _ Hn) as Hf.
        unfold at_barrier at 2 4 in Hf. cbn [th_status] in Hf. lia. }
      rewrite Wc, Ht, set_nth_length.
      split; [congruence|]. split; [right|split; [|split]].
      * destruct Hsome as [E|Hlt]; [rewrite E in Hi; simpl in Hi; lia|]. lia.
      * exists G. intros j t Hj. destruct (Nat.eq_dec i j) as [E|E].
        -- subst j. rewrite (nth_error_set_nth_same _ _ _ _ Hn) in Hj.
           inversion Hj; subst t. unfold arrivals_left, at_barrier.
           cbn [th_status th_todo]. cbn [is_arrive] in HGi. lia.
        -- rewrite (nth_error_set_nth_other _ _ _ _ E) in Hj. exact (HG j t Hj).
      * exact (L AtBarrier ltac:(reflexivity)).
      * exact F4.
  - (* any other operation *)
    assert (Ht' : pl_threads c'
                  = set_nth i {| th_status := Running; th_todo := rest |} (pl_threads c))
      by (destruct o; try discriminate; exact Ht).
    assert (Ha' : pl_arrived c' = pl_arrived c)
      by (destruct o; try discriminate; exact Ha).
    assert (Wc : waiting c' = waiting c).
    { unfold waiting. rewrite Ht'.
      pose proof (filter_set_nth at_barrier (pl_threads c) i
                    {| th_status := Running; th_todo := rest |} _ Hn) as Hf.
      unfold at_barrier at 2 4 in Hf. cbn [th_status] in Hf. lia. }
    rewrite Wc, Ha', Ht', set_nth_length.
    split; [exact Hw|]. split; [right|split; [|split]].
    + destruct Hsome as [E|Hlt]; [rewrite E in Hi; simpl in Hi; lia|]. lia.
    + exists G. intros j t Hj. destruct (Nat.eq_dec i j) as [E|E].
      * subst j. rewrite (nth_error_set_nth_same _ _ _ _ Hn) in Hj.
        inversion Hj; subst t. unfold arrivals_left, at_barrier.
        cbn [th_status th_todo]. lia.
      * rewrite (nth_error_set_nth_other _ _ _ _ E) in Hj. exact (HG j t Hj).
    + apply (L Running). discriminate.
    + exact F4.
Qed.

Lemma pool_inv_exec (sched : list nat) (c : pool) :
  pool_inv c -> pool_inv (exec sched c).
Proof. apply exec_invariant. intros c0 c' i. apply pool_inv_step. Qed.

Lemma pool_inv_workers (p : RunParameters) (N : Z) (inv : Invocation) (sched : list nat) :
  run_with p N = Some inv -> pool_inv (exec sched (init_pool (threads inv))).
Proof.
  intros H. apply pool_inv_exec. rewrite (threads_repeat p N inv H).
  apply pool_inv_init.
  - apply worker_lock_scoped.
  - apply worker_busy_ok. apply (per_is_uint64 p N inv H).
Qed.

(** ** The mutex *)

Lemma lock_discipline_step (c c' : pool) (i : nat) :
  pool_inv c ->
  lock_discipline (pl_trace c) = Some (pl_mutex c) ->
  step c i = Some c' ->
  lock_discipline (pl_trace c') = Some (pl_mutex c').
Proof.
  intros (_ & _ & _ & Hl & _) HD Hs.
  destruct (step_cases c c' i Hs) as (o & rest & Hn & Htr & _ & _ & _ & _ & Hm).
  destruct (Hl i _ Hn) as (Hsc & _ & _). cbn [th_todo] in Hsc.
  apply lock_scoped_head in Hsc.
  unfold lock_discipline in *. rewrite Htr, fold_left_app, HD.
  unfold holds in Hsc. cbn [fold_left lock_event fst snd].
  destruct o; try (rewrite Hm; destruct (pl_mutex c); reflexivity).
  - destruct Hm as [Hm1 Hm2]. rewrite Hm1, Hm2. reflexivity.
  - rewrite Hm. destruct Hsc as [Hsc _].
    destruct (pl_mutex c) as [h|]; [|discriminate]. now rewrite Hsc.
Qed.

Lemma holder_about_to_unlock (c : pool) (h : nat) :
  pool_inv c -> pl_mutex c = Some h ->
  exists rest,
    nth_error (pl_threads c) h
    = Some {| th_status := Running; th_todo := MutexUnlock :: rest |}.
Proof.
  intros (_ & _ & _ & Hl & Hh) Hm.
  specialize (Hh h Hm). apply nth_error_Some in Hh.
  destruct (nth_error (pl_threads c) h) as [[st todo]|] eqn:En; [|congruence].
  destruct (Hl h _ En) as (Hsc & Hbar & _).
  unfold holds in *. rewrite Hm, Nat.eqb_refl in *. cbn [th_todo] in Hsc.
  destruct (lock_scoped_held todo Hsc) as [rest ->].
  exists rest. destruct st; [reflexivity|].
  specialize (Hbar eq_refl). discriminate.
Qed.

(** X4: critical sections never overlap.  Under every schedule of the
    threads of an invocation, the trace obeys the mutex: every
    [lock_guard] is constructed when no thread holds [m], every unlock is
    made by the thread that holds it, and the holder the trace leaves is
    the one the pool records; a thread holding [m] is not blocked and its
    next operation is the unlock, the critical section being empty. *)
Theorem critical_sections_never_overlap
  (p : RunParameters) (N : Z) (inv : Invocation) (sched : list nat) :
  run_with p N = Some inv ->
  let c := exec sched (init_pool (threads inv)) in
  lock_discipline (pl_trace c) = Some (pl_mutex c) /\
  (forall h, pl_mutex c = Some h ->
     exists rest,
       nth_error (pl_threads c) h
       = Some {| th_status := Running; th_todo := MutexUnlock :: rest |}).
Proof.
  intros H c.
  assert (P : pool_inv c /\ lock_discipline (pl_trace c) = Some (pl_mutex c)).
  { apply (exec_invariant
             (fun c => pool_inv c /\ lock_discipline (pl_trace c) = Some (pl_mutex c))).
    - intros c0 c' i [Hinv HD] Hs. split.
      + now apply (pool_inv_step c0 c' i).
      + now apply (lock_discipline_step c0 c' i).
    - split; [|reflexivity].
      apply (pool_inv_workers p N inv [] H). }
  destruct P as [Hinv HD]. split; [exact HD|].
  intros h Hm. now apply holder_about_to_unlock.
Qed.

Lemma critical_sections_never_overlap_witness :
  let c := exec (round_robin 16) (init_pool (threads sample_invocation)) in
  lock_discipline (pl_trace c) = Some (Some 0%nat) /\
  exists rest,
    nth_error (pl_threads c) 0
    = Some {| th_status := Running; th_todo := MutexUnlock :: rest |}.
Proof.
  destruct (critical_sections_never_overlap (small_params lit_0_10 1000 4) 2
              sample_invocation (round_robin 16) sample_invocation_runs) as [H1 H2].
  split.
  - rewrite H1. vm_compute. reflexivity.
  - apply H2. vm_compute. reflexivity.
Defined.

(** ** The barrier *)

Lemma arrivals_done_by (j : nat) (tr : list (nat * op)) :
  count_ops is_arrive (map snd (filter (fun e => Nat.eqb (fst e) j) tr))
  = Z.of_nat (arrivals j tr).
Proof.
  unfold arrivals, count_ops. f_equal.
  induction tr as [|[i o] tr IH]; [reflexivity|].
  simpl. destruct (Nat.eqb i j); simpl; [|exact IH].
  destruct (is_arrive o); simpl; now rewrite IH.
Qed.

(** Arrivals made and arrivals still to make are those of the program. *)
Lemma arrivals_balance (w : list op) (n : nat) (sched : list nat) (j : nat) (t : thread) :
  let c := exec sched (init_pool (repeat w n)) in
  nth_error (pl_threads c) j = Some t ->
  (j < n)%nat ->
  Z.of_nat (arrivals j (pl_trace c)) + arrivals_left t = count_ops is_arrive w.
Proof.
  intros c Ht Hj.
  pose proof (exec_program_order sched (init_pool (repeat w n)) j) as E.
  fold c in E. rewrite init_pool_program, nth_repeat_lt in E by exact Hj.
  unfold todo_of in E. rewrite Ht in E.
  rewrite <- E, count_ops_app. unfold done_by. rewrite arrivals_done_by.
  reflexivity.
Qed.

Lemma exec_length (sched : list nat) (c : pool) :
  length (pl_threads (exec sched c)) = length (pl_threads c).
Proof.
  apply (exec_invariant (fun c' => length (pl_threads c') = length (pl_threads c)));
    [|reflexivity].
  intros c0 c' i H Hs.
  destruct (step_cases c0 c' i Hs) as (o & rest & _ & _ & _ & _ & Ht & _).
  rewrite <- H, Ht.
  destruct o; try apply set_nth_length.
  destruct (Nat.eqb _ _); [rewrite length_map|]; apply set_nth_length.
Qed.

Lemma init_pool_length (ts : list (list op)) :
  length (pl_threads (init_pool ts)) = length ts.
Proof. unfold init_pool. simpl. apply length_map. Qed.

(** Threads are never more than one arrival apart, and a thread that is
    not blocked is behind no other. *)
Lemma arrivals_aligned (w : list op) (n : nat) (sched : list nat) (i j : nat) :
  lock_scoped false w = true -> Forall busy_ok w ->
  let c := exec sched (init_pool (repeat w n)) in
  (i < n)%nat -> (j < n)%nat ->
  (arrivals i (pl_trace c) <= arrivals j (pl_trace c) + 1)%nat /\
  (forall t, nth_error (pl_threads c) i = Some t -> at_barrier t = false ->
     (arrivals i (pl_trace c) <= arrivals j (pl_trace c))%nat).
Proof.
  intros Hl Hb c Hi Hj.
  assert (Hinv : pool_inv c) by (apply pool_inv_exec; now apply pool_inv_init).
  assert (Hlen : length (pl_threads c) = n).
  { unfold c. now rewrite exec_length, init_pool_length, repeat_length. }
  destruct (nth_error (pl_threads c) i) as [ti|] eqn:Ei;
    [|apply nth_error_None in Ei; lia].
  destruct (nth_error (pl_threads c) j) as [tj|] eqn:Ej;
    [|apply nth_error_None in Ej; lia].
  pose proof (arrivals_balance w n sched i ti Ei Hi) as Bi.
  pose proof (arrivals_balance w n sched j tj Ej Hj) as Bj.
  fold c in Bi, Bj.
  destruct Hinv as (_ & _ & (G & HG) & _).
  pose proof (HG i ti Ei) as Gi. pose proof (HG j tj Ej) as Gj.
  split.
  - destruct (at_barrier ti), (at_barrier tj); lia.
  - intros t Et Hrun. inversion Et; subst t. rewrite Hrun in Gi.
    destruct (at_barrier tj); lia.
Qed.

Lemma barrier_trace (w : list op) (n : nat) :
  lock_scoped false w = true -> Forall busy_ok w ->
  forall (sched : list nat) (tr1 tr2 : list (nat * op)) (i j : nat) (o : op),
    pl_trace (exec sched (init_pool (repeat w n))) = tr1 ++ (i, o) :: tr2 ->
    (j < n)%nat ->
    (arrivals i tr1 <= arrivals j tr1)%nat.
Proof.
  intros Hl Hb sched.
  induction sched as [|x sched IH] using rev_ind; intros tr1 tr2 i j o Htr Hj.
  - simpl in Htr. destruct tr1; discriminate.
  - rewrite exec_app in Htr. simpl in Htr.
    set (c := exec sched (init_pool (repeat w n))) in *.
    destruct (step c x) as [c'|] eqn:Hs; [|now apply (IH tr1 tr2 i j o)].
    destruct (step_cases c c' x Hs) as (o' & rest & Hn & Ht & _).
    rewrite Ht in Htr.
    destruct (exists_last (l := (i, o) :: tr2) ltac:(discriminate)) as (l' & e & El).
    destruct l' as [|e0 l'].
    + (* the operation is the last of the trace *)
      simpl in El. inversion El; subst e tr2.
      apply app_inj_tail in Htr. destruct Htr as [Htr Ee].
      inversion Ee; subst x o'. subst tr1.
      assert (Hi : (i < n)%nat).
      { assert (Hlen : length (pl_threads c) = n)
          by (unfold c; now rewrite exec_length, init_pool_length, repeat_length).
        rewrite <- Hlen. apply nth_error_Some. congruence. }
      apply (proj2 (arrivals_aligned w n sched i j Hl Hb Hi Hj) _ Hn). reflexivity.
    + simpl in El. inversion El as [[E0 E1]]. subst e0.
      rewrite E1 in Htr.
      change (tr1 ++ (i, o) :: l' ++ [e]) with (tr1 ++ ((i, o) :: l') ++ [e]) in Htr.
      rewrite app_assoc in Htr. apply app_inj_tail in Htr. destruct Htr as [Htr _].
      symmetry in Htr. now apply (IH tr1 l' i j o).
Qed.

(** X5: the barrier aligns the rounds.  Under every schedule of the [N]
    threads of an invocation, whenever a thread performs an operation,
    every thread has arrived at [sync_point] at least as many times as it
    has -- so no thread starts the increments of a round before all
    threads have arrived at the rendezvous of that round --; and two
    threads are never more than one arrival apart. *)
Theorem barrier_aligns_rounds
  (p : RunParameters) (N : Z) (inv : Invocation) (sched : list nat) (i j : nat) :
  run_with p N = Some inv ->
  (i < length (threads inv))%nat ->
  (j < length (threads inv))%nat ->
  let c := exec sched (init_pool (threads inv)) in
  (arrivals i (pl_trace c) <= arrivals j (pl_trace c) + 1)%nat /\
  (forall tr1 o tr2,
     pl_trace c = tr1 ++ (i, o) :: tr2 ->
     (arrivals i tr1 <= arrivals j tr1)%nat).
Proof.
  intros H Hi Hj c. unfold c. clear c.
  rewrite (threads_repeat p N inv H) in *. rewrite repeat_length in Hi, Hj.
  pose proof (worker_lock_scoped p (per inv)) as Hl.
  pose proof (worker_busy_ok p (per inv) (per_is_uint64 p N inv H)) as Hb.
  split.
  - apply (arrivals_aligned _ _ sched i j Hl Hb Hi Hj).
  - intros tr1 o tr2 Htr.
    apply (barrier_trace _ _ Hl Hb sched tr1 tr2 i j o Htr Hj).
Qed.

Lemma barrier_aligns_rounds_witness :
  let c := exec [0; 1; 1; 0; 0; 1; 0; 1; 1]%nat (init_pool (threads sample_invocation)) in
  pl_trace c
  = [(0, BusyWork 450); (1, BusyWork 450); (1, ArriveAndWait); (0, ArriveAndWait)]%nat
    ++ (0%nat, HotFetchAdd)
       :: [(1, HotFetchAdd); (0, HotFetchAdd); (1, HotFetchAdd); (1, HotFetchAdd)]%nat /\
  (arrivals 0
     [(0, BusyWork 450); (1, BusyWork 450); (1, ArriveAndWait); (0, ArriveAndWait)]%nat
   <= arrivals 1
        [(0, BusyWork 450); (1, BusyWork 450); (1, ArriveAndWait); (0, ArriveAndWait)]%nat)%nat.
Proof.
  assert (Hi : (0 < length (threads sample_invocation))%nat) by (repeat constructor).
  assert (Hj : (1 < length (threads sample_invocation))%nat) by (repeat constructor).
  destruct (barrier_aligns_rounds (small_params lit_0_10 1000 4) 2 sample_invocation
              [0; 1; 1; 0; 0; 1; 0; 1; 1]%nat 0%nat 1%nat
              sample_invocation_runs Hi Hj) as [_ H2].
  assert (E : pl_trace
                (exec [0; 1; 1; 0; 0; 1; 0; 1; 1]%nat
                   (init_pool (threads sample_invocation)))
              = [(0, BusyWork 450); (1, BusyWork 450); (1, ArriveAndWait);
                 (0, ArriveAndWait)]%nat
                ++ (0%nat, HotFetchAdd)
                   :: [(1, HotFetchAdd); (0, HotFetchAdd); (1, HotFetchAdd);
                       (1, HotFetchAdd)]%nat)
    by (vm_compute; reflexivity).
  split; [exact E|]. exact (H2 _ _ _ E).
Defined.

(** ** No deadlock *)

Lemma not_joined_thread (c : pool) :
  all_joined c = false ->
  exists j t o rest, nth_error (pl_threads c) j = Some t /\ th_todo t = o :: rest.
Proof.
  unfold all_joined. induction (pl_threads c) as [|t l IH]; simpl; [discriminate|].
  intros H. apply andb_false_iff in H. destruct H as [H|H].
  - destruct (th_todo t) as [|o rest] eqn:E; [discriminate|].
    exists O, t, o, rest. auto.
  - destruct (IH H) as (j & t' & o & rest & Hj & Ht).
    exists (S j), t', o, rest. auto.
Qed.

(** A thread that is not blocked at the barrier and has something to do
    can move, or waits for a mutex whose holder can. *)
Lemma running_thread_moves (c : pool) (x : nat) (o : op) (rest : list op) :
  pool_inv c ->
  nth_error (pl_threads c) x = Some {| th_status := Running; th_todo := o :: rest |} ->
  exists i c', step c i = Some c'.
Proof.
  intros Hinv Hx.
  pose proof Hinv as (_ & _ & _ & Hl & _).
  destruct (Hl x _ Hx) as (_ & _ & Hb). cbn [th_todo] in Hb.
  inversion Hb as [|o0 l0 Hbo _]; subst o0 l0.
  destruct (pl_mutex c) as [h|] eqn:Em.
  - destruct (holder_about_to_unlock c h Hinv Em) as [rest' Hh].
    exists h. apply (step_enabled c h MutexUnlock rest' Hh); [exact I|discriminate].
  - exists x. apply (step_enabled c x o rest Hx Hbo). intros _. exact Em.
Qed.

Lemma pool_progress (c : pool) :
  pool_inv c -> all_joined c = false -> exists i c', step c i = Some c'.
Proof.
  intros Hinv Hj.
  destruct (not_joined_thread c Hj) as (a & ta & oa & resta & Ha & Hta).
  pose proof Hinv as (_ & Hsome & (G & HG) & _).
  destruct Hsome as [E|Hlt]; [rewrite E in Ha; destruct a; discriminate|].
  destruct (filter_length_some_not at_barrier _ Hlt) as (b & tb & Hb & Hrun).
  destruct tb as [stb todob]. unfold at_barrier in Hrun. cbn [th_status] in Hrun.
  destruct stb; [|discriminate].
  destruct todob as [|ob restb].
  - (* a running thread has finished: nobody is left at the barrier *)
    pose proof (HG b _ Hb) as Gb. unfold arrivals_left, at_barrier in Gb.
    cbn [th_todo th_status] in Gb. change (count_ops is_arrive []) with 0 in Gb.
    pose proof (HG a ta Ha) as Ga.
    destruct ta as [sta todoa]. cbn [th_todo] in Hta. subst todoa.
    unfold arrivals_left, at_barrier in Ga. cbn [th_todo th_status] in Ga.
    pose proof (count_ops_nonneg is_arrive (oa :: resta)).
    destruct sta; [|lia].
    apply (running_thread_moves c a oa resta Hinv Ha).
  - apply (running_thread_moves c b ob restb Hinv Hb).
Qed.

Lemma ops_left_step (c c' : pool) (i : nat) :
  step c i = Some c' -> ops_left c = S (ops_left c').
Proof.
  intros Hs. destruct (step_effect c c' i Hs) as (o & rest & Hn & Ht & _).
  unfold ops_left. rewrite Ht. clear Ht Hs.
  revert i Hn. induction (todos c) as [|a ls IH]; intros [|i] H; simpl in H;
    try discriminate.
  - inversion H; subst a. unfold set_nth. simpl. reflexivity.
  - rewrite set_nth_cons. simpl. rewrite (IH i H). lia.
Qed.

Lemma all_joined_ops_left (c : pool) : all_joined c = true -> ops_left c = O.
Proof.
  intros H. apply all_joined_todos in H. unfold ops_left.
  induction H as [|l ls Hl _ IH]; [reflexivity|].
  simpl. now rewrite IH, Hl.
Qed.

Lemma pool_completes (n : nat) : forall c,
  ops_left c = n -> pool_inv c ->
  exists rest, length rest = n /\ all_joined (exec rest c) = true.
Proof.
  induction n as [|n IH]; intros c Hn Hinv.
  - exists []. split; [reflexivity|]. simpl.
    destruct (all_joined c) eqn:E; [reflexivity|].
    destruct (pool_progress c Hinv E) as (i & c' & Hs).
    rewrite (ops_left_step c c' i Hs) in Hn. discriminate.
  - destruct (all_joined c) eqn:E.
    + rewrite (all_joined_ops_left c E) in Hn. discriminate.
    + destruct (pool_progress c Hinv E) as (i & c' & Hs).
      destruct (IH c') as (rest & Hlen & Hj).
      * rewrite (ops_left_step c c' i Hs) in Hn. congruence.
      * apply (pool_inv_step c c' i Hinv Hs).
      * exists (i :: rest). split; [simpl; congruence|].
        simpl. now rewrite Hs.
Qed.

(** X6: the threads of an invocation never deadlock, so the joins return.
    Under every schedule, as long as some thread has not finished, some
    thread can perform its next operation (a thread at the barrier is
    released by the last arrival, a thread waiting for the mutex by the
    holder's unlock); and from every state a schedule of as many turns as
    there are operations left brings all threads to their end. *)
Theorem workers_never_deadlock
  (p : RunParameters) (N : Z) (inv : Invocation) (sched : list nat) :
  run_with p N = Some inv ->
  let c := exec sched (init_pool (threads inv)) in
  (all_joined c = false -> exists i c', step c i = Some c') /\
  exists rest,
    length rest = ops_left c /\
    all_joined (exec (sched ++ rest) (init_pool (threads inv))) = true.
Proof.
  intros H c.
  pose proof (pool_inv_workers p N inv sched H) as Hinv. fold c in Hinv.
  split; [apply (pool_progress c Hinv)|].
  destruct (pool_completes (ops_left c) c eq_refl Hinv) as (rest & Hlen & Hj).
  exists rest. split; [exact Hlen|]. now rewrite exec_app.
Qed.

Lemma workers_never_deadlock_witness :
  let c := exec [0; 0; 0; 1]%nat (init_pool (threads sample_invocation)) in
  all_joined c = false /\
  step c 0 = None /\
  (exists i c', step c i = Some c') /\
  exists rest,
    length rest = 35%nat /\
    all_joined (exec ([0; 0; 0; 1]%nat ++ rest) (init_pool (threads sample_invocation)))
    = true.
Proof.
  destruct (workers_never_deadlock (small_params lit_0_10 1000 4) 2 sample_invocation
              [0; 0; 0; 1]%nat sample_invocation_runs) as [H1 H2].
  split; [vm_compute; reflexivity|].
  split; [vm_compute; reflexivity|].
  split; [apply H1; vm_compute; reflexivity|].
  destruct H2 as (rest & Hlen & Hj). exists rest. split; [|exact Hj].
  rewrite Hlen. vm_compute. reflexivity.
Defined.

(** ** The sweep as a whole *)

Lemma threads_launched_sum (p : RunParameters) (invs : list Invocation) : forall l,
  map Some invs = map (run_with p) l ->
  Forall (fun z => 0 <= z) l ->
  threads_launched invs = fold_right Z.add 0 l.
Proof.
  induction invs as [|inv invs IH]; intros [|z l] H Hl; simpl in H;
    try discriminate; [reflexivity|].
  inversion H as [[H1 H2]]. symmetry in H1.
  inversion Hl as [|z0 l0 Hz Hl']; subst z0 l0.
  unfold threads_launched in *. simpl.
  rewrite (IH l H2 Hl'), (threads_repeat p z inv H1), repeat_length.
  cbv beta in Hz. lia.
Qed.

Lemma Zseq_sum (n : nat) : forall lo,
  2 * fold_right Z.add 0 (Zseq lo n) = Z.of_nat n * (2 * lo + Z.of_nat n - 1).
Proof.
  induction n as [|n IH]; intros lo; [cbn [Zseq fold_right]; lia|].
  rewrite Nat2Z.inj_succ. cbn [Zseq fold_right]. specialize (IH (lo + 1)). nia.
Qed.

(** X8: the threads of a sweep.  The invocations of a sweep launch
    [1 + 2 + ... + m = m * (m + 1) / 2] worker threads in all, [m] being
    [maxN], or [1] for the baseline alone when [maxN < 1]. *)
Theorem sweep_launches_triangular_threads
  (clock : nat -> double) (p : RunParameters) (serial : Z) :
  serial_of p = Some serial ->
  maxN p < INT_MAX ->
  exists st,
    sweep_controller clock p = Some st /\
    2 * threads_launched (invocations st)
    = Z.max 1 (maxN p) * (Z.max 1 (maxN p) + 1).
Proof.
  intros Hs Hm.
  destruct (sweep_controller_rows clock p serial Hs Hm) as (st & Hst & _ & Hinv).
  exists st. split; [exact Hst|].
  rewrite (threads_launched_sum p _ _ Hinv).
  - rewrite Zseq_sum. lia.
  - eapply Forall_impl; [|apply Zseq_lower]. simpl. intros; lia.
Qed.

Lemma sweep_launches_triangular_threads_witness :
  exists st,
    sweep_controller sample_clock (small_params lit_0_10 1000 4) = Some st /\
    2 * threads_launched (invocations st) = 4 * 5.
Proof.
  destruct (sweep_launches_triangular_threads sample_clock
              (small_params lit_0_10 1000 4) 100) as (st & H1 & H2).
  - vm_compute. reflexivity.
  - vm_compute. reflexivity.
  - exists st. split; [exact H1 | exact H2].
Defined.

(** ** Bounds on the theoretical curves *)

(** X9: Amdahl's curve never predicts a slowdown.  For a serial fraction
    in [[0, 1]] and [1 <= N <= INT_MAX], [amdahl(s, N) >= 1.0] in binary64
    arithmetic, and a workload that is all serial ([s = 1.0]) has the
    speedup [1.0] exactly, whatever [N]. *)
Theorem amdahl_at_least_one (sf : double) (N : Z) :
  is_double sf -> leb zero sf = true -> leb sf one = true ->
  1 <= N <= INT_MAX ->
  leb one (amdahl sf N) = true /\
  (sf = one -> amdahl sf N = one).
Proof.
  intros Hd H0 H1 HN. split.
  - destruct (amdahl_props sf N Hd H0 H1 HN) as [Hr _].
    destruct (denominator_props sf N Hd H0 H1 HN) as (Hp & _).
    pose proof (posfin_pos _ Hp) as Hpos.
    pose proof (denominator_mono sf 1 N Hd H0 H1 ltac:(lia) ltac:(lia) ltac:(lia)) as Hm.
    rewrite (denominator_at_one sf Hd H0 H1), to_Q_one in Hm.
    apply (rounds_to_leb (to_Q one) (1 / to_Q (denominator sf N))).
    + apply posfin_rounds_self. apply posfin_one.
    + exact Hr.
    + rewrite to_Q_one. apply Qle_shift_div_l; [exact Hpos|].
      now rewrite Qmult_1_l.
  - intros ->. rewrite amdahl_denominator, (denominator_one N HN).
    vm_compute. reflexivity.
Qed.

Lemma amdahl_at_least_one_witness :
  leb one (amdahl lit_0_10 100) = true /\ amdahl one 100 = one.
Proof.
  destruct (amdahl_at_least_one lit_0_10 100) as [H _];
    try (vm_compute; reflexivity).
  - vm_compute. split; discriminate.
  - split; [exact H|].
    apply (amdahl_at_least_one one 100); try (vm_compute; reflexivity).
    vm_compute. split; discriminate.
Defined.

(** The curve can exceed [N], though: with [s = 0] it is [1/(1/N)], two
    roundings, which for [N = 49] is the [double] next above [49]. *)
Lemma amdahl_above_linear : ltb (of_Z 49) (amdahl zero 49) = true.
Proof. vm_compute. reflexivity. Qed.

(** ** The default of [lock_iters] *)

Lemma unit_cases (sf : double) :
  is_double sf -> leb zero sf = true -> leb sf one = true ->
  (exists s0, sf = S754_zero s0) \/ (posfin sf /\ (to_Q sf <= 1)%Q).
Proof.
  intros Hd H0 H1.
  destruct (unit_interval_cases sf Hd H0 H1) as [Hz|[->|[Hp Hle]]].
  - now left.
  - right. split; [apply posfin_one|]. rewrite to_Q_one. apply Qle_refl.
  - right. split; [exact Hp|].
    eapply Qle_trans; [exact Hle|]. vm_compute. discriminate.
Qed.

Lemma rounds_to_zero_or_posfin (x : Q) (X : double) :
  rounds_to x X -> (x < pow2 1023)%Q -> X = S754_zero false \/ posfin X.
Proof.
  intros (k & Hb & ->) Hx.
  assert (Hk : k <= 1023).
  { destruct Hb as [H1 _].
    assert (Hlt : (pow2 (k - 1) < pow2 1023)%Q) by (eapply Qle_lt_trans; eassumption).
    apply pow2_lt_inv in Hlt. lia. }
  destruct (RND_pack false x k Hb) as (E & P & _).
  pose proof (no_overflow x k Hb Hk) as Hov.
  rewrite E.
  destruct (Z.eq_dec (rne4 (scode x (fexp prec emax k))) 0) as [E0|E0].
  - left. rewrite E0. reflexivity.
  - right.
    destruct (pack_finite false _ _ P ltac:(unfold packable in P; lia) Hov)
      as (m & e & Ep & _ & _ & Hbd).
    exists m, e. split; [exact Ep | exact Hbd].
Qed.

Lemma to_Q_of_Z_small (N : Z) :
  0 < N < 2 ^ 53 -> (to_Q (of_Z N) == inject_Z N)%Q.
Proof.
  intros HN.
  assert (Hlt : (inject_Z N < pow2 1023)%Q).
  { rewrite (pow2_Z 1023) by lia. rewrite <- Zlt_Qlt.
    assert (2 ^ 53 < 2 ^ 1023) by reflexivity. lia. }
  pose proof (of_Z_rounds N ltac:(lia)) as Hr.
  destruct (rounding_error (inject_Z N) (of_Z N) 1023 Hr Hlt ltac:(lia)) as [_ _].
  destruct Hr as (k & Hb & E).
  destruct (RND_pack false (inject_Z N) k Hb) as (Ep & P & _).
  assert (Hk : 1 <= k <= 53).
  { destruct Hb as [B1 B2]. split.
    - apply Z.nlt_ge. intros Hk.
      assert (Hc : (pow2 k <= pow2 0)%Q) by (apply pow2_le; lia).
      change (pow2 0) with (inject_Z 1) in Hc.
      assert (Hc2 : (inject_Z N < inject_Z 1)%Q) by (eapply Qlt_le_trans; eassumption).
      rewrite <- Zlt_Qlt in Hc2. lia.
    - assert (Hc : (pow2 (k - 1) < pow2 53)%Q).
      { eapply Qle_lt_trans; [exact B1|]. rewrite (pow2_Z 53) by lia.
        rewrite <- Zlt_Qlt. lia. }
      apply pow2_lt_inv in Hc. lia. }
  assert (Ee : fexp prec emax k = k - 53) by (rewrite fexp_eq; lia).
  rewrite Ee in *.
  assert (Es : scode (inject_Z N) (k - 53) = 4 * (N * 2 ^ (53 - k))).
  { apply scode_exact with (e := k - 53) (m := N * 2 ^ (53 - k)).
    rewrite inject_Z_mult, <- (pow2_Z (53 - k)) by lia.
    rewrite <- Qmult_assoc, <- pow2_add.
    replace (53 - k + (k - 53)) with 0 by ring.
    change (pow2 0) with 1%Q. now rewrite Qmult_1_r. }
  rewrite Es in *.
  assert (Er : rne4 (4 * (N * 2 ^ (53 - k))) = N * 2 ^ (53 - k)).
  { unfold rne4. rewrite (Z.mul_comm 4), Z.mod_mul, Z.div_mul by lia. reflexivity. }
  rewrite Er in *.
  rewrite E, Ep, pack_value; [| exact P |].
  - rewrite inject_Z_mult, <- (pow2_Z (53 - k)) by lia.
    rewrite <- Qmult_assoc, <- pow2_add.
    replace (53 - k + (k - 53)) with 0 by ring.
    change (pow2 0) with 1%Q. now rewrite Qmult_1_r.
  - pose proof (no_overflow (inject_Z N) k Hb ltac:(lia)) as Hov.
    rewrite Ee, Es, Er in Hov. exact Hov.
Qed.

Lemma posfin_of_Z (N : Z) : 1 <= N <= INT_MAX -> posfin (of_Z N).
Proof. intros HN. apply (of_Z_props N HN). Qed.

Lemma zero_or_posfin_nonneg (M : double) :
  (exists s0, M = S754_zero s0) \/ posfin M -> (0 <= to_Q M)%Q.
Proof.
  intros [[s0 ->]|Hp]; [apply Qle_refl|].
  apply Qlt_le_weak. now apply posfin_pos.
Qed.

(** [500*alpha] for [alpha] in [[0, 1]]. *)
Lemma scaled_alpha (al : double) :
  is_double al -> leb zero al = true -> leb al one = true ->
  ((exists s0, mul (of_Z 500) al = S754_zero s0) \/ posfin (mul (of_Z 500) al)) /\
  (to_Q (mul (of_Z 500) al) <= 500)%Q.
Proof.
  intros Hd H0 H1.
  destruct (unit_cases al Hd H0 H1) as [[s0 ->]|[Hp Hle]].
  - split; [left; exists s0; destruct s0; reflexivity|].
    destruct s0; vm_compute; discriminate.
  - assert (H500 : posfin (of_Z 500)) by (apply posfin_of_Z; unfold INT_MAX; lia).
    pose proof (to_Q_of_Z_small 500 ltac:(lia)) as E500.
    pose proof (mul_rounds (of_Z 500) al H500 Hp) as Hr.
    pose proof (posfin_pos al Hp) as Hpos.
    assert (Hx : (to_Q (of_Z 500) * to_Q al <= to_Q (of_Z 500))%Q).
    { rewrite E500. rewrite <- (Qmult_1_r (inject_Z 500)) at 2.
      rewrite !(Qmult_comm (inject_Z 500)).
      apply Qmult_le_compat_r; [exact Hle | discriminate]. }
    assert (Hlt : (to_Q (of_Z 500) < pow2 1023)%Q).
    { rewrite E500, (pow2_Z 1023) by lia. rewrite <- Zlt_Qlt. reflexivity. }
    split.
    + destruct (rounds_to_zero_or_posfin _ _ Hr) as [E|E].
      * eapply Qle_lt_trans; eassumption.
      * left. now exists false.
      * now right.
    + apply Qle_trans with (to_Q (of_Z 500)).
      * apply (rounds_to_value_le _ _ _ _ Hr (posfin_rounds_self _ H500) Hx Hlt).
      * rewrite E500. apply Qle_refl.
Qed.

Lemma scaled_alpha_mono (al al' : double) :
  is_double al -> leb zero al = true -> leb al one = true ->
  is_double al' -> leb zero al' = true -> leb al' one = true ->
  (to_Q al <= to_Q al')%Q ->
  (to_Q (mul (of_Z 500) al) <= to_Q (mul (of_Z 500) al'))%Q.
Proof.
  intros Hd H0 H1 Hd' H0' H1' Hle.
  destruct (scaled_alpha al' Hd' H0' H1') as [Hs' Hb'].
  destruct (unit_cases al Hd H0 H1) as [[s0 ->]|[Hp Hu]].
  - apply Qle_trans with 0%Q; [destruct s0; vm_compute; discriminate|].
    now apply zero_or_posfin_nonneg.
  - pose proof (posfin_pos al Hp) as Hpos.
    destruct (unit_cases al' Hd' H0' H1') as [[s0 ->]|[Hp' Hu']].
    + simpl to_Q in Hle at 2. exfalso. apply (Qlt_irrefl 0).
      eapply Qlt_le_trans; eassumption.
    + assert (H500 : posfin (of_Z 500)) by (apply posfin_of_Z; unfold INT_MAX; lia).
      pose proof (to_Q_of_Z_small 500 ltac:(lia)) as E500.
      apply (rounds_to_value_le _ _ _ _ (mul_rounds _ _ H500 Hp) (mul_rounds _ _ H500 Hp')).
      * rewrite !(Qmult_comm (to_Q (of_Z 500))).
        apply Qmult_le_compat_r; [exact Hle|].
        rewrite E500. discriminate.
      * apply Qle_lt_trans with (inject_Z 500 * 1)%Q.
        -- rewrite E500, !(Qmult_comm (inject_Z 500)).
           apply Qmult_le_compat_r; [exact Hu' | discriminate].
        -- vm_compute. reflexivity.
Qed.

(** [100 + m] for a product [m] that is a zero or positive. *)
Lemma lock_sum_rounds (M : double) :
  (exists s0, M = S754_zero s0) \/ posfin M ->
  rounds_to (100 + to_Q M) (add (of_Z 100) M).
Proof.
  pose proof (to_Q_of_Z_small 100 ltac:(lia)) as E100.
  intros [[s0 ->]|Hp].
  - assert (E : add (of_Z 100) (S754_zero s0) = of_Z 100) by (destruct s0; reflexivity).
    rewrite E. simpl to_Q.
    assert (Eq : (100 + 0 == inject_Z 100)%Q) by reflexivity.
    rewrite Eq. apply of_Z_rounds. lia.
  - assert (H100 : posfin (of_Z 100)) by (apply posfin_of_Z; unfold INT_MAX; lia).
    pose proof (add_rounds (of_Z 100) M H100 Hp) as Hr.
    rewrite E100 in Hr. exact Hr.
Qed.

(** The conversion to [int] of a sum between [100] and [600]. *)
Lemma lock_cast (x : Q) (R : double) :
  rounds_to x R -> (100 <= x)%Q -> (x <= 600)%Q ->
  exists k, to_int R = Some k /\ k = Qfloor (to_Q R) /\ 100 <= k <= 600.
Proof.
  intros Hr Hlo Hhi.
  assert (Hlt : (x < pow2 1023)%Q).
  { eapply Qle_lt_trans; [exact Hhi|]. vm_compute. reflexivity. }
  assert (H600 : (inject_Z 600 < pow2 1023)%Q) by (vm_compute; reflexivity).
  pose proof (rounds_to_value_le _ _ _ _ (of_Z_rounds 100 ltac:(lia)) Hr Hlo Hlt) as V1.
  pose proof (rounds_to_value_le _ _ _ _ Hr (of_Z_rounds 600 ltac:(lia)) Hhi H600) as V2.
  rewrite (to_Q_of_Z_small 100) in V1 by lia.
  rewrite (to_Q_of_Z_small 600) in V2 by lia.
  destruct (rounds_to_zero_or_posfin x R Hr Hlt) as [E|(m & e & E & Hb)].
  - rewrite E in V1. simpl in V1. exfalso. revert V1. vm_compute. auto.
  - assert (Hn : not_negative R) by (rewrite E; exact I).
    destruct (trunc R) as [z|] eqn:Et; [|rewrite E in Et; discriminate].
    pose proof (trunc_floor R z Hn Et) as Ez.
    assert (Hz : 100 <= z <= 600).
    { rewrite Ez. split.
      - rewrite <- (Qfloor_Z 100). now apply Qfloor_resp_le.
      - rewrite <- (Qfloor_Z 600). now apply Qfloor_resp_le. }
    exists z. unfold to_int. rewrite Et.
    assert (Eb : (INT_MIN <=? z) && (z <=? INT_MAX) = true).
    { apply andb_true_iff. unfold INT_MIN, INT_MAX.
      split; apply Z.leb_le; lia. }
    rewrite Eb. auto.
Qed.

Lemma lock_sum_bounds (al : double) :
  is_double al -> leb zero al = true -> leb al one = true ->
  (100 <= 100 + to_Q (mul (of_Z 500) al))%Q /\
  (100 + to_Q (mul (of_Z 500) al) <= 600)%Q.
Proof.
  intros Hd H0 H1. destruct (scaled_alpha al Hd H0 H1) as [Hs Hb].
  pose proof (zero_or_posfin_nonneg _ Hs) as Hn.
  split; lra.
Qed.

Lemma default_lock_iters_range (al : double) :
  is_double al -> leb zero al = true -> leb al one = true ->
  exists k,
    default_lock_iters al = Some k /\
    k = Qfloor (to_Q (add (of_Z 100) (mul (of_Z 500) al))) /\
    100 <= k <= 600.
Proof.
  intros Hd H0 H1. destruct (scaled_alpha al Hd H0 H1) as [Hs Hb].
  destruct (lock_sum_bounds al Hd H0 H1) as [B1 B2].
  apply (lock_cast _ _ (lock_sum_rounds _ Hs) B1 B2).
Qed.

(** X10: the default of [lock_iters] is defined, bounded and monotone.
    For [alpha] in [[0, 1]] the conversion [int(100 + 500*alpha)] is
    defined and lies between [100] and [600]; and a larger [alpha] never
    gives a smaller default. *)
Theorem default_lock_iters_scales_with_alpha (al al' : double) :
  is_double al -> leb zero al = true -> leb al one = true ->
  is_double al' -> leb zero al' = true -> leb al' one = true ->
  (to_Q al <= to_Q al')%Q ->
  exists k k',
    default_lock_iters al = Some k /\
    default_lock_iters al' = Some k' /\
    100 <= k /\ k <= k' /\ k' <= 600.
Proof.
  intros Hd H0 H1 Hd' H0' H1' Hle.
  destruct (default_lock_iters_range al Hd H0 H1) as (k & Ek & Fk & Bk).
  destruct (default_lock_iters_range al' Hd' H0' H1') as (k' & Ek' & Fk' & Bk').
  exists k, k'. split; [exact Ek|]. split; [exact Ek'|].
  split; [lia|]. split; [|lia].
  rewrite Fk, Fk'. apply Qfloor_resp_le.
  destruct (scaled_alpha al Hd H0 H1) as [Hs _].
  destruct (scaled_alpha al' Hd' H0' H1') as [Hs' _].
  destruct (lock_sum_bounds al' Hd' H0' H1') as [_ B2].
  apply (rounds_to_value_le _ _ _ _ (lock_sum_rounds _ Hs) (lock_sum_rounds _ Hs')).
  - pose proof (scaled_alpha_mono al al' Hd H0 H1 Hd' H0' H1' Hle). lra.
  - eapply Qle_lt_trans; [exact B2|]. vm_compute. reflexivity.
Qed.

Lemma default_lock_iters_scales_with_alpha_witness :
  exists k k',
    default_lock_iters lit_0_003 = Some k /\
    default_lock_iters lit_0_02 = Some k' /\
    100 <= k /\ k <= k' /\ k' <= 600.
Proof.
  apply (default_lock_iters_scales_with_alpha lit_0_003 lit_0_02);
    try (vm_compute; reflexivity).
  vm_compute. discriminate.
Defined.

(** ** The whole program *)

Lemma resolve_defined (a : ParsedArgs) :
  (argc a <= 8 -> in_unit (if argc a >? 2 then argv2 a else lit_0_02)) ->
  exists p,
    resolve a = Some p /\
    s p = (if argc a >? 1 then argv1 a else lit_0_10) /\
    total_iters p = (if argc a >? 4 then argv4 a else 400000000) /\
    maxN p = (if argc a >? 5 then argv5 a else 100).
Proof.
  intros Hal. unfold resolve.
  destruct (argc a >? 8) eqn:E8.
  - eexists. split; [reflexivity|]. simpl. auto.
  - rewrite Z.gtb_ltb in E8. apply Z.ltb_ge in E8.
    destruct (Hal E8) as (Hd & H0 & H1).
    destruct (default_lock_iters_range _ Hd H0 H1) as (k & Ek & _).
    rewrite Ek. eexists. split; [reflexivity|]. simpl. auto.
Qed.

(** X11: arguments in range keep the conversions and the loop counter of
    [main] in range.  When the serial fraction is in [[0, 1]],
    [total_iters] is below [2^63], [maxN] is below [INT_MAX] and, unless
    [lock_iters] is given on the command line, [alpha] is in [[0, 1]]:
    the value converted by [int(100 + 500*alpha)] is an [int], the value
    converted by [static_cast<uint64_t>(total_iters * s)] is a
    [uint64_t], [++N] is never applied to [INT_MAX], and the sweep writes
    one row for each [N] in [1 .. maxN] after one Driver invocation for
    each [N] in [1 .. max(1, maxN)].  The statement is about the
    conversions, the loop counter and what is written; what the workers
    store in [sink2] is no part of it. *)
Theorem main_conversions_in_range (clock : nat -> double) (a : ParsedArgs) :
  (argc a <= 8 -> in_unit (if argc a >? 2 then argv2 a else lit_0_02)) ->
  in_unit (if argc a >? 1 then argv1 a else lit_0_10) ->
  0 <= (if argc a >? 4 then argv4 a else 400000000) < 2 ^ 63 ->
  (if argc a >? 5 then argv5 a else 100) < INT_MAX ->
  exists p serial st,
    resolve a = Some p /\
    (argc a <= 8 -> default_lock_iters (alpha p) = Some (lock_iters p)) /\
    serial_of p = Some serial /\
    maxN p < INT_MAX /\
    main clock a = Some (st, 0) /\
    map rr_N (rows st) = Zseq 1 (Z.to_nat (maxN p)) /\
    map inv_N (invocations st) = Zseq 1 (Z.to_nat (Z.max 1 (maxN p))).
Proof.
  intros Hal (Hd & H0 & H1) Ht Hm.
  destruct (resolve_defined a Hal) as (p & Hp & Es & Et & Em).
  rewrite <- Es in Hd, H0, H1. rewrite <- Et in Ht. rewrite <- Em in Hm.
  destruct (serial_of_defined p Hd H0 H1 Ht) as [serial Hs].
  destruct (sweep_controller_rows clock p serial Hs Hm) as (st & Hst & Hr & Hi).
  exists p, serial, st.
  split; [exact Hp|]. split; [|split; [exact Hs|split; [exact Hm|split; [|split]]]].
  - intros H8. unfold resolve in Hp.
    assert (E8 : (argc a >? 8) = false).
    { rewrite Z.gtb_ltb. apply Z.ltb_ge. exact H8. }
    rewrite E8 in Hp.
    destruct (default_lock_iters (if argc a >? 2 then argv2 a else lit_0_02))
      as [k|] eqn:Ek; [|discriminate].
    inversion Hp; subst p. cbn [alpha lock_iters]. exact Ek.
  - unfold main. now rewrite Hp, Hst.
  - rewrite Hr. apply map_rr_N_expected.
  - now apply (map_inv_N_run_with p).
Qed.

Lemma main_conversions_in_range_witness :
  exists p serial st,
    resolve no_arguments = Some p /\
    (argc no_arguments <= 8 -> default_lock_iters (alpha p) = Some (lock_iters p)) /\
    serial_of p = Some serial /\
    maxN p < INT_MAX /\
    main sample_clock no_arguments = Some (st, 0) /\
    map rr_N (rows st) = Zseq 1 (Z.to_nat (maxN p)) /\
    map inv_N (invocations st) = Zseq 1 (Z.to_nat (Z.max 1 (maxN p))).
Proof.
  apply (main_conversions_in_range sample_clock no_arguments).
  - intros _. repeat split; vm_compute; reflexivity.
  - repeat split; vm_compute; reflexivity.
  - vm_compute. split; [discriminate | reflexivity].
  - vm_compute. reflexivity.
Defined.

(** ** Gunther's curve stays under the linear one *)

Lemma gunther_at_one (al be : double) :
  is_finite al = true -> is_double be -> is_finite be = true ->
  gunther al be 1 = one.
Proof.
  intros Hfa Hdb Hfb. unfold gunther. change (of_Z (1 - 1)) with (S754_zero false).
  change (of_Z 1) with one.
  destruct (mul_zero_finite al false Hfa) as [sa Ea]. rewrite Ea.
  assert (Eb : exists sb, mul (mul be one) (S754_zero false) = S754_zero sb).
  { apply mul_zero_finite.
    destruct be as [sb|sb| |sb m e]; try discriminate; try reflexivity.
    now rewrite mul_one. }
  destruct Eb as [sb Eb]. rewrite Eb.
  change (add (add one (S754_zero sa)) (S754_zero sb)) with one.
  apply div_self.
Qed.

Lemma in_unit_finite (x : double) :
  is_double x -> leb zero x = true -> leb x one = true -> is_finite x = true.
Proof.
  intros Hd H0 H1. destruct (unit_cases x Hd H0 H1) as [[s0 ->]|[(m & e & -> & _) _]];
    reflexivity.
Qed.

(** A product by a factor in [[0, 1]] is a zero or positive, and not above
    the other factor. *)
Lemma mul_unit (al Y : double) :
  is_double al -> leb zero al = true -> leb al one = true ->
  posfin Y -> (to_Q Y < pow2 1023)%Q ->
  ((exists s0, mul al Y = S754_zero s0) \/ posfin (mul al Y)) /\
  (to_Q (mul al Y) <= to_Q Y)%Q.
Proof.
  intros Hd H0 H1 HY Hlt.
  pose proof (posfin_pos Y HY) as Hpos.
  destruct (unit_cases al Hd H0 H1) as [[s0 ->]|[Hp Hle]].
  - destruct HY as (m & e & -> & _).
    split; [left; eexists; reflexivity|].
    change (to_Q (mul (S754_zero s0) (S754_finite false m e))) with 0%Q.
    now apply Qlt_le_weak.
  - pose proof (mul_rounds al Y Hp HY) as Hr.
    assert (Hx : (to_Q al * to_Q Y <= to_Q Y)%Q).
    { rewrite <- (Qmult_1_l (to_Q Y)) at 2.
      apply Qmult_le_compat_r; [exact Hle | now apply Qlt_le_weak]. }
    split.
    + destruct (rounds_to_zero_or_posfin _ _ Hr) as [E|E].
      * eapply Qle_lt_trans; eassumption.
      * left. now exists false.
      * now right.
    + apply (rounds_to_value_le _ _ _ _ Hr (posfin_rounds_self _ HY) Hx Hlt).
Qed.

(** A product of a zero or positive factor by a positive one. *)
Lemma mul_bounded (X Y : double) (bx by' : Z) :
  (exists s0, X = S754_zero s0) \/ posfin X ->
  posfin Y ->
  (to_Q X <= pow2 bx)%Q -> (to_Q Y <= pow2 by')%Q ->
  0 <= bx -> 0 <= by' -> bx + by' < 1022 ->
  ((exists s0, mul X Y = S754_zero s0) \/ posfin (mul X Y)) /\
  (to_Q (mul X Y) <= pow2 (bx + by' + 1))%Q.
Proof.
  intros HX HY Bx By Hbx Hby Hb.
  pose proof (posfin_pos Y HY) as Hpos.
  destruct HX as [[s0 ->]|Hp].
  - destruct HY as (m & e & -> & _).
    split; [left; eexists; reflexivity|].
    change (to_Q (mul (S754_zero s0) (S754_finite false m e))) with 0%Q.
    apply Qlt_le_weak, pow2_gt0.
  - pose proof (posfin_pos X Hp) as HposX.
    pose proof (mul_rounds X Y Hp HY) as Hr.
    assert (Hx : (to_Q X * to_Q Y <= pow2 (bx + by'))%Q).
    { rewrite pow2_add.
      apply Qle_trans with (pow2 bx * to_Q Y)%Q.
      - apply Qmult_le_compat_r; [exact Bx | now apply Qlt_le_weak].
      - rewrite !(Qmult_comm (pow2 bx)).
        apply Qmult_le_compat_r; [exact By | apply Qlt_le_weak, pow2_gt0]. }
    assert (Hk : 0 < 2 ^ (bx + by')) by (apply pow2_pos; lia).
    pose proof (of_Z_rounds (2 ^ (bx + by')) Hk) as Hr2.
    rewrite <- (pow2_Z (bx + by')) in Hr2 by lia.
    assert (Hlt : (pow2 (bx + by') < pow2 (bx + by' + 1))%Q) by (apply pow2_lt; lia).
    destruct (rounds_to_posfin _ _ (bx + by') (bx + by' + 1) Hr2
                (Qle_refl _) Hlt ltac:(lia) ltac:(lia)) as (_ & _ & Hup).
    assert (Hlt2 : (pow2 (bx + by') < pow2 1023)%Q) by (apply pow2_lt; lia).
    split.
    + destruct (rounds_to_zero_or_posfin _ _ Hr) as [E|E].
      * eapply Qle_lt_trans; eassumption.
      * left. now exists false.
      * now right.
    + eapply Qle_trans; [|exact Hup].
      apply (rounds_to_value_le _ _ _ _ Hr Hr2 Hx Hlt2).
Qed.

(** Adding a zero or a positive number to a number that is at least one. *)
Lemma add_grows (X Y : double) (b : Z) :
  posfin X -> (1 <= to_Q X)%Q -> (to_Q X <= pow2 b)%Q ->
  (exists s0, Y = S754_zero s0) \/ posfin Y ->
  (to_Q Y <= pow2 b)%Q ->
  0 <= b < 1021 ->
  posfin (add X Y) /\ (1 <= to_Q (add X Y))%Q /\ (to_Q (add X Y) <= pow2 (b + 2))%Q.
Proof.
  intros HX H1 Bx HY By Hb.
  destruct HY as [[s0 ->]|Hp].
  - assert (E : add X (S754_zero s0) = X)
      by (destruct HX as (m & e & -> & _); reflexivity).
    rewrite E. split; [exact HX|]. split; [exact H1|].
    eapply Qle_trans; [exact Bx|]. apply pow2_le. lia.
  - pose proof (posfin_pos Y Hp) as Hpos.
    pose proof (add_rounds X Y HX Hp) as Hr.
    change 1%Q with (pow2 0).
    apply (rounds_to_posfin _ _ 0 (b + 2) Hr); try lia.
    + change (pow2 0) with 1%Q. lra.
    + apply Qle_lt_trans with (pow2 (b + 1)); [|apply pow2_lt; lia].
      rewrite pow2_add. change (pow2 1) with 2%Q. lra.
Qed.

Lemma gunther_denominator (al be : double) (N : Z) :
  is_double al -> leb zero al = true -> leb al one = true ->
  is_double be -> leb zero be = true -> leb be one = true ->
  2 <= N <= INT_MAX ->
  let D := add (add (of_Z 1) (mul al (of_Z (N - 1))))
               (mul (mul be (of_Z N)) (of_Z (N - 1))) in
  posfin D /\ (1 <= to_Q D)%Q /\ (to_Q D <= pow2 66)%Q.
Proof.
  intros Hda H0a H1a Hdb H0b H1b HN D.
  destruct (of_Z_props N ltac:(lia)) as (PN & _ & UN).
  destruct (of_Z_props (N - 1) ltac:(lia)) as (PN1 & _ & UN1).
  assert (L31 : (pow2 31 < pow2 1023)%Q) by (apply pow2_lt; lia).
  destruct (mul_unit al (of_Z (N - 1)) Hda H0a H1a PN1) as [ZA BA];
    [eapply Qle_lt_trans; eassumption|].
  destruct (mul_unit be (of_Z N) Hdb H0b H1b PN) as [ZB1 BB1];
    [eapply Qle_lt_trans; eassumption|].
  destruct (mul_bounded (mul be (of_Z N)) (of_Z (N - 1)) 31 31 ZB1 PN1) as [ZB BB];
    try lia; try assumption.
  { eapply Qle_trans; eassumption. }
  change (31 + 31 + 1) with 63 in BB.
  destruct (add_grows (of_Z 1) (mul al (of_Z (N - 1))) 31) as (P1 & L1 & U1);
    try lia; try assumption.
  - apply posfin_one.
  - change (of_Z 1) with one. rewrite to_Q_one. apply Qle_refl.
  - change (of_Z 1) with one. rewrite to_Q_one.
    change 1%Q with (pow2 0). apply pow2_le. lia.
  - eapply Qle_trans; eassumption.
  - change (31 + 2) with 33 in U1.
    destruct (add_grows (add (of_Z 1) (mul al (of_Z (N - 1))))
                (mul (mul be (of_Z N)) (of_Z (N - 1))) 64) as (P2 & L2 & U2);
      try lia; try assumption.
    + eapply Qle_trans; [exact U1|]. apply pow2_le. lia.
    + eapply Qle_trans; [exact BB|]. apply pow2_le. lia.
    + split; [exact P2|]. split; [exact L2 | exact U2].
Qed.

(** X12: Gunther's curve is positive and never above the linear speedup.
    For [alpha] and [beta] in [[0, 1]] and [1 <= N <= INT_MAX], in
    binary64 arithmetic [0 < gunther(alpha, beta, N) <= N]: the
    denominator [1 + alpha*(N-1) + beta*N*(N-1)] is at least [1.0]. *)
Theorem gunther_at_most_linear (al be : double) (N : Z) :
  is_double al -> leb zero al = true -> leb al one = true ->
  is_double be -> leb zero be = true -> leb be one = true ->
  1 <= N <= INT_MAX ->
  ltb zero (gunther al be N) = true /\
  leb (gunther al be N) (of_Z N) = true.
Proof.
  intros Hda H0a H1a Hdb H0b H1b HN.
  destruct (Z.eq_dec N 1) as [->|Hne].
  - rewrite (gunther_at_one al be); [split; reflexivity | | exact Hdb |];
      now apply in_unit_finite.
  - destruct (gunther_denominator al be N Hda H0a H1a Hdb H0b H1b ltac:(lia))
      as (PD & LD & UD).
    unfold gunther.
    set (D := add (add (of_Z 1) (mul al (of_Z (N - 1))))
                  (mul (mul be (of_Z N)) (of_Z (N - 1)))) in *.
    destruct (of_Z_props N HN) as (PN & LN & UN).
    pose proof (posfin_pos D PD) as HposD.
    pose proof (posfin_pos _ PN) as HposN.
    assert (Hq1 : (pow2 (-66) <= to_Q (of_Z N) / to_Q D)%Q).
    { apply Qle_shift_div_l; [exact HposD|].
      apply Qle_trans with (pow2 (-66) * pow2 66)%Q.
      - rewrite !(Qmult_comm (pow2 (-66))).
        apply Qmult_le_compat_r; [exact UD | apply Qlt_le_weak, pow2_gt0].
      - rewrite <- pow2_add. exact LN. }
    assert (Hq2 : (to_Q (of_Z N) / to_Q D <= to_Q (of_Z N))%Q).
    { apply Qle_shift_div_r; [exact HposD|].
      rewrite <- (Qmult_1_r (to_Q (of_Z N))) at 1.
      rewrite !(Qmult_comm (to_Q (of_Z N))).
      apply Qmult_le_compat_r; [exact LD | now apply Qlt_le_weak]. }
    assert (Hr : rounds_to (to_Q (of_Z N) / to_Q D) (div (of_Z N) D)).
    { apply div_rounds; [exact PN | exact PD |].
      eapply Qle_trans; [|exact Hq1]. apply pow2_le. lia. }
    split.
    + destruct (rounds_to_posfin _ _ (-66) 32 Hr Hq1) as ((m & e & E & _) & _);
        try lia.
      * eapply Qle_lt_trans; [exact Hq2|].
        eapply Qle_lt_trans; [exact UN|]. apply pow2_lt. lia.
      * rewrite E. reflexivity.
    + apply (rounds_to_leb _ _ _ _ Hr (posfin_rounds_self _ PN) Hq2).
Qed.

Lemma gunther_at_most_linear_witness :
  ltb zero (gunther lit_0_02 lit_0_003 100) = true /\
  leb (gunther lit_0_02 lit_0_003 100) (of_Z 100) = true.
Proof.
  apply (gunther_at_most_linear lit_0_02 lit_0_003 100);
    try (vm_compute; reflexivity).
  vm_compute. split; discriminate.
Defined.

(** ** The default sweep *)

Lemma Zseq_In (n : nat) : forall lo z,
  lo <= z < lo + Z.of_nat n -> In z (Zseq lo n).
Proof.
  induction n as [|n IH]; intros lo z Hz; [lia|].
  rewrite Nat2Z.inj_succ in Hz. simpl.
  destruct (Z.eq_dec lo z) as [E|E]; [now left|right].
  apply IH. lia.
Qed.

(** X13: the default parameters show retrograde scaling.  With no
    argument on the command line ([alpha = 0.02], [beta = 0.003],
    [maxN = 100]) the Gunther column of the sweep rises strictly up to
    [N = 18] and falls strictly from there to [N = 100]. *)
Theorem default_gunther_peaks_at_18 (N : Z) :
  1 <= N < 100 ->
  exists p,
    resolve no_arguments = Some p /\ maxN p = 100 /\
    if N <? 18
    then ltb (gunther (alpha p) (beta p) N) (gunther (alpha p) (beta p) (N + 1)) = true
    else ltb (gunther (alpha p) (beta p) (N + 1)) (gunther (alpha p) (beta p) N) = true.
Proof.
  intros HN. eexists. split; [vm_compute; reflexivity|]. split; [reflexivity|].
  cbn [alpha beta].
  assert (H : forallb
                (fun N => if N <? 18
                          then ltb (gunther lit_0_02 lit_0_003 N)
                                   (gunther lit_0_02 lit_0_003 (N + 1))
                          else ltb (gunther lit_0_02 lit_0_003 (N + 1))
                                   (gunther lit_0_02 lit_0_003 N))
                (Zseq 1 99) = true) by (vm_compute; reflexivity).
  rewrite forallb_forall in H.
  specialize (H N (Zseq_In 99 1 N ltac:(lia))).
  destruct (N <? 18); exact H.
Qed.

Lemma default_gunther_peaks_at_18_witness :
  exists p,
    resolve no_arguments = Some p /\ maxN p = 100 /\
    ltb (gunther (alpha p) (beta p) 19) (gunther (alpha p) (beta p) 18) = true.
Proof.
  destruct (default_gunther_peaks_at_18 18 ltac:(lia)) as (p & H1 & H2 & H3).
  exists p. split; [exact H1|]. split; [exact H2|]. exact H3.
Defined.

(** ** After the joins *)

Lemma trace_ops_left (sched : list nat) (c : pool) :
  (length (pl_trace (exec sched c)) + ops_left (exec sched c)
   = length (pl_trace c) + ops_left c)%nat.
Proof.
  apply (exec_invariant
           (fun c' => (length (pl_trace c') + ops_left c'
                       = length (pl_trace c) + ops_left c)%nat)); [|reflexivity].
  intros c0 c' i H Hs.
  destruct (step_cases c0 c' i Hs) as (o & rest & _ & Htr & _).
  rewrite (ops_left_step c0 c' i Hs) in H.
  rewrite Htr, length_app. simpl. lia.
Qed.

Lemma ops_left_init (w : list op) (n : nat) :
  ops_left (init_pool (repeat w n)) = (n * length w)%nat.
Proof.
  unfold ops_left. rewrite todos_init_pool.
  induction n as [|n IH]; [reflexivity|]. simpl. now rewrite IH.
Qed.

Lemma length_concat_repeat {A : Type} (l : list A) (n : nat) :
  length (concat (repeat l n)) = (n * length l)%nat.
Proof.
  induction n as [|n IH]; [reflexivity|]. simpl. now rewrite length_app, IH.
Qed.

Lemma worker_length (p : RunParameters) (n : Z) :
  Z.of_nat (length (worker p n))
  = 1 + Z.max 0 (coh_rounds p) * (1 + 2 * Z.max 0 (coh_ops p))
    + 2 * Z.max 0 (lock_iters p).
Proof.
  rewrite worker_shape, !length_app, !length_concat_repeat.
  unfold round_shape. cbn [length]. rewrite length_app, repeat_length, length_map,
    Zseq_length.
  set (r := Z.to_nat (coh_rounds p)). set (o := Z.to_nat (coh_ops p)).
  set (l := Z.to_nat (lock_iters p)).
  replace (Z.max 0 (coh_rounds p)) with (Z.of_nat r) by (unfold r; lia).
  replace (Z.max 0 (coh_ops p)) with (Z.of_nat o) by (unfold o; lia).
  replace (Z.max 0 (lock_iters p)) with (Z.of_nat l) by (unfold l; lia).
  nia.
Qed.

Lemma joined_nobody_waits (c : pool) :
  pool_inv c -> all_joined c = true -> waiting c = O.
Proof.
  intros (_ & Hsome & (G & HG) & _) Hj.
  apply all_joined_todos in Hj. unfold todos in Hj.
  assert (Hleft : forall j t, nth_error (pl_threads c) j = Some t -> arrivals_left t = 0).
  { intros j t Ht. unfold arrivals_left.
    assert (E : th_todo t = []).
    { rewrite Forall_forall in Hj. apply Hj. apply in_map. eapply nth_error_In. exact Ht. }
    rewrite E. reflexivity. }
  destruct Hsome as [E|Hlt]; [unfold waiting; rewrite E; reflexivity|].
  destruct (filter_length_some_not at_barrier _ Hlt) as (b & tb & Hb & Hrun).
  pose proof (HG b tb Hb) as Gb. rewrite (Hleft b tb Hb), Hrun in Gb.
  unfold waiting.
  destruct (filter at_barrier (pl_threads c)) as [|t l] eqn:Ef; [reflexivity|].
  assert (Hin : In t (filter at_barrier (pl_threads c))) by (rewrite Ef; now left).
  apply filter_In in Hin. destruct Hin as [Hin Hbar].
  apply In_nth_error in Hin. destruct Hin as [j Hjn].
  pose proof (HG j t Hjn) as Gj. rewrite (Hleft j t Hjn), Hbar in Gj. lia.
Qed.

(** X14: what the joins leave behind.  Under every schedule of the [N]
    threads of an invocation, once all threads have finished the mutex is
    free, nobody is left at the barrier, and the threads have performed
    [N * (1 + coh_rounds * (1 + 2 * coh_ops) + 2 * lock_iters)] operations
    in all (negative counts counting as none): each its whole program,
    nothing more. *)
Theorem joined_pool_is_quiescent
  (p : RunParameters) (N : Z) (inv : Invocation) (sched : list nat) :
  run_with p N = Some inv -> 1 <= N ->
  let c := exec sched (init_pool (threads inv)) in
  all_joined c = true ->
  pl_mutex c = None /\
  pl_arrived c = O /\
  Z.of_nat (length (pl_trace c))
  = N * (1 + Z.max 0 (coh_rounds p) * (1 + 2 * Z.max 0 (coh_ops p))
         + 2 * Z.max 0 (lock_iters p)).
Proof.
  intros H HN c Hj.
  pose proof (pool_inv_workers p N inv sched H) as Hinv. fold c in Hinv.
  split; [|split].
  - destruct (pl_mutex c) as [h|] eqn:Em; [|reflexivity].
    destruct (holder_about_to_unlock c h Hinv Em) as [rest Hh].
    apply all_joined_todos in Hj. unfold todos in Hj.
    rewrite Forall_forall in Hj.
    specialize (Hj _ (in_map th_todo _ _ (nth_error_In _ _ Hh))). discriminate.
  - pose proof Hinv as (Hw & _). rewrite Hw. now apply joined_nobody_waits.
  - pose proof (trace_ops_left sched (init_pool (threads inv))) as E.
    fold c in E. rewrite (all_joined_ops_left c Hj) in E.
    rewrite (threads_repeat p N inv H), ops_left_init in E.
    cbn [init_pool pl_trace length] in E.
    rewrite <- (worker_length p (per inv)).
    rewrite Nat.add_0_r, Nat.add_0_l in E. rewrite E, Nat2Z.inj_mul. f_equal. lia.
Qed.

Lemma joined_pool_is_quiescent_witness :
  let c := exec (round_robin 24) (init_pool (threads sample_invocation)) in
  pl_mutex c = None /\ pl_arrived c = O /\
  Z.of_nat (length (pl_trace c)) = 2 * (1 + 2 * (1 + 2 * 3) + 2 * 2).
Proof.
  apply (joined_pool_is_quiescent (small_params lit_0_10 1000 4) 2 sample_invocation
           (round_robin 24) sample_invocation_runs ltac:(lia)).
  vm_compute. reflexivity.
Defined.

(** ** A serial fraction in the unit interval *)

Lemma mul_comm (X Y : double) : mul X Y = mul Y X.
Proof.
  unfold mul, SFmul.
  destruct X as [sx|sx| |sx mx ex], Y as [sy|sy| |sy my ey];
    try reflexivity; try (now rewrite (xorb_comm sx sy)).
  now rewrite (xorb_comm sx sy), (Pos.mul_comm mx my), (Z.add_comm ex ey).
Qed.

Lemma serial_le_total (p : RunParameters) (serial : Z) :
  serial_of p = Some serial ->
  is_double (s p) -> leb zero (s p) = true -> leb (s p) one = true ->
  0 <= total_iters p < 2 ^ 53 ->
  0 <= serial <= total_iters p.
Proof.
  unfold serial_of. intros H Hd H0 H1 Ht.
  destruct (Z.eq_dec (total_iters p) 0) as [E0|E0].
  - rewrite E0 in *. change (of_Z 0) with (S754_zero false) in H.
    destruct (unit_cases _ Hd H0 H1) as [[s0 E]|[(m & e & E & _) _]];
      rewrite E in H; inversion H; lia.
  - assert (HT : posfin (of_Z (total_iters p))).
    { apply (rounds_to_posfin (inject_Z (total_iters p)) _ 0 53); try lia.
      - apply of_Z_rounds. lia.
      - change (pow2 0) with (inject_Z 1). rewrite <- Zle_Qle. lia.
      - rewrite (pow2_Z 53) by lia. rewrite <- Zlt_Qlt. lia. }
    pose proof (to_Q_of_Z_small (total_iters p) ltac:(lia)) as ET.
    assert (Hlt : (to_Q (of_Z (total_iters p)) < pow2 1023)%Q).
    { rewrite ET, (pow2_Z 1023) by lia. rewrite <- Zlt_Qlt.
      assert (2 ^ 53 < 2 ^ 1023) by reflexivity. lia. }
    rewrite mul_comm in H.
    destruct (mul_unit (s p) (of_Z (total_iters p)) Hd H0 H1 HT Hlt) as [HZ HB].
    assert (Hn : not_negative (mul (s p) (of_Z (total_iters p)))).
    { destruct HZ as [[s0 E]|(m & e & E & _)]; rewrite E; exact I. }
    destruct (to_uint64_floor _ _ Hn H) as [Ef [Hs0 _]].
    split; [exact Hs0|].
    rewrite Ef.
    apply Z.le_trans with (Qfloor (inject_Z (total_iters p)));
      [|rewrite Qfloor_Z; lia].
    apply Qfloor_resp_le.
    eapply Qle_trans; [exact HB|]. rewrite ET. apply Qle_refl.
Qed.

(** X15: a serial fraction in [[0, 1]] never makes the subtraction wrap.
    For [s] in [[0, 1]] and [total_iters < 2^53] (so that its conversion
    to [double] is exact), [serial_iters <= total_iters],
    [parallel_iters] is the plain difference [total_iters - serial_iters],
    and no worker is given more than [total_iters] iterations. *)
Theorem unit_fraction_never_wraps (p : RunParameters) (N : Z) (inv : Invocation) :
  run_with p N = Some inv ->
  is_double (s p) -> leb zero (s p) = true -> leb (s p) one = true ->
  0 <= total_iters p < 2 ^ 53 ->
  0 <= serial_iters inv <= total_iters p /\
  parallel_iters inv = total_iters p - serial_iters inv /\
  0 <= per inv <= total_iters p.
Proof.
  intros H Hd H0 H1 Ht.
  destruct (run_with_fields p N inv H) as (Hs & Hp & Hper & _ & _ & HN).
  pose proof (serial_le_total p _ Hs Hd H0 H1 Ht) as Hle.
  assert (Ep : parallel_iters inv = total_iters p - serial_iters inv).
  { rewrite Hp. apply wrap64_small. unfold is_uint64, UINT64_MOD.
    assert (2 ^ 53 < 2 ^ 64) by reflexivity. lia. }
  split; [exact Hle|]. split; [exact Ep|].
  pose proof (wrap64_range N) as HrN. unfold is_uint64 in HrN.
  assert (0 < wrap64 N) by lia.
  rewrite Hper. split.
  - apply Z.div_pos; lia.
  - apply Z.le_trans with (parallel_iters inv); [|lia].
    apply Z.div_le_upper_bound; nia.
Qed.

Lemma unit_fraction_never_wraps_witness :
  0 <= serial_iters sample_invocation <= 1000 /\
  parallel_iters sample_invocation = 1000 - serial_iters sample_invocation /\
  0 <= per sample_invocation <= 1000.
Proof.
  apply (unit_fraction_never_wraps (small_params lit_0_10 1000 4) 2 sample_invocation
           sample_invocation_runs); try (vm_compute; reflexivity).
  vm_compute. split; [discriminate | reflexivity].
Defined.
